(** * xml2csv: flattening an XML tree to CSV rows

    A shallow embedding of [xml2csv.py].  The parsed document
    ([xml.etree.ElementTree.Element]) is an ordered tree of tagged nodes; the
    row locator, the group indexer, the selection expander, the leaf
    collector, the column namer and the row assembler are transcribed
    function by function and keep the names they have in the source.

    Python dicts whose iteration order is observed (the tag grouping of
    [get_children_by_tag], the [OrderedDict]s of values) are association
    lists in insertion order; dicts that are only probed and updated
    (a selection, [header_paths]) are [gmap]s.

    A [str] is the [string] of the bytes of its UTF-8 encoding; trimming
    ([str.strip()]) works on the characters these bytes encode and removes
    the white space of Unicode.

    Loops are functions by recursion on a bound.  The worklist loop of
    [extract_rows_for_element] takes its bound as the argument [fuel] and
    answers [None] when it runs out; the search loop of
    [find_row_parent_and_tag], the suffix loop of [disambiguate_column_name]
    and the recursion of [iter_scalar_leaves] are given a bound computed from
    their input, which they are proved never to reach. *)

From Stdlib Require Import ZArith Ascii String List Permutation.
From stdpp Require Import base option list strings gmap pretty.

Local Open Scope string_scope.
Local Open Scope list_scope.
Local Open Scope nat_scope.

(** ** The document tree *)

(** [ET.Element]: [node.tag], [node.text] (which is [None] when the element
    has no character data before its first child) and [list(node)]. *)
#[local] Unset Elimination Schemes.
Inductive Element : Type :=
  Elem { tag : string; text : option string; children : list Element }.
#[local] Set Elimination Schemes.

(** A [PathKey] is a Python tuple of tags. *)
Abbreviation PathKey := (list string).
(** A selection is a [Dict[PathKey, int]]. *)
Abbreviation Selection := (gmap (list string) Z).

Fixpoint node_count (n : Element) : nat :=
  match n with
  | Elem _ _ cs => S (list_sum (map node_count cs))
  end.

Fixpoint height (n : Element) : nat :=
  match n with
  | Elem _ _ cs => S (foldr Nat.max 0 (map height cs))
  end.

(** ** Python built-ins used by the program *)

(** A [str] is held as the bytes of its UTF-8 encoding, which is what a
    string literal of Rocq holds.  Comparing, concatenating and joining
    [str]s are the same operations on their encodings; [str.strip()] is the
    one operation of the program that looks at characters. *)

(** The bytes [10xxxxxx] continue a character. *)
Definition is_continuation (b : ascii) : bool :=
  let n := nat_of_ascii b in (128 <=? n) && (n <? 192).

(** The characters of a text: each one a byte with the continuation bytes
    that follow it. *)
Fixpoint utf8_chars (s : string) : list string :=
  match s with
  | EmptyString => []
  | String b s' =>
      match utf8_chars s' with
      | String b' c :: cs =>
          if is_continuation b' then String b (String b' c) :: cs
          else String b EmptyString :: String b' c :: cs
      | _ => [String b EmptyString]
      end
  end.

(** The code point of one character, [None] for bytes that do not encode
    one (a stray continuation byte, a short or an overlong sequence). *)
Definition code_point (c : string) : option N :=
  match map (fun b => N.of_nat (nat_of_ascii b)) (list_ascii_of_string c) with
  | [b0] => if (b0 <? 0x80)%N then Some b0 else None
  | [b0; b1] =>
      if ((0xC2 <=? b0) && (b0 <? 0xE0))%N
      then Some ((b0 - 0xC0) * 0x40 + (b1 - 0x80))%N else None
  | [b0; b1; b2] =>
      let code := ((b0 - 0xE0) * 0x1000 + (b1 - 0x80) * 0x40 + (b2 - 0x80))%N in
      if ((0xE0 <=? b0) && (b0 <? 0xF0) && (0x800 <=? code))%N
      then Some code else None
  | [b0; b1; b2; b3] =>
      let code := ((b0 - 0xF0) * 0x40000 + (b1 - 0x80) * 0x1000
                   + (b2 - 0x80) * 0x40 + (b3 - 0x80))%N in
      if ((0xF0 <=? b0) && (b0 <? 0xF8) && (0x10000 <=? code))%N
      then Some code else None
  | _ => None
  end.

(** [str.isspace()] of one character: the white space of Unicode, which is
    U+0009-000D, U+001C-0020, U+0085, U+00A0, U+1680, U+2000-200A, U+2028,
    U+2029, U+202F, U+205F and U+3000. *)
Definition is_space (code : N) : bool :=
  (((0x09 <=? code) && (code <=? 0x0D))
   || ((0x1C <=? code) && (code <=? 0x20))
   || (code =? 0x85) || (code =? 0xA0) || (code =? 0x1680)
   || ((0x2000 <=? code) && (code <=? 0x200A))
   || (code =? 0x2028) || (code =? 0x2029) || (code =? 0x202F)
   || (code =? 0x205F) || (code =? 0x3000))%N.

(** [str.lstrip()], on the characters of a text. *)
Fixpoint lstrip (chars : list string) : list string :=
  match chars with
  | [] => []
  | c :: chars' =>
      if from_option is_space false (code_point c) then lstrip chars' else chars
  end.

Definition rstrip (chars : list string) : list string :=
  reverse (lstrip (reverse chars)).

(** [str.strip()] with no argument removes the leading and the trailing
    white space. *)
Definition strip (s : string) : string :=
  String.concat "" (rstrip (lstrip (utf8_chars s))).

(** [".".join(full_path)] *)
Definition join_dot (full_path : PathKey) : string := String.concat "." full_path.

(** [path[-1]]; every path the program builds is non-empty
    (see [iter_scalar_leaves_path_nonempty]). *)
Definition path_last (path : PathKey) : string := List.last path "".

(** [list.pop()]: removes and returns the last item. *)
Definition list_pop {A} (l : list A) : option (list A * A) :=
  match reverse l with
  | [] => None
  | x :: r => Some (reverse r, x)
  end.

(** *** Insertion-ordered dictionaries *)

(** [d.setdefault(k, []).append(v)] on a dict of lists. *)
Fixpoint setdefault_append {A} (d : list (string * list A)) (k : string) (v : A)
  : list (string * list A) :=
  match d with
  | [] => [(k, [v])]
  | (k', vs) :: d' =>
      if decide (k' = k) then (k', vs ++ [v]) :: d'
      else (k', vs) :: setdefault_append d' k v
  end.

(** [d.get(k, [])] on a dict of lists. *)
Fixpoint dict_get_list {A} (d : list (string * list A)) (k : string) : list A :=
  match d with
  | [] => []
  | (k', vs) :: d' => if decide (k' = k) then vs else dict_get_list d' k
  end.

(** An [OrderedDict[str, str]]. *)
Abbreviation odict := (list (string * string)).

(** [k in d] / [d.get(k)] *)
Fixpoint od_get (d : odict) (k : string) : option string :=
  match d with
  | [] => None
  | (k', v) :: d' => if decide (k' = k) then Some v else od_get d' k
  end.

(** [d[k] = v]: an existing key keeps its position, a new one goes last. *)
Fixpoint od_set (d : odict) (k v : string) : odict :=
  match d with
  | [] => [(k, v)]
  | (k', v') :: d' =>
      if decide (k' = k) then (k', v) :: d' else (k', v') :: od_set d' k v
  end.

(** ** Tree adapter *)

Definition get_children_by_tag (parent : Element) : list (string * list Element) :=
  fold_left (fun children_by_tag child =>
               setdefault_append children_by_tag (tag child) child)
            (children parent) [].

Definition first_repeating_child_tag (parent : Element) : option string :=
  fst <$> List.find (fun '(_, nodes) => 1 <? length nodes) (get_children_by_tag parent).

(** ** Row locator *)

(** The [while queue:] loop of [find_row_parent_and_tag].  [Some None] is the
    fall-through of the loop (empty queue), [None] an exhausted bound.  The
    tag returned by [first_repeating_child_tag] is a key of the grouping
    ([first_repeating_child_tag_Some]), so [get_children_by_tag(parent)[tag]]
    never raises. *)
Fixpoint bfs_loop (fuel : nat) (queue : list Element)
  : option (option (Element * string * list Element)) :=
  match queue with
  | [] => Some None
  | parent :: queue' =>
      match fuel with
      | 0 => None
      | S fuel' =>
          match first_repeating_child_tag parent with
          | Some tag =>
              let row_elements := dict_get_list (get_children_by_tag parent) tag in
              Some (Some (parent, tag, row_elements))
          | None => bfs_loop fuel' (queue' ++ children parent)
          end
      end
  end.

(** Each iteration removes one node of the tree from the queue for good, so
    [node_count root] iterations are all the loop can make. *)
Definition find_row_parent_and_tag (root : Element)
  : option (option Element * string * list Element) :=
  match bfs_loop (node_count root) [root] with
  | None => None
  | Some (Some (parent, tag, row_elements)) => Some (Some parent, tag, row_elements)
  | Some None => Some (None, tag root, [root])
  end.

(** ** Group indexer *)

Definition compute_repeating_group_keys (parent : Element) (parent_path : PathKey)
  : list (PathKey * string * list Element) :=
  flat_map (fun '(tag, children) =>
              if 1 <? length children then [(parent_path ++ [tag], tag, children)]
              else [])
           (get_children_by_tag parent).

Fixpoint find_next_unselected_repeating_group
    (root : Element) (selection : Selection) (path_prefix : option PathKey)
    {struct root} : option (PathKey * list Element) :=
  let path_prefix := default [tag root] path_prefix in
  let groups_here := compute_repeating_group_keys root path_prefix in
  match List.find (fun '(group_key, _, _) => bool_decide (selection !! group_key = None))
                  groups_here with
  | Some (group_key, _, children) => Some (group_key, children)
  | None =>
      (fix over_children (cs : list Element) : option (PathKey * list Element) :=
         match cs with
         | [] => None
         | child :: cs' =>
             let siblings := dict_get_list (get_children_by_tag root) (tag child) in
             if length siblings =? 1 then
               match find_next_unselected_repeating_group
                       child selection (Some (path_prefix ++ [tag child])) with
               | Some found => Some found
               | None => over_children cs'
               end
             else over_children cs'
         end) (children root)
  end.

(** ** Leaf collector *)

(** The generator [iter_scalar_leaves], as the list of what it yields.  The
    recursion goes into a member of a tag group, which is a child of [node];
    [depth] bounds the nesting of calls. *)
Fixpoint iter_scalar_leaves_depth (depth : nat) (node : Element)
    (selection : Selection) (path : option PathKey) : list (PathKey * string) :=
  match depth with
  | 0 => []
  | S depth' =>
      let path := default [tag node] path in
      match children node with
      | [] => [(path, strip (default "" (text node)))]
      | _ =>
          flat_map (fun '(tag, siblings) =>
              let next_path := path ++ [tag] in
              if 1 <? length siblings then
                match selection !! next_path with
                | Some idx =>
                    if ((0 <=? idx) && (idx <? Z.of_nat (length siblings)))%Z then
                      match siblings !! Z.to_nat idx with
                      | Some s => iter_scalar_leaves_depth depth' s selection (Some next_path)
                      | None => []
                      end
                    else []
                | None => []
                end
              else
                match siblings with
                | s :: _ => iter_scalar_leaves_depth depth' s selection (Some next_path)
                | [] => []
                end)
            (get_children_by_tag node)
      end
  end.

Definition iter_scalar_leaves (node : Element) (selection : Selection)
    (path : option PathKey) : list (PathKey * string) :=
  iter_scalar_leaves_depth (height node) node selection path.

(** ** Container values *)

(** The body of the [for path, text in iter_scalar_leaves(...)] loop of
    [build_container_values]. *)
Definition container_value_step (row_parent : Element) (row_tag : string)
    (values : odict) (leaf : PathKey * string) : odict :=
  let '(path, text) := leaf in
  if bool_decide (2 <= length path) && bool_decide (path !! 0 = Some (tag row_parent))
     && bool_decide (path !! 1 = Some row_tag)
  then values
  else if decide (text = "") then values
  else od_set values (path_last path) text.

Definition build_container_values (row_parent : option Element) (row_tag : string)
  : odict :=
  match row_parent with
  | None => []
  | Some row_parent =>
      fold_left (container_value_step row_parent row_tag)
                (iter_scalar_leaves row_parent ∅ None) []
  end.

(** ** Column namer *)

(** [f"{dotted}_{i}"] *)
Definition suffixed (dotted : string) (i : nat) : string :=
  dotted +:+ "_" +:+ pretty i.

(** The [while True:] loop of [disambiguate_column_name], started at [i]. *)
Fixpoint suffix_loop (fuel : nat) (dotted : string)
    (existing : gmap string (list string)) (i : nat) : option string :=
  match fuel with
  | 0 => None
  | S fuel' =>
      let alt := suffixed dotted i in
      if decide (existing !! alt = None) then Some alt
      else suffix_loop fuel' dotted existing (S i)
  end.

(** [existing] has [size existing] keys, so one of the [S (size existing)]
    first suffixes is free ([suffix_loop_total]); the [default] is never
    taken. *)
Definition disambiguate_column_name (candidate : string) (full_path : PathKey)
    (existing : gmap string (list string)) : string :=
  if decide (existing !! candidate = None) then candidate
  else
    let dotted := join_dot full_path in
    if decide (existing !! dotted = None) then dotted
    else default dotted (suffix_loop (S (size existing)) dotted existing 2).

(** ** Row assembler *)

(** The pair [header_order], [header_paths] that the caller owns and every
    extraction call mutates. *)
Record HeaderState : Type := mkHeader {
  header_order : list string;
  header_paths : gmap string (list string)
}.

Definition fresh_header : HeaderState := mkHeader [] ∅.

(** [if col not in header_paths: header_paths[col] = full_path;
    header_order.append(col)] *)
Definition register_column (col : string) (full_path : PathKey) (hs : HeaderState)
  : HeaderState :=
  if decide (header_paths hs !! col = None) then
    mkHeader (header_order hs ++ [col]) (<[col := full_path]> (header_paths hs))
  else hs.

(** The body of [for candidate_name, value in container_values.items()]. *)
Definition container_step (row_parent : option Element)
    (st : odict * HeaderState) (item : string * string) : odict * HeaderState :=
  let '(row_map, hs) := st in
  let '(candidate_name, value) := item in
  let full_path :=
    match row_parent with
    | Some p => [tag p; candidate_name]
    | None => [candidate_name]
    end in
  let collides :=
    match row_parent with
    | Some p =>
        bool_decide (header_paths hs !! candidate_name ≠ None)
        && bool_decide (header_paths hs !! candidate_name ≠ Some [tag p; candidate_name])
    | None => false
    end in
  let col :=
    if collides then disambiguate_column_name candidate_name full_path (header_paths hs)
    else candidate_name in
  let hs := register_column col full_path hs in
  let row_map :=
    match od_get row_map col with
    | None => od_set row_map col value
    | Some _ => row_map
    end in
  (row_map, hs).

(** The body of [for path, text in iter_scalar_leaves(row_elem, sel)]. *)
Definition leaf_step (row_parent : option Element) (row_tag : string)
    (st : odict * HeaderState) (leaf : PathKey * string) : odict * HeaderState :=
  let '(row_map, hs) := st in
  let '(path, text) := leaf in
  let effective_path :=
    match row_parent with
    | Some p =>
        if bool_decide (2 <= length path) && bool_decide (path !! 0 = Some (tag p))
           && bool_decide (path !! 1 = Some row_tag)
        then drop 1 path else path
    | None => path
    end in
  if decide (text = "") then (row_map, hs)
  else
    let candidate_name := path_last effective_path in
    let col :=
      if bool_decide (header_paths hs !! candidate_name ≠ None)
         && bool_decide (header_paths hs !! candidate_name ≠ Some effective_path)
      then disambiguate_column_name candidate_name effective_path (header_paths hs)
      else candidate_name in
    let hs := register_column col effective_path hs in
    (od_set row_map col text, hs).

(** The two passes that fill one [row_map]. *)
Definition seed_container_values (row_parent : option Element)
    (container_values : odict) (st : odict * HeaderState) : odict * HeaderState :=
  fold_left (container_step row_parent) container_values st.

Definition add_row_values (row_elem : Element) (row_parent : option Element)
    (row_tag : string) (sel : Selection) (st : odict * HeaderState)
  : odict * HeaderState :=
  fold_left (leaf_step row_parent row_tag) (iter_scalar_leaves row_elem sel None) st.

(** The record built for one selection: [row_map] starts empty, takes the
    container values, then the values of the row element's subtree. *)
Definition build_row (row_elem : Element) (row_parent : option Element)
    (row_tag : string) (container_values : odict) (hs : HeaderState)
    (sel : Selection) : odict * HeaderState :=
  add_row_values row_elem row_parent row_tag sel
    (seed_container_values row_parent container_values ([], hs)).

(** The body of [for sel in finalized]. *)
Definition row_step (row_elem : Element) (row_parent : option Element)
    (row_tag : string) (container_values : odict)
    (st : list odict * HeaderState) (sel : Selection) : list odict * HeaderState :=
  let '(rows, hs) := st in
  let '(row_map, hs) :=
    build_row row_elem row_parent row_tag container_values hs sel in
  (rows ++ [row_map], hs).

(** The [while pending:] loop of [extract_rows_for_element]. *)
Fixpoint expand_loop (fuel : nat) (row_elem : Element)
    (pending finalized : list Selection) : option (list Selection) :=
  match list_pop pending with
  | None => Some finalized
  | Some (pending, sel) =>
      match fuel with
      | 0 => None
      | S fuel' =>
          match find_next_unselected_repeating_group row_elem sel None with
          | None => expand_loop fuel' row_elem pending (finalized ++ [sel])
          | Some (group_key, children) =>
              expand_loop fuel' row_elem
                (pending ++ map (fun idx => <[group_key := Z.of_nat idx]> sel)
                                (seq 0 (length children)))
                finalized
          end
      end
  end.

(** [fuel] bounds the iterations of the expansion loop. *)
Definition extract_rows_for_element (fuel : nat) (row_elem : Element)
    (row_parent : option Element) (row_tag : string) (hs : HeaderState)
  : option (list odict * HeaderState) :=
  let container_values := build_container_values row_parent row_tag in
  finalized ← expand_loop fuel row_elem [∅] [];
  Some (fold_left (row_step row_elem row_parent row_tag container_values)
                  finalized ([], hs)).

(** ** Whole documents *)

(** The [for row_elem in row_elements] loop shared by [convert_xml_to_csv]
    and [extract_table_from_file]. *)
Fixpoint extract_all (fuel : nat) (row_elements : list Element)
    (row_parent : option Element) (row_tag : string)
    (rows : list odict) (hs : HeaderState) : option (list odict * HeaderState) :=
  match row_elements with
  | [] => Some (rows, hs)
  | row_elem :: rest =>
      '(extracted, hs) ← extract_rows_for_element fuel row_elem row_parent row_tag hs;
      extract_all fuel rest row_parent row_tag (rows ++ extracted) hs
  end.

(** [extract_table_from_file], from the root that [ET.parse] returns on. *)
Definition extract_table_from_file (fuel : nat) (root : Element) (hs : HeaderState)
  : option (list odict * HeaderState) :=
  '(row_parent, row_tag, row_elements) ← find_row_parent_and_tag root;
  extract_all fuel row_elements row_parent row_tag [] hs.

(** The merge loop of [main] over the parsed inputs: one header state for
    all of them, every table appended to [merged_rows]. *)
Fixpoint merge_tables (fuel : nat) (inputs : list Element)
    (merged_rows : list odict) (hs : HeaderState)
  : option (list odict * HeaderState) :=
  match inputs with
  | [] => Some (merged_rows, hs)
  | root :: rest =>
      '(rows, hs) ← extract_table_from_file fuel root hs;
      merge_tables fuel rest (merged_rows ++ rows) hs
  end.

(** [[row.get(col, "") for col in header_order]] *)
Definition csv_record (header_order : list string) (row : odict) : list string :=
  map (fun col => default "" (od_get row col)) header_order.

(** [convert_xml_to_csv], from the parsed root to what is handed to the
    writer: the header line and one record per row. *)
Definition convert_xml_to_csv (fuel : nat) (root : Element)
  : option (list string * list (list string)) :=
  '(table_rows, hs) ← extract_table_from_file fuel root fresh_header;
  Some (header_order hs, map (csv_record (header_order hs)) table_rows).

(** ** Notions the specification speaks of *)

(** No node of the tree has two direct children with the same tag. *)
Fixpoint no_repeating_child_tag (n : Element) : bool :=
  match n with
  | Elem _ _ cs =>
      bool_decide (NoDup (map tag cs)) && forallb no_repeating_child_tag cs
  end.

(** A child is a singleton when no sibling shares its tag. *)
Definition singleton_child (parent child : Element) : Prop :=
  length (filter (fun c => tag c = tag child) (children parent)) = 1.

#[local] Instance singleton_child_dec parent child : Decision (singleton_child parent child).
Proof. unfold singleton_child. apply _. Defined.

(** The repeating groups reachable from [node] through singleton children
    only, each with its key and its members: those under [node] itself, in
    first-seen tag order, then those of its singleton children, in document
    order. *)
Fixpoint reachable_groups (node : Element) (path : PathKey)
  : list (PathKey * list Element) :=
  map (fun g => (g.1.1, g.2)) (compute_repeating_group_keys node path)
  ++ flat_map (fun child =>
                 if decide (singleton_child node child)
                 then reachable_groups child (path ++ [tag child]) else [])
              (children node).

(** The nested repeating groups of a row element. *)
Definition nested_groups (row_elem : Element) : list (PathKey * list Element) :=
  reachable_groups row_elem [tag row_elem].

Definition group_sizes (groups : list (PathKey * list Element)) : list nat :=
  map (fun g => length g.2) groups.

Definition product (sizes : list nat) : nat := foldr Nat.mul 1 sizes.

(** The groups a selection has not resolved yet. *)
Definition unresolved (row_elem : Element) (sel : Selection)
  : list (PathKey * list Element) :=
  filter (fun g => sel !! g.1 = None) (nested_groups row_elem).

(** Every way of extending [sel] by one index per group, in the order in
    which the last-in-first-out worklist finalizes them. *)
Fixpoint cartesian (groups : list (PathKey * list Element)) (sel : Selection)
  : list Selection :=
  match groups with
  | [] => [sel]
  | (group_key, members) :: rest =>
      flat_map (fun idx => cartesian rest (<[group_key := Z.of_nat idx]> sel))
               (reverse (seq 0 (length members)))
  end.

(** The number of iterations the expansion loop spends on a selection whose
    unresolved groups are [groups]. *)
Fixpoint expansion_steps (groups : list (PathKey * list Element)) : nat :=
  match groups with
  | [] => 1
  | (_, members) :: rest => S (length members * expansion_steps rest)
  end.

(** The iterations pending selections still need, all together. *)
Definition pending_steps (row_elem : Element) (pending : list Selection) : nat :=
  list_sum (map (fun sel => expansion_steps (unresolved row_elem sel)) pending).

(** A header in which every column is named by the last tag of its path:
    no dotted or suffixed name has been handed out. *)
Definition default_named (paths : gmap string (list string)) : Prop :=
  map_Forall (fun col path => path_last path = col) paths.

#[local] Instance default_named_dec paths : Decision (default_named paths).
Proof. unfold default_named. apply _. Defined.

(** Every column of a header state is listed once, and the listed columns
    are the bound ones. *)
Definition header_wf (hs : HeaderState) : Prop :=
  NoDup (header_order hs)
  ∧ ∀ col, col ∈ header_order hs ↔ header_paths hs !! col ≠ None.

(** The rows of a list of selections, the header state threaded through. *)
Definition rows_for_selections (row_elem : Element) (row_parent : option Element)
    (row_tag : string) (sels : list Selection) (hs : HeaderState)
  : list odict * HeaderState :=
  fold_left (row_step row_elem row_parent row_tag
               (build_container_values row_parent row_tag)) sels ([], hs).

(** The rows a document yields when it is converted on its own. *)
Definition rows_alone (fuel : nat) (root : Element) : list odict :=
  match extract_table_from_file fuel root fresh_header with
  | Some (rows, _) => rows
  | None => []
  end.

(** The path under which a leaf of the row element is named: the path the
    collector yields, less the row parent's tag when it starts with it. *)
Definition effective_path (row_parent : option Element) (row_tag : string)
    (path : PathKey) : PathKey :=
  match row_parent with
  | Some p =>
      if bool_decide (2 <= length path) && bool_decide (path !! 0 = Some (tag p))
         && bool_decide (path !! 1 = Some row_tag)
      then drop 1 path else path
  | None => path
  end.

(** The column a leaf with path [full_path] is given under [paths]. *)
Definition leaf_column (paths : gmap string (list string)) (full_path : PathKey)
  : string :=
  if bool_decide (paths !! path_last full_path ≠ None)
     && bool_decide (paths !! path_last full_path ≠ Some full_path)
  then disambiguate_column_name (path_last full_path) full_path paths
  else path_last full_path.

(** The path a container value is registered under. *)
Definition container_path (row_parent : option Element) (candidate_name : string)
  : PathKey :=
  match row_parent with
  | Some p => [tag p; candidate_name]
  | None => [candidate_name]
  end.

(** A property of header states that registering a column preserves. *)
Definition header_closed (P : HeaderState → Prop) : Prop :=
  ∀ col full_path hs, P hs → P (register_column col full_path hs).

(** The fuel that covers the expansion of every row element of a document. *)
Definition table_fuel (root : Element) : nat :=
  match find_row_parent_and_tag root with
  | Some (_, _, row_elements) =>
      foldr Nat.max 0
        (map (fun row_elem => expansion_steps (nested_groups row_elem)) row_elements)
  | None => 0
  end.

(** What one record and the header it leaves behind satisfy: no value is
    empty, and every column added to the header has a value in the record. *)
Definition row_invariant (hs0 : HeaderState) (st : odict * HeaderState) : Prop :=
  Forall (fun kv => kv.2 ≠ "") st.1
  ∧ ∃ new, header_order st.2 = header_order hs0 ++ new
           ∧ ∀ col, col ∈ new → od_get st.1 col ≠ None.

(** The same, for the rows of a row element. *)
Definition rows_invariant (hs0 : HeaderState) (st : list odict * HeaderState) : Prop :=
  Forall (Forall (fun kv : string * string => kv.2 ≠ "")) st.1
  ∧ ∀ col, col ∈ header_order st.2 →
           col ∈ header_order hs0 ∨ ∃ row, row ∈ st.1 ∧ od_get row col ≠ None.

(** ** Sample documents *)

(** [<t>v</t>] and [<t>...</t>] with element content only. *)
Definition leaf (t v : string) : Element := Elem t (Some v) [].
Definition node (t : string) (cs : list Element) : Element := Elem t None cs.

(** [<a><fa1>X</fa1><b><fb1>1</fb1></b><b><fb1>2</fb1></b></a>] *)
Definition doc_scenario : Element :=
  node "a" [leaf "fa1" "X"; node "b" [leaf "fb1" "1"]; node "b" [leaf "fb1" "2"]].

(** [<a><x>1</x><y><z>2</z></y></a>]: no tag repeats under any node. *)
Definition doc_flat : Element :=
  node "a" [leaf "x" "1"; node "y" [leaf "z" "2"]].

(** [<b><c>c0</c><c>c1</c><d>d0</d><d>d1</d><d>d2</d><e>E</e></b>]: two
    independent repeating groups, of sizes 2 and 3. *)
Definition row_two_groups : Element :=
  node "b" [leaf "c" "c0"; leaf "c" "c1";
            leaf "d" "d0"; leaf "d" "d1"; leaf "d" "d2"; leaf "e" "E"].

(** [<b><c>1</c><c>2</c><c>3</c></b>]: one repeating group. *)
Definition row_one_group : Element :=
  node "b" [leaf "c" "1"; leaf "c" "2"; leaf "c" "3"].

(** [<b><c><d>1</d><d>2</d></c><c><d>3</d><d>4</d></c></b>]: the groups [d]
    lie inside the members of the group [c]. *)
Definition row_group_in_group : Element :=
  node "b" [node "c" [leaf "d" "1"; leaf "d" "2"];
            node "c" [leaf "d" "3"; leaf "d" "4"]].

(** [<a><b><x/><y>1</y></b><b><x>v</x><y>2</y></b></a>]: the first leaf to
    name the column [x] is empty. *)
Definition row_empty_leaf : Element := node "b" [Elem "x" None []; leaf "y" "1"].
Definition doc_empty_leaf : Element :=
  node "a" [row_empty_leaf; node "b" [leaf "x" "v"; leaf "y" "2"]].

(** [<a><b><name>1</name><x><name>2</name></x></b>
        <b><name>3</name><x><name>4</name></x></b></a>]: in every row the
    leaf [b/x/name] meets the column [name] taken by [b/name]. *)
Definition doc_same_leaf_twice : Element :=
  node "a" [node "b" [leaf "name" "1"; node "x" [leaf "name" "2"]];
            node "b" [leaf "name" "3"; node "x" [leaf "name" "4"]]].

(** [<a><x><n>1</n></x><y><n>2</n></y><b><f>1</f></b><b><f>2</f></b></a>]:
    two container leaves named [n], at [a/x/n] and [a/y/n]. *)
Definition doc_container_clash : Element :=
  node "a" [node "x" [leaf "n" "1"]; node "y" [leaf "n" "2"];
            node "b" [leaf "f" "1"]; node "b" [leaf "f" "2"]].

(** [<a><n>1</n><a><n>2</n></a><a><n>3</n></a></a>]: the container value
    and the row value go by the same path [a/n]. *)
Definition doc_row_wins : Element :=
  node "a" [leaf "n" "1"; node "a" [leaf "n" "2"]; node "a" [leaf "n" "3"]].

(** [<b><name>1</name></b>] and [<c><name>3</name></c>]: two single-row
    documents with a leaf [name], at different paths. *)
Definition doc_b_name : Element := node "b" [leaf "name" "1"].
Definition doc_c_name : Element := node "c" [leaf "name" "3"].

(** Two documents with no leaf tag in common. *)
Definition doc_x : Element :=
  node "a" [node "b" [leaf "x" "1"]; node "b" [leaf "x" "2"]].
Definition doc_y : Element :=
  node "r" [node "s" [leaf "y" "3"]; node "s" [leaf "y" "4"]].

(** U+00A0 (no-break space), U+2003 (em space) and U+3000 (ideographic
    space) in UTF-8. *)
Definition nbsp : string := String "194" (String "160" "").
Definition emsp : string := String "226" (String "128" (String "131" "")).
Definition idsp : string := String "227" (String "128" (String "128" "")).

(** [<a><b><x>&#160;</x><y>1</y></b><b><x>v</x><y>2</y></b></a>]: the leaf
    [x] of the first row holds a no-break space and nothing else. *)
Definition doc_nbsp_leaf : Element :=
  node "a" [node "b" [leaf "x" nbsp; leaf "y" "1"];
            node "b" [leaf "x" "v"; leaf "y" "2"]].

(** [<r><h>H</h>
        <b><c>c0</c><c>c1</c><d>d0</d><d>d1</d><d>d2</d><e>E</e></b>
        <b><c>1</c><c>2</c><c>3</c></b>
        <b><e>F</e></b></r>]: three row elements, with two nested groups,
    one nested group and none. *)
Definition doc_three_rows : Element :=
  node "r" [leaf "h" "H"; row_two_groups; row_one_group; node "b" [leaf "e" "F"]].

(** [<a><x>&#160;v w&#160;</x><y><z> 2&#8195;</z></y><e>&#12288;</e></a>]:
    no tag repeats, and the leaves are padded with white space. *)
Definition doc_padded : Element :=
  node "a" [leaf "x" (nbsp +:+ "v w" +:+ nbsp);
            node "y" [leaf "z" (" 2" +:+ emsp)];
            leaf "e" idsp].

(** ** Further notions used to describe the program *)

(** The distinct tags of a list, in the order of their first occurrence. *)
Definition first_seen (tags : list string) : list string :=
  fold_left (fun seen t => if decide (t ∈ seen) then seen else seen ++ [t]) tags [].

(** The nodes [k] steps below the root, from left to right. *)
Fixpoint level (k : nat) (root : Element) : list Element :=
  match k with
  | 0 => [root]
  | S k' => flat_map children (level k' root)
  end.

(** Every leaf below [node], in document order, with its path and its
    trimmed text. *)
Fixpoint all_leaves (node : Element) (path : PathKey) : list (PathKey * string) :=
  match node with
  | Elem _ txt cs =>
      match cs with
      | [] => [(path, strip (default "" txt))]
      | _ => flat_map (fun c => all_leaves c (path ++ [tag c])) cs
      end
  end.

(** The leaves [build_container_values] keeps: those with text, outside the
    row tag directly under the row parent. *)
Definition container_leaf_kept (row_parent : Element) (row_tag : string)
    (leaf : PathKey * string) : Prop :=
  ¬ (2 ≤ length leaf.1 ∧ leaf.1 !! 0 = Some (tag row_parent)
     ∧ leaf.1 !! 1 = Some row_tag)
  ∧ leaf.2 ≠ "".

#[local] Instance container_leaf_kept_dec row_parent row_tag leaf :
  Decision (container_leaf_kept row_parent row_tag leaf).
Proof. unfold container_leaf_kept. apply _. Defined.

(** The repeating groups of a tree that the expansion resolves, read off
    the tree: for each tag that two or more children of [node] bear, in the
    order in which the tags are first seen, the key [path + (tag,)] with the
    children bearing the tag; then the groups below each child that shares
    its tag with no sibling, in document order.  Nothing below a member of
    a group is listed. *)
Fixpoint tree_groups (node : Element) (path : PathKey)
  : list (PathKey * list Element) :=
  flat_map (fun t =>
              let members := filter (fun c => tag c = t) (children node) in
              if decide (2 ≤ length members) then [(path ++ [t], members)] else [])
           (first_seen (map tag (children node)))
  ++ flat_map (fun child =>
                 if decide (singleton_child node child)
                 then tree_groups child (path ++ [tag child]) else [])
              (children node).

(** The nested repeating groups of a row element, read off the tree. *)
Definition row_groups (row_elem : Element) : list (PathKey * list Element) :=
  tree_groups row_elem [tag row_elem].

(** The leaves below [node] on which no choice bears: those reached through
    children that share their tag with no sibling, in document order, each
    with its path and its trimmed text. *)
Fixpoint singleton_leaves (node : Element) (path : PathKey)
  : list (PathKey * string) :=
  match children node with
  | [] => [(path, strip (default "" (text node)))]
  | _ =>
      flat_map (fun child =>
                  if decide (singleton_child node child)
                  then singleton_leaves child (path ++ [tag child]) else [])
               (children node)
  end.

(** A record shows the member [member] of the group [key]: every leaf of
    the member that has text has a column, bound to the leaf's path, in
    which the record holds that text. *)
Definition row_shows (hs : HeaderState) (row : odict) (member : Element)
    (key : PathKey) : Prop :=
  ∀ path text, (path, text) ∈ singleton_leaves member key → text ≠ "" →
    ∃ col, header_paths hs !! col = Some path ∧ od_get row col = Some text.

(** The [--merge-into] branch of [main], from the parsed inputs to what is
    handed to the writer: the merged header line and one record per row. *)
Definition merge_csv (fuel : nat) (inputs : list Element)
  : option (list string * list (list string)) :=
  '(merged_rows, hs) ← merge_tables fuel inputs [] fresh_header;
  Some (header_order hs, map (csv_record (header_order hs)) merged_rows).

(** * Properties *)

(** ** Induction on trees *)

Lemma Element_ind (P : Element → Prop) :
  (∀ t x cs, Forall P cs → P (Elem t x cs)) → ∀ n, P n.
Proof.
  intros step. fix IH 1. intros [t x cs]. apply step.
  induction cs as [|c cs IHcs]; constructor; [apply IH | exact IHcs].
Qed.

Lemma height_child (n c : Element) : c ∈ children n → height c < height n.
Proof.
  destruct n as [t x cs]. simpl. intros Hin.
  induction Hin as [c cs|c c' cs _ IH]; simpl; lia.
Qed.

Lemma node_count_pos (n : Element) : 0 < node_count n.
Proof. destruct n; simpl; lia. Qed.

Lemma filter_ext_elem {A} (P1 P2 : A → Prop)
    `{!∀ x, Decision (P1 x), !∀ x, Decision (P2 x)} (l : list A) :
  (∀ x, x ∈ l → P1 x ↔ P2 x) → filter P1 l = filter P2 l.
Proof.
  induction l as [|a l IH]; intros Hiff; [done |].
  rewrite !filter_cons, IH by (intros; apply Hiff; by right).
  apply decide_ext, Hiff. left.
Qed.

Lemma reverse_map {A B} (g : A → B) (l : list A) :
  reverse (map g l) = map g (reverse l).
Proof. symmetry. apply (fmap_reverse g l). Qed.

(** ** Dictionaries in insertion order *)

Section dict_of_lists.
Context {A : Type}.
Implicit Types (d : list (string * list A)) (k : string) (v : A).

Lemma dict_get_list_setdefault d k v k' :
  dict_get_list (setdefault_append d k v) k'
  = if decide (k = k') then dict_get_list d k ++ [v] else dict_get_list d k'.
Proof.
  induction d as [|[k0 vs] d IH]; simpl.
  - repeat case_decide; simplify_eq; done.
  - repeat (case_decide; simpl; simplify_eq); try done.
    all: rewrite IH; repeat case_decide; simplify_eq; done.
Qed.

Lemma keys_setdefault d k v :
  map fst (setdefault_append d k v)
  = if decide (k ∈ map fst d) then map fst d else map fst d ++ [k].
Proof.
  induction d as [|[k0 vs] d IH]; simpl.
  - done.
  - destruct (decide (k0 = k)) as [->|Hne]; simpl.
    + rewrite decide_True; [done | left].
    + rewrite IH. destruct (decide (k ∈ map fst d)) as [Hin|Hnin].
      * rewrite decide_True; [done | by right].
      * rewrite decide_False; [done |].
        intros [?|?]%elem_of_cons; simplify_eq; done.
Qed.

Lemma keys_setdefault_NoDup d k v :
  NoDup (map fst d) → NoDup (map fst (setdefault_append d k v)).
Proof.
  intros Hd. rewrite keys_setdefault. case_decide as Hk; [done |].
  apply NoDup_app. split_and!; [done | | apply NoDup_singleton].
  intros x Hx ->%list_elem_of_singleton. done.
Qed.

Lemma dict_get_list_elem d k vs :
  NoDup (map fst d) → (k, vs) ∈ d → dict_get_list d k = vs.
Proof.
  induction d as [|[k0 vs0] d IH]; simpl; intros Hnd Hin.
  - by apply elem_of_nil in Hin.
  - apply NoDup_cons in Hnd as [Hk0 Hnd].
    apply elem_of_cons in Hin as [Heq|Hin].
    + simplify_eq. by rewrite decide_True.
    + case_decide as Hk; [| by apply IH].
      subst. exfalso. apply Hk0. apply list_elem_of_fmap. by exists (k, vs).
Qed.
End dict_of_lists.

(** *** The tag grouping of a node's children *)

Lemma group_fold_get (cs : list Element) d t :
  dict_get_list
    (fold_left (fun by_tag c => setdefault_append by_tag (tag c) c) cs d) t
  = dict_get_list d t ++ filter (fun c => tag c = t) cs.
Proof.
  revert d. induction cs as [|c cs IH]; intros d; simpl.
  - by rewrite app_nil_r.
  - rewrite IH, dict_get_list_setdefault, filter_cons.
    repeat case_decide; simplify_eq; [by rewrite <- app_assoc | done].
Qed.

Lemma group_fold_keys (cs : list Element) d t :
  t ∈ map fst (fold_left (fun by_tag c => setdefault_append by_tag (tag c) c) cs d)
  ↔ t ∈ map fst d ∨ t ∈ map tag cs.
Proof.
  revert d. induction cs as [|c cs IH]; intros d; simpl.
  - rewrite elem_of_nil. tauto.
  - rewrite IH, keys_setdefault, elem_of_cons.
    case_decide as Hk; [| rewrite elem_of_app, list_elem_of_singleton ].
    + split; [tauto |]. intros [?|[-> |?]]; tauto.
    + split; [intros [[?| ->]|?] | intros [?|[-> |?]]]; tauto.
Qed.

Lemma group_fold_NoDup (cs : list Element) d :
  NoDup (map fst d) →
  NoDup (map fst (fold_left (fun by_tag c => setdefault_append by_tag (tag c) c) cs d)).
Proof.
  revert d. induction cs as [|c cs IH]; intros d Hd; simpl; [done |].
  by apply IH, keys_setdefault_NoDup.
Qed.

Lemma get_children_by_tag_NoDup parent :
  NoDup (map fst (get_children_by_tag parent)).
Proof. apply group_fold_NoDup. constructor. Qed.

(** [get_children_by_tag(parent).get(t, [])] is the list of the children
    tagged [t], in document order. *)
Lemma get_children_by_tag_get parent t :
  dict_get_list (get_children_by_tag parent) t
  = filter (fun c => tag c = t) (children parent).
Proof. unfold get_children_by_tag. by rewrite group_fold_get. Qed.

Lemma get_children_by_tag_keys parent t :
  t ∈ map fst (get_children_by_tag parent) ↔ t ∈ map tag (children parent).
Proof.
  unfold get_children_by_tag. rewrite group_fold_keys. simpl.
  rewrite elem_of_nil. tauto.
Qed.

(** An entry of the grouping is a tag some child has, with all the children
    that have it: never an empty list. *)
Lemma get_children_by_tag_elem parent t siblings :
  (t, siblings) ∈ get_children_by_tag parent →
  siblings = filter (fun c => tag c = t) (children parent) ∧ siblings ≠ [].
Proof.
  intros Hin.
  assert (siblings = filter (fun c => tag c = t) (children parent)) as ->.
  { rewrite <- get_children_by_tag_get. symmetry.
    by apply dict_get_list_elem; [apply get_children_by_tag_NoDup |]. }
  split; [done |].
  assert (t ∈ map tag (children parent)) as Ht.
  { apply get_children_by_tag_keys, list_elem_of_fmap. by exists (t, filter (fun c => tag c = t) (children parent)). }
  apply list_elem_of_fmap in Ht as (c & -> & Hc).
  intros Hnil. assert (c ∈ filter (fun c' => tag c' = tag c) (children parent)) as Hc'.
  { by apply list_elem_of_filter. }
  rewrite Hnil in Hc'. by apply elem_of_nil in Hc'.
Qed.

Lemma get_children_by_tag_member parent t siblings s :
  (t, siblings) ∈ get_children_by_tag parent → s ∈ siblings →
  s ∈ children parent ∧ tag s = t.
Proof.
  intros [-> _]%get_children_by_tag_elem Hs.
  apply list_elem_of_filter in Hs. tauto.
Qed.

(** ** Row locator *)

Lemma find_None_all {A} (f : A → bool) (l : list A) :
  (∀ x, x ∈ l → f x = false) → List.find f l = None.
Proof.
  induction l as [|x l IH]; simpl; intros Hall; [done |].
  rewrite (Hall x) by left. apply IH. intros y Hy. apply Hall. by right.
Qed.

Lemma filter_tag_absent (cs : list Element) t :
  t ∉ map tag cs → filter (fun c => tag c = t) cs = [].
Proof.
  induction cs as [|c cs IH]; simpl; intros Ht; [done |].
  rewrite filter_cons. case_decide as Heq.
  - exfalso. apply Ht. rewrite Heq. left.
  - apply IH. intros ?. apply Ht. by right.
Qed.

Lemma filter_tag_NoDup_length (cs : list Element) t :
  NoDup (map tag cs) → length (filter (fun c => tag c = t) cs) ≤ 1.
Proof.
  induction cs as [|c cs IH]; simpl; intros Hnd; [lia |].
  apply NoDup_cons in Hnd as [Hc Hnd]. rewrite filter_cons.
  case_decide as Ht; [| by apply IH]. subst t.
  rewrite filter_tag_absent by done. simpl. lia.
Qed.

Lemma first_repeating_child_tag_None parent :
  NoDup (map tag (children parent)) → first_repeating_child_tag parent = None.
Proof.
  intros Hnd. unfold first_repeating_child_tag.
  rewrite find_None_all; [done |]. intros [t siblings] Hin.
  apply get_children_by_tag_elem in Hin as [-> _].
  apply Nat.ltb_ge. by apply filter_tag_NoDup_length.
Qed.

(** The tag found is borne by at least two children: it is a key of the
    grouping, and the row elements are those children. *)
Lemma first_repeating_child_tag_Some parent t :
  first_repeating_child_tag parent = Some t →
  t ∈ map fst (get_children_by_tag parent)
  ∧ dict_get_list (get_children_by_tag parent) t
    = filter (fun c => tag c = t) (children parent)
  ∧ 2 ≤ length (filter (fun c => tag c = t) (children parent)).
Proof.
  unfold first_repeating_child_tag. intros Hfirst.
  destruct (List.find _ _) as [[t' siblings]|] eqn:Hfind; [| done].
  simpl in Hfirst. simplify_eq.
  apply find_some in Hfind as [Hin%list_elem_of_In Hlen%Nat.ltb_lt].
  pose proof (get_children_by_tag_elem _ _ _ Hin) as [-> _].
  split_and!; [| apply get_children_by_tag_get | done].
  apply list_elem_of_fmap. by eexists (_, _).
Qed.

Lemma no_repeating_child_tag_unfold n :
  no_repeating_child_tag n = true →
  NoDup (map tag (children n))
  ∧ Forall (fun c => no_repeating_child_tag c = true) (children n).
Proof.
  destruct n as [t x cs]. simpl. intros [Hnd Hall]%andb_prop. split.
  - by apply bool_decide_eq_true in Hnd.
  - apply Forall_forall. intros c Hc.
    rewrite forallb_forall in Hall. apply Hall. by apply list_elem_of_In.
Qed.

Lemma node_count_unfold n :
  node_count n = S (list_sum (map node_count (children n))).
Proof. by destruct n. Qed.

Lemma list_sum_app (l1 l2 : list nat) :
  list_sum (l1 ++ l2) = list_sum l1 + list_sum l2.
Proof. induction l1; simpl; lia. Qed.

(** On a queue of nodes without repeating child tag the search visits every
    node and falls through. *)
Lemma bfs_loop_no_repeat fuel queue :
  Forall (fun n => no_repeating_child_tag n = true) queue →
  list_sum (map node_count queue) ≤ fuel →
  bfs_loop fuel queue = Some None.
Proof.
  revert queue. induction fuel as [|fuel IH]; intros [|parent queue] Hq Hfuel;
    simpl in *; try done.
  - pose proof (node_count_pos parent). lia.
  - apply Forall_cons in Hq as [Hp Hq].
    apply no_repeating_child_tag_unfold in Hp as [Hnd Hcs].
    rewrite first_repeating_child_tag_None by done.
    apply IH; [by apply Forall_app |].
    rewrite map_app, list_sum_app. rewrite node_count_unfold in Hfuel. lia.
Qed.

(** The search never exhausts a bound that covers the nodes in its queue. *)
Lemma bfs_loop_total fuel queue :
  list_sum (map node_count queue) ≤ fuel → is_Some (bfs_loop fuel queue).
Proof.
  revert queue. induction fuel as [|fuel IH]; intros [|parent queue] Hfuel;
    simpl in *; try done.
  - pose proof (node_count_pos parent). lia.
  - destruct (first_repeating_child_tag parent); [done |].
    apply IH. rewrite map_app, list_sum_app.
    rewrite node_count_unfold in Hfuel. lia.
Qed.

Lemma find_row_parent_and_tag_total root : is_Some (find_row_parent_and_tag root).
Proof.
  unfold find_row_parent_and_tag.
  destruct (bfs_loop_total (node_count root) [root]) as [r ->]; [simpl; lia |].
  destruct r as [[[? ?] ?]|]; done.
Qed.

(** C4. In a document where no node has two direct children with the same
    tag, [find_row_parent_and_tag] returns no row parent, the root's tag as
    the row tag, and the root as the one row element. *)
Theorem find_row_parent_and_tag_no_repeat (root : Element) :
  no_repeating_child_tag root = true →
  find_row_parent_and_tag root = Some (None, tag root, [root]).
Proof.
  intros Hroot. unfold find_row_parent_and_tag.
  rewrite bfs_loop_no_repeat; [done | by constructor | simpl; lia].
Qed.

(** ** Group indexer *)

(** A group is recognised as repeating exactly when at least two direct
    children share its tag; its members are those children. *)
Lemma compute_repeating_group_keys_elem parent path key t members :
  (key, t, members) ∈ compute_repeating_group_keys parent path ↔
  key = path ++ [t]
  ∧ members = filter (fun c => tag c = t) (children parent)
  ∧ 2 ≤ length members.
Proof.
  unfold compute_repeating_group_keys. rewrite list_elem_of_In, in_flat_map. split.
  - intros ([t' sibs] & Hin%list_elem_of_In & Hg).
    destruct (1 <? length sibs) eqn:Hlen; [| by destruct Hg].
    destruct Hg as [Hg|[]]. simplify_eq.
    apply get_children_by_tag_elem in Hin as [-> _].
    apply Nat.ltb_lt in Hlen. done.
  - intros (-> & -> & Hlen).
    exists (t, filter (fun c => tag c = t) (children parent)). split.
    + apply list_elem_of_In.
      assert (t ∈ map fst (get_children_by_tag parent)) as Ht.
      { apply get_children_by_tag_keys.
        destruct (filter (fun c => tag c = t) (children parent)) as [|c l] eqn:Hf;
          [simpl in Hlen; lia |].
        assert (c ∈ filter (fun c => tag c = t) (children parent)) as Hc
          by (rewrite Hf; left).
        apply list_elem_of_filter in Hc as [<- Hc].
        apply list_elem_of_fmap. by exists c. }
      apply list_elem_of_fmap in Ht as ([t' sibs] & Heq & Hin).
      simpl in Heq. subst t'.
      by pose proof (get_children_by_tag_elem _ _ _ Hin) as [<- _].
    + apply Nat.ltb_lt in Hlen. rewrite Hlen. by left.
Qed.

Lemma find_next_default root sel :
  find_next_unselected_repeating_group root sel None
  = find_next_unselected_repeating_group root sel (Some [tag root]).
Proof. by destruct root. Qed.

Lemma find_as_head {A B} (f : A → bool) (P : B → Prop) `{!∀ x, Decision (P x)}
    (g : A → B) (l : list A) :
  (∀ x, f x = bool_decide (P (g x))) →
  g <$> List.find f l = head (filter P (map g l)).
Proof.
  intros Hf. induction l as [|a l IH]; simpl; [done |].
  rewrite Hf, filter_cons. destruct (decide (P (g a))) as [Ha|Ha].
  - by rewrite bool_decide_eq_true_2.
  - by rewrite bool_decide_eq_false_2.
Qed.

Lemma flat_map_cons {A B} (f : A → list B) a l :
  flat_map f (a :: l) = f a ++ flat_map f l.
Proof. done. Qed.

(** The search returns the first group, in the order of [reachable_groups],
    that the selection has not resolved. *)
Lemma find_next_unselected_repeating_group_head (root : Element) (sel : Selection)
    (path : PathKey) :
  find_next_unselected_repeating_group root sel (Some path)
  = head (filter (fun g => sel !! g.1 = None) (reachable_groups root path)).
Proof.
  revert path. induction root as [t x cs IH] using Element_ind. intros path.
  cbn [find_next_unselected_repeating_group reachable_groups default
       from_option id children].
  rewrite filter_app.
  pose proof (find_as_head
    (fun '(group_key, _, _) => bool_decide (sel !! group_key = None))
    (fun g : PathKey * list Element => sel !! g.1 = None)
    (fun g : PathKey * string * list Element => (g.1.1, g.2))
    (compute_repeating_group_keys (Elem t x cs) path)) as Hhead.
  specialize (Hhead ltac:(by intros [[? ?] ?])). symmetry in Hhead.
  destruct (List.find _ (compute_repeating_group_keys _ path))
    as [[[group_key tg] members]|]; simpl in Hhead.
  - apply head_Some in Hhead as [l' ->]. done.
  - apply head_None in Hhead. rewrite Hhead, app_nil_l. clear Hhead.
    set (root := Elem t x cs). clearbody root.
    induction IH as [|child cs' Hchild _ IHcs]; [done |].
    rewrite flat_map_cons, filter_app, get_children_by_tag_get.
    destruct (decide (singleton_child root child)) as [Hs|Hs].
    + unfold singleton_child in Hs. rewrite Hs. simpl. rewrite Hchild.
      destruct (head (filter _ (reachable_groups child _))) as [g|] eqn:Hg.
      * apply head_Some in Hg as [l' ->]. done.
      * apply head_None in Hg. rewrite Hg. exact IHcs.
    + unfold singleton_child in Hs. apply Nat.eqb_neq in Hs. rewrite Hs.
      rewrite filter_nil. exact IHcs.
Qed.

Lemma reachable_groups_unfold node path :
  reachable_groups node path
  = map (fun g => (g.1.1, g.2)) (compute_repeating_group_keys node path)
    ++ flat_map (fun child =>
                   if decide (singleton_child node child)
                   then reachable_groups child (path ++ [tag child]) else [])
                (children node).
Proof. by destruct node. Qed.

Lemma reachable_groups_here node path key members :
  (key, members) ∈ map (fun g : PathKey * string * list Element => (g.1.1, g.2))
                       (compute_repeating_group_keys node path) →
  ∃ t, key = path ++ [t]
       ∧ members = filter (fun c => tag c = t) (children node)
       ∧ 2 ≤ length members.
Proof.
  intros ([[k t] m] & Heq & Hin)%list_elem_of_fmap. simpl in Heq. simplify_eq.
  exists t. by apply compute_repeating_group_keys_elem.
Qed.

Lemma reachable_groups_below node path key members :
  (key, members) ∈ flat_map (fun child =>
                     if decide (singleton_child node child)
                     then reachable_groups child (path ++ [tag child]) else [])
                   (children node) →
  ∃ child, child ∈ children node ∧ singleton_child node child
           ∧ (key, members) ∈ reachable_groups child (path ++ [tag child]).
Proof.
  intros (child & Hc & Hin)%list_elem_of_In%in_flat_map.
  exists child. apply list_elem_of_In in Hc, Hin.
  case_decide; [done | by apply elem_of_nil in Hin].
Qed.

(** The key of a reachable group extends the path of the node the search
    started from, and the group has at least two members. *)
Lemma reachable_groups_elem node path key members :
  (key, members) ∈ reachable_groups node path →
  (∃ rest, rest ≠ [] ∧ key = path ++ rest) ∧ 2 ≤ length members.
Proof.
  revert path. induction node as [t x cs IH] using Element_ind. intros path.
  rewrite reachable_groups_unfold, elem_of_app. intros [Hhere|Hbelow].
  - apply reachable_groups_here in Hhere as (t' & -> & _ & Hlen).
    split; [by exists [t'] | done].
  - apply reachable_groups_below in Hbelow as (child & Hc & _ & Hin).
    rewrite Forall_forall in IH.
    apply (IH child Hc) in Hin as [(rest & Hrest & ->) Hlen].
    split; [| done]. exists (tag child :: rest).
    split; [done | by rewrite <- app_assoc].
Qed.

Lemma compute_repeating_group_keys_NoDup parent path :
  NoDup (map (fun g : PathKey * string * list Element => g.1.1)
             (compute_repeating_group_keys parent path)).
Proof.
  unfold compute_repeating_group_keys.
  pose proof (get_children_by_tag_NoDup parent) as Hnd.
  induction (get_children_by_tag parent) as [|[t sibs] d IH]; simpl; [constructor |].
  apply NoDup_cons in Hnd as [Ht Hnd]. rewrite map_app. apply NoDup_app.
  split_and!; [| | by apply IH].
  - destruct (1 <? length sibs); simpl; [apply NoDup_singleton | constructor].
  - intros key Hkey Hrest. destruct (1 <? length sibs); simpl in Hkey;
      [| by apply elem_of_nil in Hkey].
    apply list_elem_of_singleton in Hkey as ->.
    apply list_elem_of_fmap in Hrest as ([[k t'] m] & Hk & Hin). simpl in Hk.
    apply list_elem_of_In, in_flat_map in Hin as ([t'' sibs'] & Hd & Hin).
    destruct (1 <? length sibs'); [| by destruct Hin].
    destruct Hin as [Hin|[]]. simplify_eq.
    apply Ht, list_elem_of_fmap. eexists (_, _).
    split; [| by apply list_elem_of_In]. done.
Qed.

Lemma filter_tag_two (l0 l : list Element) c c' :
  c' ∈ l → tag c' = tag c →
  2 ≤ length (filter (fun e => tag e = tag c) (l0 ++ c :: l)).
Proof.
  intros Hc' Htag. rewrite filter_app, filter_cons_True, length_app by done.
  assert (c' ∈ filter (fun e => tag e = tag c) l) as Hin
    by by apply list_elem_of_filter.
  destruct (filter (fun e => tag e = tag c) l); [by apply elem_of_nil in Hin |].
  simpl. lia.
Qed.

(** Distinct reachable groups have distinct keys. *)
Lemma reachable_groups_NoDup node path :
  NoDup (map fst (reachable_groups node path)).
Proof.
  revert path. induction node as [t x cs IH] using Element_ind. intros path.
  rewrite reachable_groups_unfold, map_app. apply NoDup_app. split_and!.
  - rewrite map_map. apply compute_repeating_group_keys_NoDup.
  - intros key ([k m] & -> & Hhere)%list_elem_of_fmap
               ([k' m'] & Hk & Hbelow)%list_elem_of_fmap.
    simpl in Hk. subst k'.
    apply reachable_groups_here in Hhere as (t' & -> & _).
    apply reachable_groups_below in Hbelow as (child & _ & _ & Hin).
    apply reachable_groups_elem in Hin as [(rest & Hrest & Hk) _].
    rewrite <- app_assoc in Hk. apply app_inv_head in Hk.
    destruct rest; simplify_eq.
  - cbn [children]. set (root := Elem t x cs).
    assert (∃ l0, children root = l0 ++ cs) as Hsplit by by exists [].
    clearbody root. revert Hsplit.
    induction IH as [|child l Hchild _ IHl]; intros [l0 Hsplit]; [constructor |].
    rewrite flat_map_cons, map_app. apply NoDup_app. split_and!.
    + case_decide; [apply Hchild | constructor].
    + intros key ([k m] & -> & Hin)%list_elem_of_fmap
                 ([k' m'] & Hk & Hrest)%list_elem_of_fmap.
      simpl in Hk. subst k'.
      case_decide as Hs; [| by apply elem_of_nil in Hin].
      apply reachable_groups_elem in Hin as [(rest & _ & ->) _].
      apply list_elem_of_In, in_flat_map in Hrest as (c' & Hc' & Hin').
      apply list_elem_of_In in Hc', Hin'.
      case_decide as Hs'; [| by apply elem_of_nil in Hin'].
      apply reachable_groups_elem in Hin' as [(rest' & _ & Hk) _].
      rewrite <- !app_assoc in Hk. apply app_inv_head in Hk. simplify_eq.
      pose proof (filter_tag_two l0 l child c' Hc' ltac:(done)) as Htwo.
      unfold singleton_child in Hs. rewrite Hsplit in Hs. lia.
    + apply IHl. exists (l0 ++ [child]). by rewrite <- app_assoc.
Qed.

(** ** Selection expander *)

Lemma list_pop_snoc {A} (l : list A) x : list_pop (l ++ [x]) = Some (l, x).
Proof. unfold list_pop. by rewrite reverse_snoc, reverse_involutive. Qed.

Lemma list_pop_cases {A} (l : list A) :
  (l = [] ∧ list_pop l = None) ∨ (∃ l' x, l = l' ++ [x] ∧ list_pop l = Some (l', x)).
Proof.
  destruct l as [|y l] using rev_ind; [by left | right].
  exists l, y. by rewrite list_pop_snoc.
Qed.

Lemma expand_loop_unfold fuel row_elem pending finalized :
  expand_loop fuel row_elem pending finalized
  = match list_pop pending with
    | None => Some finalized
    | Some (pending, sel) =>
        match fuel with
        | 0 => None
        | S fuel' =>
            match find_next_unselected_repeating_group row_elem sel None with
            | None => expand_loop fuel' row_elem pending (finalized ++ [sel])
            | Some (group_key, children) =>
                expand_loop fuel' row_elem
                  (pending ++ map (fun idx => <[group_key := Z.of_nat idx]> sel)
                                  (seq 0 (length children)))
                  finalized
            end
        end
    end.
Proof. by destruct fuel. Qed.

Lemma find_next_unresolved (row_elem : Element) (sel : Selection) :
  find_next_unselected_repeating_group row_elem sel None
  = head (unresolved row_elem sel).
Proof.
  rewrite find_next_default. apply find_next_unselected_repeating_group_head.
Qed.

(** Once the first unresolved group is given an index, the unresolved groups
    are the remaining ones: each expansion resolves exactly one group. *)
Lemma filter_unresolved_insert (groups : list (PathKey * list Element))
    (sel : Selection) key members idx :
  NoDup (map fst groups) →
  head (filter (fun g => sel !! g.1 = None) groups) = Some (key, members) →
  filter (fun g => <[key := idx]> sel !! g.1 = None) groups
  = tail (filter (fun g => sel !! g.1 = None) groups).
Proof.
  induction groups as [|[k m] groups IH]; simpl; intros Hnd Hhead; [done |].
  apply NoDup_cons in Hnd as [Hk Hnd]. rewrite !filter_cons in *. simpl in *.
  destruct (decide (sel !! k = None)) as [Hsel|Hsel]; simpl in *.
  - simplify_eq. rewrite lookup_insert_eq. rewrite decide_False by done.
    apply filter_ext_elem. intros [k' m'] Hin. simpl.
    rewrite lookup_insert_ne; [done |]. intros ->.
    apply Hk, list_elem_of_fmap. by exists (k', m').
  - rewrite decide_False; [by apply IH |].
    destruct (decide (key = k)) as [->|Hne].
    + by rewrite lookup_insert_eq.
    + by rewrite lookup_insert_ne.
Qed.

Lemma unresolved_insert (row_elem : Element) (sel : Selection) key members idx :
  head (unresolved row_elem sel) = Some (key, members) →
  unresolved row_elem (<[key := idx]> sel) = tail (unresolved row_elem sel).
Proof. apply filter_unresolved_insert, reachable_groups_NoDup. Qed.

Lemma expansion_steps_pos groups : 0 < expansion_steps groups.
Proof. destruct groups as [|[? ?] ?]; simpl; lia. Qed.

Lemma pending_steps_app row_elem p1 p2 :
  pending_steps row_elem (p1 ++ p2)
  = pending_steps row_elem p1 + pending_steps row_elem p2.
Proof. unfold pending_steps. by rewrite map_app, list_sum_app. Qed.

Lemma pending_steps_children (row_elem : Element) (sel : Selection) key members rest n :
  unresolved row_elem sel = (key, members) :: rest →
  pending_steps row_elem
    (map (fun idx => <[key := Z.of_nat idx]> sel) (seq 0 n))
  = n * expansion_steps rest.
Proof.
  intros Hun. unfold pending_steps. rewrite map_map.
  generalize 0 as start. induction n as [|n IH]; intros start; simpl; [done |].
  rewrite IH. erewrite unresolved_insert by (by rewrite Hun). by rewrite Hun.
Qed.

(** The loop finalizes, for each pending selection from the last to the
    first, every combination of indices for its unresolved groups; a bound
    of [pending_steps] iterations is never exhausted. *)
Lemma expand_loop_spec row_elem fuel pending finalized :
  pending_steps row_elem pending ≤ fuel →
  expand_loop fuel row_elem pending finalized
  = Some (finalized
          ++ flat_map (fun sel => cartesian (unresolved row_elem sel) sel)
                      (reverse pending)).
Proof.
  revert pending finalized.
  induction fuel as [|fuel IH]; intros pending finalized Hfuel;
    rewrite expand_loop_unfold;
    destruct (list_pop_cases pending) as [[-> ->]|(p & sel & -> & ->)].
  - by rewrite app_nil_r.
  - rewrite pending_steps_app in Hfuel. unfold pending_steps at 2 in Hfuel.
    simpl in Hfuel. pose proof (expansion_steps_pos (unresolved row_elem sel)). lia.
  - by rewrite app_nil_r.
  - rewrite pending_steps_app in Hfuel. unfold pending_steps at 2 in Hfuel.
    simpl in Hfuel. rewrite find_next_unresolved, reverse_snoc, flat_map_cons.
    destruct (unresolved row_elem sel) as [|[key members] rest] eqn:Hun; simpl.
    + simpl in Hfuel. rewrite IH by lia. by rewrite <- app_assoc.
    + simpl in Hfuel. rewrite IH.
      * rewrite reverse_app, flat_map_app. do 2 f_equal.
        rewrite reverse_map, flat_map_concat_map, map_map, <- flat_map_concat_map.
        f_equal. apply flat_map_ext. intros idx.
        erewrite unresolved_insert by (by rewrite Hun). by rewrite Hun.
      * rewrite pending_steps_app.
        erewrite pending_steps_children by done. lia.
Qed.

Lemma unresolved_empty row_elem : unresolved row_elem ∅ = nested_groups row_elem.
Proof.
  unfold unresolved. induction (nested_groups row_elem) as [|g l IH]; [done |].
  rewrite filter_cons_True by done. by rewrite IH.
Qed.

(** Started on the empty selection, the loop returns the combinations of
    indices for the nested groups of the row element. *)
Lemma expand_loop_start row_elem fuel :
  expansion_steps (nested_groups row_elem) ≤ fuel →
  expand_loop fuel row_elem [∅] [] = Some (cartesian (nested_groups row_elem) ∅).
Proof.
  intros Hfuel. rewrite expand_loop_spec.
  - simpl. by rewrite unresolved_empty, app_nil_r.
  - unfold pending_steps. simpl. rewrite unresolved_empty. lia.
Qed.

Lemma length_flat_map_const {A B} (f : A → list B) (l : list A) n :
  (∀ x, length (f x) = n) → length (flat_map f l) = length l * n.
Proof.
  intros Hf. induction l as [|a l IH]; simpl; [done |].
  by rewrite length_app, Hf, IH.
Qed.

Lemma length_cartesian (groups : list (PathKey * list Element)) (sel : Selection) :
  length (cartesian groups sel) = product (group_sizes groups).
Proof.
  revert sel. induction groups as [|[key members] groups IH]; intros sel; simpl;
    [done |].
  erewrite length_flat_map_const by (intros; apply IH).
  by rewrite length_reverse, length_seq.
Qed.

Lemma cartesian_single key members :
  cartesian [(key, members)] ∅
  = map (fun idx => {[key := Z.of_nat idx]}) (reverse (seq 0 (length members))).
Proof.
  simpl. induction (reverse (seq 0 (length members))) as [|i l IH]; simpl; [done |].
  by rewrite IH, insert_empty.
Qed.

Lemma rows_fold_length row_elem row_parent row_tag container_values sels rows hs :
  length (fold_left (row_step row_elem row_parent row_tag container_values)
                    sels (rows, hs)).1
  = length rows + length sels.
Proof.
  revert rows hs. induction sels as [|sel sels IH]; intros rows hs; simpl; [lia |].
  destruct (build_row row_elem row_parent row_tag container_values hs sel)
    as [row_map hs'].
  rewrite IH, length_app. simpl. lia.
Qed.

Lemma rows_for_selections_length row_elem row_parent row_tag sels hs :
  length (rows_for_selections row_elem row_parent row_tag sels hs).1 = length sels.
Proof. unfold rows_for_selections. by rewrite rows_fold_length. Qed.

(** With the bound covering the expansion, the rows of a row element are
    those of the combinations of indices for its nested groups. *)
Lemma extract_rows_for_element_cartesian fuel row_elem row_parent row_tag hs :
  expansion_steps (nested_groups row_elem) ≤ fuel →
  extract_rows_for_element fuel row_elem row_parent row_tag hs
  = Some (rows_for_selections row_elem row_parent row_tag
            (cartesian (nested_groups row_elem) ∅) hs).
Proof.
  intros Hfuel. unfold extract_rows_for_element.
  by rewrite expand_loop_start.
Qed.

(** C7. The worklist loop of the selection expander terminates: after at
    most [expansion_steps] iterations it has finalized its selections, and
    a larger bound changes nothing.  Each expansion adds to the selection a
    key it did not have, so the selection grows by one entry.  A row element
    without nested repeating group finalizes the empty selection and no
    other. *)
Theorem expand_loop_terminates (row_elem : Element) :
  (∃ finalized, ∀ fuel,
      expansion_steps (nested_groups row_elem) ≤ fuel →
      expand_loop fuel row_elem [∅] [] = Some finalized)
  ∧ (∀ (sel : Selection) group_key members idx,
        find_next_unselected_repeating_group row_elem sel None
          = Some (group_key, members) →
        sel !! group_key = None
        ∧ size (<[group_key := idx]> sel) = S (size sel))
  ∧ (nested_groups row_elem = [] →
     ∀ fuel, 1 ≤ fuel → expand_loop fuel row_elem [∅] [] = Some [∅]).
Proof.
  split_and!.
  - exists (cartesian (nested_groups row_elem) ∅). apply expand_loop_start.
  - intros sel group_key members idx Hfound.
    rewrite find_next_unresolved in Hfound.
    apply head_Some_elem_of, list_elem_of_filter in Hfound as [Hsel _].
    split; [done | by apply map_size_insert_None].
  - intros Hnone fuel Hfuel. rewrite expand_loop_start; rewrite Hnone; done.
Qed.

(** ** Leaf collector *)

Lemma flat_map_ext_elem {A B} (f g : A → list B) (l : list A) :
  (∀ x, x ∈ l → f x = g x) → flat_map f l = flat_map g l.
Proof.
  induction l as [|a l IH]; intros Hfg; simpl; [done |].
  rewrite Hfg by left. rewrite IH; [done |]. intros x Hx. apply Hfg. by right.
Qed.

Lemma height_pos n : 0 < height n.
Proof. destruct n; simpl; lia. Qed.

(** The depth bound is immaterial once it covers the height of the node:
    the recursion never reaches it. *)
Lemma iter_scalar_leaves_depth_irrelevant (d1 d2 : nat) (node : Element)
    (sel : Selection) (path : option PathKey) :
  height node ≤ d1 → height node ≤ d2 →
  iter_scalar_leaves_depth d1 node sel path
  = iter_scalar_leaves_depth d2 node sel path.
Proof.
  revert d2 node path. induction d1 as [|d1 IH]; intros d2 node path H1 H2.
  { pose proof (height_pos node). lia. }
  destruct d2 as [|d2]; [pose proof (height_pos node); lia |].
  simpl. destruct (children node) as [|c cs] eqn:Hcs; [done |].
  apply flat_map_ext_elem. intros [t siblings] Hin.
  assert (∀ s, s ∈ siblings → height s ≤ d1 ∧ height s ≤ d2) as Hs.
  { intros s Hs.
    apply (get_children_by_tag_member _ _ _ _ Hin) in Hs as [Hs%height_child _].
    lia. }
  destruct (1 <? length siblings).
  - destruct (sel !! _) as [idx|]; [| done].
    destruct (_ && _)%bool; [| done].
    destruct (siblings !! Z.to_nat idx) as [s|] eqn:Hidx; [| done].
    apply list_elem_of_lookup_2, Hs in Hidx as [??]. by apply IH.
  - destruct siblings as [|s ?]; [done |].
    destruct (Hs s) as [??]; [left |]. by apply IH.
Qed.

(** The recursion equation of [iter_scalar_leaves], as the source has it. *)
Lemma iter_scalar_leaves_unfold (node : Element) (sel : Selection)
    (path : option PathKey) :
  iter_scalar_leaves node sel path
  = let path := default [tag node] path in
    match children node with
    | [] => [(path, strip (default "" (text node)))]
    | _ =>
        flat_map (fun '(tag, siblings) =>
            let next_path := path ++ [tag] in
            if 1 <? length siblings then
              match sel !! next_path with
              | Some idx =>
                  if ((0 <=? idx) && (idx <? Z.of_nat (length siblings)))%Z then
                    match siblings !! Z.to_nat idx with
                    | Some s => iter_scalar_leaves s sel (Some next_path)
                    | None => []
                    end
                  else []
              | None => []
              end
            else
              match siblings with
              | s :: _ => iter_scalar_leaves s sel (Some next_path)
              | [] => []
              end)
          (get_children_by_tag node)
    end.
Proof.
  unfold iter_scalar_leaves at 1.
  destruct (height node) as [|h] eqn:Hh; [pose proof (height_pos node); lia |].
  simpl. destruct (children node) as [|c cs] eqn:Hcs; [done |].
  apply flat_map_ext_elem. intros [t siblings] Hin.
  assert (∀ s, s ∈ siblings → height s ≤ h) as Hs.
  { intros s Hs.
    apply (get_children_by_tag_member _ _ _ _ Hin) in Hs as [Hs%height_child _].
    lia. }
  unfold iter_scalar_leaves. destruct (1 <? length siblings).
  - destruct (sel !! _) as [idx|]; [| done].
    destruct (_ && _)%bool; [| done].
    destruct (siblings !! Z.to_nat idx) as [s|] eqn:Hidx; [| done].
    apply list_elem_of_lookup_2, Hs in Hidx.
    by apply iter_scalar_leaves_depth_irrelevant.
  - destruct siblings as [|s ?]; [done |].
    apply iter_scalar_leaves_depth_irrelevant; [apply Hs; left | done].
Qed.

(** A node without children is a leaf: it yields its path and its trimmed
    text, whatever the selection. *)
Lemma iter_scalar_leaves_leaf (node : Element) (sel : Selection)
    (path : option PathKey) :
  children node = [] →
  iter_scalar_leaves node sel path
  = [(default [tag node] path, strip (default "" (text node)))].
Proof. intros Hcs. by rewrite iter_scalar_leaves_unfold, Hcs. Qed.

(** Every path yielded extends the path of the node the traversal started
    at; in particular it is never empty when that one is not. *)
Lemma iter_scalar_leaves_depth_path (d : nat) (node : Element) (sel : Selection)
    (path : option PathKey) (p : PathKey) (txt : string) :
  (p, txt) ∈ iter_scalar_leaves_depth d node sel path →
  ∃ rest, p = default [tag node] path ++ rest.
Proof.
  revert node path. induction d as [|d IH]; intros node path; simpl.
  { by intros ?%elem_of_nil. }
  destruct (children node) as [|c cs].
  { intros Heq%list_elem_of_singleton. simplify_eq. exists []. by rewrite app_nil_r. }
  intros ([t siblings] & _ & Hin)%list_elem_of_In%in_flat_map.
  apply list_elem_of_In in Hin.
  assert (∀ s, (p, txt) ∈ iter_scalar_leaves_depth d s sel
                 (Some (default [tag node] path ++ [t])) →
               ∃ rest, p = default [tag node] path ++ rest) as Hrec.
  { intros s (rest & ->)%IH. exists (t :: rest). simpl. by rewrite <- app_assoc. }
  destruct (1 <? length siblings).
  - destruct (sel !! _) as [idx|]; [| by apply elem_of_nil in Hin].
    destruct (_ && _)%bool; [| by apply elem_of_nil in Hin].
    destruct (siblings !! Z.to_nat idx) as [s|]; [| by apply elem_of_nil in Hin].
    by apply (Hrec s).
  - destruct siblings as [|s ?]; [by apply elem_of_nil in Hin |].
    by apply (Hrec s).
Qed.

Lemma iter_scalar_leaves_path_nonempty (node : Element) (sel : Selection)
    (p : PathKey) (txt : string) :
  (p, txt) ∈ iter_scalar_leaves node sel None → p ≠ [].
Proof.
  intros (rest & ->)%iter_scalar_leaves_depth_path. done.
Qed.

(** ** Column namer *)

Lemma suffixed_inj dotted i j : suffixed dotted i = suffixed dotted j → i = j.
Proof.
  unfold suffixed. intros H%(inj (String.app dotted))%(inj (String.app "_")).
  by apply (inj pretty).
Qed.

Lemma suffix_loop_None fuel dotted (existing : gmap string (list string)) i :
  suffix_loop fuel dotted existing i = None →
  ∀ j, i ≤ j < i + fuel → existing !! suffixed dotted j ≠ None.
Proof.
  revert i. induction fuel as [|fuel IH]; intros i Hloop j Hj; [lia |].
  simpl in Hloop. case_decide as Hi; [done |].
  destruct (decide (j = i)) as [->|Hne]; [done |].
  apply (IH (S i)); [done | lia].
Qed.

(** The loop returns the first free suffixed name. *)
Lemma suffix_loop_Some fuel dotted (existing : gmap string (list string)) i alt :
  suffix_loop fuel dotted existing i = Some alt →
  existing !! alt = None
  ∧ ∃ j, i ≤ j ∧ alt = suffixed dotted j
         ∧ ∀ k, i ≤ k < j → existing !! suffixed dotted k ≠ None.
Proof.
  revert i. induction fuel as [|fuel IH]; intros i Hloop; [done |].
  simpl in Hloop. case_decide as Hi.
  - simplify_eq. split; [done |]. exists i. split_and!; [lia | done | lia].
  - apply IH in Hloop as (Hfree & j & Hj & -> & Hmin). split; [done |].
    exists j. split_and!; [lia | done |].
    intros k Hk. destruct (decide (k = i)) as [->|Hne]; [done |].
    apply Hmin. lia.
Qed.

(** A header of [n] columns cannot hold the [n + 1] first suffixed names. *)
Lemma suffix_loop_total dotted (existing : gmap string (list string)) i :
  is_Some (suffix_loop (S (size existing)) dotted existing i).
Proof.
  destruct (suffix_loop _ dotted existing i) as [alt|] eqn:Hloop; [done |].
  exfalso. pose proof (suffix_loop_None _ _ _ _ Hloop) as Hall.
  set (names := suffixed dotted <$> seq i (S (size existing))).
  assert (NoDup names) as Hnd.
  { apply NoDup_fmap_2_strong; [| apply NoDup_seq].
    intros ?? _ _. apply suffixed_inj. }
  assert (list_to_set names ⊆ dom existing) as Hsub.
  { intros name (j & -> & Hj%elem_of_seq)%elem_of_list_to_set%list_elem_of_fmap.
    apply elem_of_dom, not_eq_None_Some, Hall. lia. }
  apply subseteq_size in Hsub.
  rewrite size_list_to_set, size_dom in Hsub by done.
  unfold names in Hsub. rewrite length_fmap, length_seq in Hsub. lia.
Qed.

(** The name returned on a collision is not in use. *)
Lemma disambiguate_column_name_fresh candidate full_path
    (existing : gmap string (list string)) :
  existing !! candidate ≠ None →
  existing !! disambiguate_column_name candidate full_path existing = None.
Proof.
  intros Hused. unfold disambiguate_column_name.
  rewrite decide_False by done. case_decide as Hdotted; [done |].
  destruct (suffix_loop_total (join_dot full_path) existing 2) as [alt Halt].
  rewrite Halt. simpl. by apply suffix_loop_Some in Halt as [? _].
Qed.

Lemma disambiguate_column_name_unused candidate full_path
    (existing : gmap string (list string)) :
  existing !! candidate = None →
  disambiguate_column_name candidate full_path existing = candidate.
Proof. intros Hfree. unfold disambiguate_column_name. by rewrite decide_True. Qed.

(** ** Row assembler *)

(** *** Ordered dictionaries *)

Lemma od_get_set (d : odict) k v k' :
  od_get (od_set d k v) k' = if decide (k = k') then Some v else od_get d k'.
Proof.
  induction d as [|[k0 v0] d IH]; simpl.
  - repeat case_decide; simplify_eq; done.
  - repeat (case_decide; simpl; simplify_eq); try done.
    all: rewrite IH; repeat case_decide; simplify_eq; done.
Qed.

Lemma od_get_elem (d : odict) k v : od_get d k = Some v → (k, v) ∈ d.
Proof.
  induction d as [|[k0 v0] d IH]; simpl; [done |].
  case_decide; intros ?; simplify_eq; [left | right; auto].
Qed.

Lemma od_set_Forall (P : string * string → Prop) (d : odict) k v :
  Forall P d → P (k, v) → Forall P (od_set d k v).
Proof.
  intros Hd Hkv. induction Hd as [|[k0 v0] d H0 Hd IH]; simpl.
  - by repeat constructor.
  - case_decide; simplify_eq; constructor; done.
Qed.


(** *** One naming step *)

Lemma leaf_step_eq row_parent row_tag row_map hs path text :
  leaf_step row_parent row_tag (row_map, hs) (path, text)
  = if decide (text = "") then (row_map, hs)
    else
      let full_path := effective_path row_parent row_tag path in
      let col := leaf_column (header_paths hs) full_path in
      (od_set row_map col text, register_column col full_path hs).
Proof. done. Qed.

Lemma container_step_eq row_parent row_map hs candidate_name value :
  container_step (Some row_parent) (row_map, hs) (candidate_name, value)
  = let full_path := [tag row_parent; candidate_name] in
    let col :=
      if bool_decide (header_paths hs !! candidate_name ≠ None)
         && bool_decide (header_paths hs !! candidate_name ≠ Some full_path)
      then disambiguate_column_name candidate_name full_path (header_paths hs)
      else candidate_name in
    (match od_get row_map col with
     | None => od_set row_map col value
     | Some _ => row_map
     end,
     register_column col full_path hs).
Proof. done. Qed.

Lemma container_step_leaf_column row_parent (paths : gmap string (list string))
    candidate_name :
  (if bool_decide (paths !! candidate_name ≠ None)
      && bool_decide (paths !! candidate_name ≠ Some [tag row_parent; candidate_name])
   then disambiguate_column_name candidate_name [tag row_parent; candidate_name] paths
   else candidate_name)
  = leaf_column paths [tag row_parent; candidate_name].
Proof. done. Qed.

Lemma register_column_order col full_path hs :
  header_order (register_column col full_path hs)
  = header_order hs
    ++ (if decide (header_paths hs !! col = None) then [col] else []).
Proof.
  unfold register_column. case_decide; simpl; [done | by rewrite app_nil_r].
Qed.

Lemma register_column_paths col full_path hs :
  header_paths (register_column col full_path hs)
  = if decide (header_paths hs !! col = None)
    then <[col := full_path]> (header_paths hs) else header_paths hs.
Proof. unfold register_column. by case_decide. Qed.

(** A column is never given a name that is bound to another path. *)
Lemma leaf_column_bound (paths : gmap string (list string)) full_path :
  paths !! leaf_column paths full_path = None
  ∨ paths !! leaf_column paths full_path = Some full_path.
Proof.
  unfold leaf_column.
  destruct (decide (paths !! path_last full_path = None)) as [Hnone|Hsome].
  - rewrite bool_decide_eq_false_2 by (by intros ?). simpl. by left.
  - rewrite bool_decide_eq_true_2 by done. simpl. case_bool_decide as Hne.
    + left. by apply disambiguate_column_name_fresh.
    + right. by destruct (decide (paths !! path_last full_path = Some full_path)).
Qed.

(** After the registration the chosen column is bound to the leaf's path. *)
Lemma register_leaf_column (hs : HeaderState) full_path :
  header_paths (register_column (leaf_column (header_paths hs) full_path) full_path hs)
    !! leaf_column (header_paths hs) full_path = Some full_path.
Proof.
  rewrite register_column_paths.
  destruct (leaf_column_bound (header_paths hs) full_path) as [H|H].
  - rewrite decide_True by done. apply lookup_insert_eq.
  - rewrite decide_False; [done | by rewrite H].
Qed.

(** *** What every level of the extraction preserves *)

Lemma fold_left_invariant {A B} (I : A → Prop) (f : A → B → A) (l : list B) a :
  I a → (∀ a b, I a → b ∈ l → I (f a b)) → I (fold_left f l a).
Proof.
  revert a. induction l as [|b l IH]; intros a Ha Hstep; simpl; [done |].
  apply IH; [apply Hstep; [done | left] |].
  intros a' b' Ha' Hb'. apply Hstep; [done | by right].
Qed.

Section closed.
Context (P : HeaderState → Prop) (HP : header_closed P).

Lemma leaf_step_closed row_parent row_tag st leaf :
  P st.2 → P (leaf_step row_parent row_tag st leaf).2.
Proof.
  destruct st as [row_map hs], leaf as [path text]. rewrite leaf_step_eq.
  case_decide; simpl; [done | apply HP].
Qed.

Lemma container_step_closed row_parent st item :
  P st.2 → P (container_step row_parent st item).2.
Proof.
  destruct st as [row_map hs], item as [candidate_name value].
  unfold container_step. simpl. apply HP.
Qed.

Lemma build_row_closed row_elem row_parent row_tag container_values hs sel :
  P hs → P (build_row row_elem row_parent row_tag container_values hs sel).2.
Proof.
  intros Hhs. unfold build_row, add_row_values, seed_container_values.
  apply (fold_left_invariant (fun st => P st.2)).
  - by apply (fold_left_invariant (fun st => P st.2));
      [| intros; apply container_step_closed].
  - intros. by apply leaf_step_closed.
Qed.

Lemma row_step_closed row_elem row_parent row_tag container_values st sel :
  P st.2 → P (row_step row_elem row_parent row_tag container_values st sel).2.
Proof.
  destruct st as [rows hs]. simpl. intros Hhs.
  pose proof (build_row_closed row_elem row_parent row_tag container_values
                hs sel Hhs).
  by destruct (build_row _ _ _ _ _ _).
Qed.

Lemma rows_fold_closed row_elem row_parent row_tag container_values sels st :
  P st.2 →
  P (fold_left (row_step row_elem row_parent row_tag container_values) sels st).2.
Proof.
  intros Hst. by apply (fold_left_invariant (fun st => P st.2));
    [| intros; apply row_step_closed].
Qed.

Lemma extract_rows_for_element_closed fuel row_elem row_parent row_tag hs rows hs' :
  extract_rows_for_element fuel row_elem row_parent row_tag hs = Some (rows, hs') →
  P hs → P hs'.
Proof.
  unfold extract_rows_for_element. intros Hex Hhs.
  destruct (expand_loop _ _ _ _) as [finalized|]; [| done]. simpl in Hex.
  pose proof (rows_fold_closed row_elem row_parent row_tag
                (build_container_values row_parent row_tag) finalized
                ([], hs) Hhs) as Hfold.
  injection Hex as Hex. by rewrite Hex in Hfold.
Qed.

Lemma extract_all_closed fuel row_elements row_parent row_tag rows hs rows' hs' :
  extract_all fuel row_elements row_parent row_tag rows hs = Some (rows', hs') →
  P hs → P hs'.
Proof.
  revert rows hs. induction row_elements as [|row_elem rest IH];
    intros rows hs Hex Hhs; simpl in Hex; [by simplify_eq |].
  destruct (extract_rows_for_element _ _ _ _ _) as [[extracted hs1]|] eqn:Hrow;
    [| done].
  simpl in Hex. eapply IH; [done |].
  by eapply extract_rows_for_element_closed.
Qed.

Lemma extract_table_closed fuel root hs rows hs' :
  extract_table_from_file fuel root hs = Some (rows, hs') → P hs → P hs'.
Proof.
  unfold extract_table_from_file.
  destruct (find_row_parent_and_tag root) as [[[row_parent row_tag] row_elements]|];
    [| done].
  simpl. apply extract_all_closed.
Qed.

Lemma merge_tables_closed fuel inputs merged_rows hs rows hs' :
  merge_tables fuel inputs merged_rows hs = Some (rows, hs') → P hs → P hs'.
Proof.
  revert merged_rows hs. induction inputs as [|root rest IH];
    intros merged_rows hs Hm Hhs; simpl in Hm; [by simplify_eq |].
  destruct (extract_table_from_file _ _ _) as [[rows1 hs1]|] eqn:Htab; [| done].
  simpl in Hm. eapply IH; [done |]. by eapply extract_table_closed.
Qed.
End closed.

(** The header only grows: a bound column keeps its path. *)
Lemma header_grows_closed (hs0 : HeaderState) :
  header_closed (fun hs => header_paths hs0 ⊆ header_paths hs).
Proof.
  intros col full_path hs Hsub. rewrite register_column_paths.
  case_decide; [| done]. etrans; [done |]. by apply insert_subseteq.
Qed.

(** Registration keeps the list of columns and the bindings in step. *)
Lemma header_wf_closed : header_closed header_wf.
Proof.
  intros col full_path hs [Hnd Hdom]. unfold header_wf.
  rewrite register_column_order, register_column_paths.
  case_decide as Hcol; [| by rewrite app_nil_r]. split.
  - apply NoDup_app. split_and!; [done | | apply NoDup_singleton].
    intros c Hc ->%list_elem_of_singleton. by apply Hdom in Hc.
  - intros c. rewrite elem_of_app, list_elem_of_singleton, Hdom.
    destruct (decide (col = c)) as [->|Hne].
    + rewrite lookup_insert_eq. split; [done | by right].
    + rewrite lookup_insert_ne by done. split; [| by left].
      by intros [?|?].
Qed.

Lemma header_wf_fresh : header_wf fresh_header.
Proof.
  split; [constructor |]. intros col. simpl. rewrite elem_of_nil, lookup_empty.
  done.
Qed.

(** *** Empty leaves *)

Lemma od_get_set_keeps (d : odict) k v c :
  od_get d c ≠ None → od_get (od_set d k v) c ≠ None.
Proof. rewrite od_get_set. by case_decide. Qed.

Lemma build_container_values_nonempty row_parent row_tag :
  Forall (fun kv => kv.2 ≠ "") (build_container_values row_parent row_tag).
Proof.
  destruct row_parent as [row_parent|]; simpl; [| constructor].
  apply (fold_left_invariant (Forall (fun kv : string * string => kv.2 ≠ "")));
    [constructor |].
  intros values [path text] Hvalues _. unfold container_value_step.
  destruct (_ && _); [done |]. case_decide; [done |]. by apply od_set_Forall.
Qed.

Lemma leaf_step_row_invariant hs0 row_parent row_tag st leaf :
  row_invariant hs0 st → row_invariant hs0 (leaf_step row_parent row_tag st leaf).
Proof.
  destruct st as [row_map hs], leaf as [path text]. rewrite leaf_step_eq.
  case_decide as Htext; [done |]. simpl.
  intros [Hvalues (new & Horder & Hnew)]. split; simpl in *.
  - by apply od_set_Forall.
  - eexists. rewrite register_column_order, Horder, <- app_assoc.
    split; [done |]. intros col [Hcol|Hcol]%elem_of_app.
    + by apply od_get_set_keeps, Hnew.
    + case_decide; [| by apply elem_of_nil in Hcol].
      apply list_elem_of_singleton in Hcol as ->.
      rewrite od_get_set, decide_True; done.
Qed.

Lemma container_step_row_invariant hs0 row_parent st item :
  item.2 ≠ "" →
  row_invariant hs0 st → row_invariant hs0 (container_step row_parent st item).
Proof.
  destruct st as [row_map hs], item as [candidate_name value].
  unfold container_step. simpl.
  set (col := if _ : bool then _ else candidate_name).
  set (full_path := match row_parent with Some _ => _ | None => _ end).
  intros Hvalue [Hvalues (new & Horder & Hnew)]. split; simpl in *.
  - destruct (od_get row_map col); [done | by apply od_set_Forall].
  - eexists. rewrite register_column_order, Horder, <- app_assoc.
    split; [done |]. intros c [Hc|Hc]%elem_of_app.
    + destruct (od_get row_map col); [by apply Hnew |].
      by apply od_get_set_keeps, Hnew.
    + case_decide; [| by apply elem_of_nil in Hc].
      apply list_elem_of_singleton in Hc as ->.
      destruct (od_get row_map col) eqn:Hget; [by rewrite Hget |].
      rewrite od_get_set, decide_True; done.
Qed.

Lemma build_row_row_invariant row_elem row_parent row_tag container_values hs sel :
  Forall (fun kv => kv.2 ≠ "") container_values →
  row_invariant hs (build_row row_elem row_parent row_tag container_values hs sel).
Proof.
  intros Hcv. unfold build_row, add_row_values, seed_container_values.
  apply fold_left_invariant.
  - apply fold_left_invariant.
    + split; [constructor |]. exists []. split; [by rewrite app_nil_r |].
      by intros ? ?%elem_of_nil.
    + intros st item Hst Hitem. apply container_step_row_invariant; [| done].
      rewrite Forall_forall in Hcv. by apply Hcv.
  - intros. by apply leaf_step_row_invariant.
Qed.

Lemma row_step_rows_invariant hs0 row_elem row_parent row_tag container_values st sel :
  Forall (fun kv => kv.2 ≠ "") container_values →
  rows_invariant hs0 st →
  rows_invariant hs0 (row_step row_elem row_parent row_tag container_values st sel).
Proof.
  destruct st as [rows hs]. intros Hcv [Hrows Hcols]. simpl in *.
  pose proof (build_row_row_invariant row_elem row_parent row_tag
                container_values hs sel Hcv) as [Hvalues (new & Horder & Hnew)].
  destruct (build_row _ _ _ _ _ _) as [row_map hs1]. simpl in *. split; simpl.
  - apply Forall_app. split; [done | by constructor].
  - intros col. rewrite Horder. intros [Hcol|Hcol]%elem_of_app.
    + destruct (Hcols col Hcol) as [?|(row & Hrow & Hget)]; [by left | right].
      exists row. split; [| done]. apply elem_of_app. by left.
    + right. exists row_map. split; [| by apply Hnew].
      apply elem_of_app. right. left.
Qed.

(** C5, as the code has it.  A node without children is a leaf and yields
    its trimmed text.  A leaf whose trimmed text is empty leaves no trace:
    no record holds an empty value, and every column that an extraction adds
    to the header holds a non-empty value in one of the records it returns,
    so an empty leaf never registers a header entry. *)
Theorem empty_leaf_suppressed :
  (∀ (node : Element) (sel : Selection) (path : option PathKey),
      children node = [] →
      iter_scalar_leaves node sel path
      = [(default [tag node] path, strip (default "" (text node)))])
  ∧ (∀ fuel row_elem row_parent row_tag hs rows hs',
        extract_rows_for_element fuel row_elem row_parent row_tag hs
          = Some (rows, hs') →
        (∀ row col v, row ∈ rows → od_get row col = Some v → v ≠ "")
        ∧ (∀ col, col ∈ header_order hs' → col ∉ header_order hs →
                  ∃ row v, row ∈ rows ∧ od_get row col = Some v ∧ v ≠ "")).
Proof.
  split; [apply iter_scalar_leaves_leaf |].
  intros fuel row_elem row_parent row_tag hs rows hs' Hex.
  unfold extract_rows_for_element in Hex.
  destruct (expand_loop _ _ _ _) as [finalized|]; [| done]. simpl in Hex.
  assert (rows_invariant hs (rows, hs')) as [Hrows Hcols].
  { injection Hex as <-. apply fold_left_invariant.
    - split; [constructor | by left].
    - intros st sel Hst _. apply row_step_rows_invariant; [| done].
      apply build_container_values_nonempty. }
  simpl in *.
  assert (∀ row col v, row ∈ rows → od_get row col = Some v → v ≠ "") as Hvalues.
  { intros row col v Hrow Hget%od_get_elem.
    rewrite Forall_forall in Hrows. specialize (Hrows row Hrow).
    rewrite Forall_forall in Hrows. by apply (Hrows (col, v)). }
  split; [done |]. intros col Hcol Hnew.
  destruct (Hcols col Hcol) as [?|(row & Hrow & Hget)]; [done |].
  destruct (od_get row col) as [v|] eqn:Hv; [| done].
  exists row, v. split_and!; [done | done | by eapply Hvalues].
Qed.

(** *** Container values first, row values second *)




(** ** Whole documents *)

(** *** Enough fuel *)

Lemma extract_all_fuel fuel fuel' row_elements row_parent row_tag rows hs :
  Forall (fun row_elem => expansion_steps (nested_groups row_elem) ≤ fuel)
         row_elements →
  Forall (fun row_elem => expansion_steps (nested_groups row_elem) ≤ fuel')
         row_elements →
  is_Some (extract_all fuel row_elements row_parent row_tag rows hs)
  ∧ extract_all fuel row_elements row_parent row_tag rows hs
    = extract_all fuel' row_elements row_parent row_tag rows hs.
Proof.
  intros Hfuel. revert rows hs.
  induction Hfuel as [|row_elem rest Hrow _ IH]; intros rows hs Hfuel'; simpl;
    [done |].
  apply Forall_cons in Hfuel' as [Hrow' Hrest'].
  rewrite !extract_rows_for_element_cartesian by done.
  destruct (rows_for_selections _ _ _ _ _) as [extracted hs1]. simpl.
  by apply IH.
Qed.

Lemma foldr_max_le (l : list nat) n : n ∈ l → n ≤ foldr Nat.max 0 l.
Proof. induction 1; simpl; lia. Qed.

Lemma table_fuel_covers root fuel row_parent row_tag row_elements :
  find_row_parent_and_tag root = Some (row_parent, row_tag, row_elements) →
  table_fuel root ≤ fuel →
  Forall (fun row_elem => expansion_steps (nested_groups row_elem) ≤ fuel)
         row_elements.
Proof.
  unfold table_fuel. intros -> Hfuel. apply Forall_forall. intros row_elem Hin.
  etrans; [| done]. apply foldr_max_le, list_elem_of_fmap. by exists row_elem.
Qed.

(** With [table_fuel] or more, the extraction of a document returns, and
    returns the same whatever the amount. *)
Lemma extract_table_fuel root fuel fuel' hs :
  table_fuel root ≤ fuel → table_fuel root ≤ fuel' →
  is_Some (extract_table_from_file fuel root hs)
  ∧ extract_table_from_file fuel root hs = extract_table_from_file fuel' root hs.
Proof.
  intros Hfuel Hfuel'. unfold extract_table_from_file.
  destruct (find_row_parent_and_tag_total root)
    as [[[row_parent row_tag] row_elements] Hfind].
  rewrite Hfind. simpl.
  by apply extract_all_fuel; eapply table_fuel_covers.
Qed.

(** C9. Two runs of the extraction on the same document, each against a
    fresh header state of its own, return the same rows and leave the same
    header (the same columns in the same order, bound to the same paths),
    whatever fuel they are given beyond what the document needs. *)
Theorem extract_table_idempotent (root : Element) (fuel1 fuel2 : nat)
    (hs1 hs2 : HeaderState) :
  header_order hs1 = [] → header_paths hs1 = ∅ →
  header_order hs2 = [] → header_paths hs2 = ∅ →
  table_fuel root ≤ fuel1 → table_fuel root ≤ fuel2 →
  ∃ rows hs',
    extract_table_from_file fuel1 root hs1 = Some (rows, hs')
    ∧ extract_table_from_file fuel2 root hs2 = Some (rows, hs').
Proof.
  destruct hs1 as [order1 paths1], hs2 as [order2 paths2]. simpl.
  intros -> -> -> -> Hfuel1 Hfuel2.
  destruct (extract_table_fuel root fuel1 fuel2 (mkHeader [] ∅) Hfuel1 Hfuel2)
    as [[[rows hs'] Hrun] Heq].
  exists rows, hs'. by rewrite <- Heq.
Qed.

(** *** Runs that end in a default-named header *)

(** When a run ends in a header [N] where every column bears the last tag
    of its path, no step of it took the disambiguation branch; such a step
    does the same from any other header state within [N]. *)
Section within.
Context (N : gmap string (list string)) (HN : default_named N).

Lemma leaf_column_within (hs : HeaderState) full_path :
  header_paths (register_column (leaf_column (header_paths hs) full_path)
                                full_path hs) ⊆ N →
  leaf_column (header_paths hs) full_path = path_last full_path
  ∧ N !! path_last full_path = Some full_path.
Proof.
  intros Hsub.
  pose proof (lookup_weaken _ _ _ _ (register_leaf_column hs full_path) Hsub)
    as Hcol.
  pose proof (HN _ _ Hcol) as Hlast. simpl in Hlast.
  split; [done | by rewrite Hlast].
Qed.

Lemma leaf_column_agree (paths : gmap string (list string)) full_path :
  paths ⊆ N → N !! path_last full_path = Some full_path →
  leaf_column paths full_path = path_last full_path.
Proof.
  intros Hsub Hlast. unfold leaf_column.
  destruct (paths !! path_last full_path) as [q|] eqn:Hq.
  - pose proof (lookup_weaken _ _ _ _ Hq Hsub). simplify_eq.
    rewrite (bool_decide_eq_false_2 (Some full_path ≠ Some full_path)) by naive_solver.
    by rewrite andb_false_r.
  - by rewrite bool_decide_eq_false_2 by naive_solver.
Qed.

Lemma register_within (hs : HeaderState) full_path :
  header_paths hs ⊆ N → N !! path_last full_path = Some full_path →
  header_paths (register_column (path_last full_path) full_path hs) ⊆ N.
Proof.
  intros Hsub Hlast. rewrite register_column_paths.
  case_decide; [| done]. by apply insert_subseteq_l.
Qed.

Lemma leaf_step_transfer row_parent row_tag row_map hs leaf hs2 :
  header_paths (leaf_step row_parent row_tag (row_map, hs) leaf).2 ⊆ N →
  header_paths hs2 ⊆ N →
  (leaf_step row_parent row_tag (row_map, hs2) leaf).1
    = (leaf_step row_parent row_tag (row_map, hs) leaf).1
  ∧ header_paths (leaf_step row_parent row_tag (row_map, hs2) leaf).2 ⊆ N.
Proof.
  destruct leaf as [path text]. rewrite !leaf_step_eq.
  case_decide; simpl; [done |]. intros [Hcol Hlast]%leaf_column_within Hsub2.
  rewrite Hcol, (leaf_column_agree (header_paths hs2)) by done.
  split; [done | by apply register_within].
Qed.

Lemma container_step_transfer row_parent row_map hs item hs2 :
  header_paths (container_step (Some row_parent) (row_map, hs) item).2 ⊆ N →
  header_paths hs2 ⊆ N →
  (container_step (Some row_parent) (row_map, hs2) item).1
    = (container_step (Some row_parent) (row_map, hs) item).1
  ∧ header_paths (container_step (Some row_parent) (row_map, hs2) item).2 ⊆ N.
Proof.
  destruct item as [candidate_name value]. rewrite !container_step_eq.
  cbv zeta. rewrite !container_step_leaf_column. simpl.
  intros [Hcol Hlast]%leaf_column_within Hsub2.
  rewrite Hcol, (leaf_column_agree (header_paths hs2)) by done.
  split; [done |].
  by apply (register_within hs2 [tag row_parent; candidate_name]).
Qed.

Lemma fold_transfer {A B} (step : A * HeaderState → B → A * HeaderState)
    (l : list B) :
  (∀ st b, header_paths st.2 ⊆ header_paths (step st b).2) →
  (∀ a hs b hs2,
      header_paths (step (a, hs) b).2 ⊆ N → header_paths hs2 ⊆ N →
      (step (a, hs2) b).1 = (step (a, hs) b).1
      ∧ header_paths (step (a, hs2) b).2 ⊆ N) →
  ∀ a hs hs2,
    header_paths (fold_left step l (a, hs)).2 ⊆ N → header_paths hs2 ⊆ N →
    (fold_left step l (a, hs2)).1 = (fold_left step l (a, hs)).1
    ∧ header_paths (fold_left step l (a, hs2)).2 ⊆ N.
Proof.
  intros Hgrow Hstep. induction l as [|b l IH]; intros a hs hs2 Hend Hsub2;
    simpl in *; [done |].
  assert (header_paths (step (a, hs) b).2 ⊆ N) as Hmid.
  { etrans; [| exact Hend].
    apply (fold_left_invariant
             (fun st => header_paths (step (a, hs) b).2 ⊆ header_paths st.2));
      [done |]. intros st b' Hst _. etrans; [exact Hst | apply Hgrow]. }
  destruct (Hstep a hs b hs2 Hmid Hsub2) as [Hfst Hsnd].
  destruct (step (a, hs) b) as [a1 hs1], (step (a, hs2) b) as [a1' hs2'].
  simpl in *. subst a1'. by apply IH.
Qed.

Lemma build_row_transfer row_elem row_parent row_tag hs sel hs2 :
  header_paths (build_row row_elem row_parent row_tag
                  (build_container_values row_parent row_tag) hs sel).2 ⊆ N →
  header_paths hs2 ⊆ N →
  (build_row row_elem row_parent row_tag
     (build_container_values row_parent row_tag) hs2 sel).1
    = (build_row row_elem row_parent row_tag
         (build_container_values row_parent row_tag) hs sel).1
  ∧ header_paths (build_row row_elem row_parent row_tag
                    (build_container_values row_parent row_tag) hs2 sel).2 ⊆ N.
Proof.
  unfold build_row, add_row_values. intros Hend Hsub2.
  set (leaves := iter_scalar_leaves row_elem sel None) in *.
  assert (∀ st, header_paths st.2
                ⊆ header_paths (fold_left (leaf_step row_parent row_tag) leaves st).2)
    as Hgrow.
  { intros st. apply (fold_left_invariant
                        (fun st' => header_paths st.2 ⊆ header_paths st'.2));
      [done |]. intros st' leaf Hst' _.
    by apply (leaf_step_closed _ (header_grows_closed st.2)). }
  assert (∃ seeded2,
    seed_container_values row_parent (build_container_values row_parent row_tag)
      ([], hs2)
    = ((seed_container_values row_parent
          (build_container_values row_parent row_tag) ([], hs)).1, seeded2)
    ∧ header_paths seeded2 ⊆ N) as (seeded2 & -> & Hseeded2).
  { destruct row_parent as [row_parent|]; [| simpl; by exists hs2].
    unfold seed_container_values.
    destruct (fold_transfer (container_step (Some row_parent))
                (build_container_values (Some row_parent) row_tag)) with
      (a := @nil (string * string)) (hs := hs) (hs2 := hs2) as [Hfst Hsnd].
    - intros st item. by apply (container_step_closed _ (header_grows_closed st.2)).
    - intros. by apply container_step_transfer.
    - etrans; [apply Hgrow | exact Hend].
    - done.
    - eexists. split; [| exact Hsnd]. rewrite <- Hfst. apply surjective_pairing. }
  destruct (seed_container_values row_parent _ ([], hs)) as [base hs1] eqn:Hseed.
  simpl in *.
  apply (fold_transfer (leaf_step row_parent row_tag) leaves); try done.
  - intros st leaf. by apply (leaf_step_closed _ (header_grows_closed st.2)).
  - intros. by apply leaf_step_transfer.
Qed.

Lemma row_step_transfer row_elem row_parent row_tag rows hs sel hs2 :
  header_paths (row_step row_elem row_parent row_tag
                  (build_container_values row_parent row_tag) (rows, hs) sel).2 ⊆ N →
  header_paths hs2 ⊆ N →
  (row_step row_elem row_parent row_tag
     (build_container_values row_parent row_tag) (rows, hs2) sel).1
    = (row_step row_elem row_parent row_tag
         (build_container_values row_parent row_tag) (rows, hs) sel).1
  ∧ header_paths (row_step row_elem row_parent row_tag
                    (build_container_values row_parent row_tag) (rows, hs2) sel).2 ⊆ N.
Proof.
  simpl. intros Hend Hsub2.
  destruct (build_row_transfer row_elem row_parent row_tag hs sel hs2)
    as [Hfst Hsnd]; [| done |].
  - by destruct (build_row _ _ _ _ hs sel).
  - destruct (build_row _ _ _ _ hs sel), (build_row _ _ _ _ hs2 sel).
    simpl in *. by subst.
Qed.

Lemma extract_rows_for_element_transfer fuel row_elem row_parent row_tag
    hs rows hs' hs2 :
  extract_rows_for_element fuel row_elem row_parent row_tag hs = Some (rows, hs') →
  header_paths hs' ⊆ N → header_paths hs2 ⊆ N →
  ∃ hs2', extract_rows_for_element fuel row_elem row_parent row_tag hs2
          = Some (rows, hs2')
          ∧ header_paths hs2' ⊆ N.
Proof.
  unfold extract_rows_for_element. intros Hex Hend Hsub2.
  destruct (expand_loop _ _ _ _) as [finalized|]; [| done]. simpl in *.
  injection Hex as Hex.
  destruct (fold_transfer
              (row_step row_elem row_parent row_tag
                 (build_container_values row_parent row_tag)) finalized)
    with (a := @nil odict) (hs := hs) (hs2 := hs2) as [Hfst Hsnd].
  - intros st sel. by apply (row_step_closed _ (header_grows_closed st.2)).
  - intros. by apply row_step_transfer.
  - by rewrite Hex.
  - done.
  - rewrite Hex in Hfst. simpl in Hfst. rewrite <- Hfst. eexists.
    split; [| exact Hsnd]. f_equal. apply surjective_pairing.
Qed.

Lemma extract_all_transfer fuel row_elements row_parent row_tag rows0 hs rows hs' hs2 :
  extract_all fuel row_elements row_parent row_tag rows0 hs = Some (rows, hs') →
  header_paths hs' ⊆ N → header_paths hs2 ⊆ N →
  ∃ hs2', extract_all fuel row_elements row_parent row_tag rows0 hs2
          = Some (rows, hs2')
          ∧ header_paths hs2' ⊆ N.
Proof.
  revert rows0 hs hs2. induction row_elements as [|row_elem rest IH];
    intros rows0 hs hs2 Hex Hend Hsub2; simpl in *.
  { simplify_eq. by exists hs2. }
  destruct (extract_rows_for_element _ _ _ _ hs) as [[extracted hs1]|] eqn:Hrow;
    [| done].
  simpl in Hex.
  assert (header_paths hs1 ⊆ N) as Hmid.
  { etrans; [| exact Hend].
    by apply (extract_all_closed _ (header_grows_closed hs1) _ _ _ _ _ _ _ _ Hex). }
  destruct (extract_rows_for_element_transfer _ _ _ _ _ _ _ hs2 Hrow Hmid Hsub2)
    as (hs2' & -> & Hsub2').
  simpl. by eapply IH.
Qed.

Lemma extract_table_transfer fuel root hs rows hs' hs2 :
  extract_table_from_file fuel root hs = Some (rows, hs') →
  header_paths hs' ⊆ N → header_paths hs2 ⊆ N →
  ∃ hs2', extract_table_from_file fuel root hs2 = Some (rows, hs2')
          ∧ header_paths hs2' ⊆ N.
Proof.
  unfold extract_table_from_file.
  destruct (find_row_parent_and_tag root) as [[[row_parent row_tag] row_elements]|];
    [| done].
  simpl. apply extract_all_transfer.
Qed.

(** A merge that ends within [N] started within [N], and took from each
    document the rows the document yields on its own. *)
Lemma merge_tables_within fuel inputs rows0 hs rows hs' :
  merge_tables fuel inputs rows0 hs = Some (rows, hs') →
  header_paths hs' ⊆ N →
  header_paths hs ⊆ N
  ∧ rows = rows0 ++ concat (map (rows_alone fuel) inputs)
  ∧ Forall (fun root => ∃ hs1 r hs1', extract_table_from_file fuel root hs1 = Some (r, hs1')
                                      ∧ header_paths hs1' ⊆ N) inputs.
Proof.
  revert rows0 hs. induction inputs as [|root rest IH]; intros rows0 hs Hm Hend;
    simpl in Hm.
  { simplify_eq. split_and!; [done | by rewrite app_nil_r | constructor]. }
  destruct (extract_table_from_file fuel root hs) as [[rows1 hs1]|] eqn:Htab; [| done].
  simpl in Hm. destruct (IH _ _ Hm Hend) as (Hmid & -> & Hrest).
  split_and!.
  - etrans; [| exact Hmid].
    by apply (extract_table_closed _ (header_grows_closed hs) _ _ _ _ _ Htab).
  - destruct (extract_table_transfer _ _ _ _ _ fresh_header Htab Hmid)
      as (hs0 & Halone & _); [apply map_empty_subseteq |].
    simpl. unfold rows_alone at 2. rewrite Halone. by rewrite <- app_assoc.
  - constructor; [| done]. by exists hs, rows1, hs1.
Qed.

Lemma merge_tables_transfer fuel inputs rows0 hs2 :
  Forall (fun root => ∃ hs1 r hs1', extract_table_from_file fuel root hs1 = Some (r, hs1')
                                    ∧ header_paths hs1' ⊆ N) inputs →
  header_paths hs2 ⊆ N →
  ∃ rows hs2', merge_tables fuel inputs rows0 hs2 = Some (rows, hs2')
               ∧ header_paths hs2' ⊆ N.
Proof.
  intros Hall. revert rows0 hs2.
  induction Hall as [|root rest (hs1 & r & hs1' & Htab & Hend) _ IH];
    intros rows0 hs2 Hsub2; simpl.
  { by exists rows0, hs2. }
  destruct (extract_table_transfer _ _ _ _ _ hs2 Htab Hend Hsub2)
    as (hs2' & -> & Hsub2').
  simpl. by apply IH.
Qed.
End within.

Lemma default_named_subseteq (N N' : gmap string (list string)) :
  N' ⊆ N → default_named N → default_named N'.
Proof. intros Hsub HN col path Hcol. apply HN. by eapply lookup_weaken. Qed.

Lemma header_wf_Permutation hs1 hs2 :
  header_wf hs1 → header_wf hs2 → header_paths hs1 = header_paths hs2 →
  header_order hs1 ≡ₚ header_order hs2.
Proof.
  intros [Hnd1 Hdom1] [Hnd2 Hdom2] Heq. apply NoDup_Permutation; [done | done |].
  intros col. by rewrite Hdom1, Hdom2, Heq.
Qed.

(** C8, as the code has it.  When the merge of the documents in one order
    ends with a header in which every column bears the last tag of its
    path (no dotted or suffixed name was handed out), the merge of the same
    documents in any other order succeeds too, ends with the same columns
    bound to the same paths, listed in a possibly different order, and each
    document contributes to both merges the same rows, those it yields when
    it is converted on its own. *)
Theorem merge_order_independent_when_default_named (fuel : nat)
    (docs1 docs2 : list Element) (rows1 : list odict) (hs1 : HeaderState) :
  docs1 ≡ₚ docs2 →
  merge_tables fuel docs1 [] fresh_header = Some (rows1, hs1) →
  default_named (header_paths hs1) →
  ∃ rows2 hs2,
    merge_tables fuel docs2 [] fresh_header = Some (rows2, hs2)
    ∧ header_paths hs2 = header_paths hs1
    ∧ header_order hs2 ≡ₚ header_order hs1
    ∧ rows1 = concat (map (rows_alone fuel) docs1)
    ∧ rows2 = concat (map (rows_alone fuel) docs2).
Proof.
  intros Hperm Hrun1 HN.
  destruct (merge_tables_within _ HN _ _ _ _ _ _ Hrun1) as (_ & Hrows1 & Hall1);
    [done |].
  rewrite Hperm in Hall1.
  destruct (merge_tables_transfer _ HN fuel docs2 [] fresh_header Hall1)
    as (rows2 & hs2 & Hrun2 & Hsub2); [apply map_empty_subseteq |].
  destruct (merge_tables_within _ HN _ _ _ _ _ _ Hrun2 Hsub2) as (_ & Hrows2 & _).
  pose proof (default_named_subseteq _ _ Hsub2 HN) as HN2.
  destruct (merge_tables_within _ HN2 _ _ _ _ _ _ Hrun2) as (_ & _ & Hall2);
    [done |].
  rewrite <- Hperm in Hall2.
  destruct (merge_tables_transfer _ HN2 fuel docs1 [] fresh_header Hall2)
    as (rows1' & hs1' & Hrun1' & Hsub1); [apply map_empty_subseteq |].
  rewrite Hrun1 in Hrun1'. injection Hrun1' as <- <-.
  assert (header_paths hs2 = header_paths hs1) as Hpaths
    by by apply (anti_symm (⊆)).
  exists rows2, hs2. split_and!; try done.
  apply header_wf_Permutation; [| | done].
  - by apply (merge_tables_closed _ header_wf_closed _ _ _ _ _ _ Hrun2),
      header_wf_fresh.
  - by apply (merge_tables_closed _ header_wf_closed _ _ _ _ _ _ Hrun1),
      header_wf_fresh.
Qed.

(** ** The program on the sample documents *)

Example strip_text :
  strip "  fb 1 " = "fb 1" ∧ strip (String "010" " ") = "" ∧ strip "" = "".
Proof. split_and!; reflexivity. Qed.

(** The scenario of the specification. *)
Example convert_scenario :
  find_row_parent_and_tag doc_scenario
  = Some (Some doc_scenario, "b", [node "b" [leaf "fb1" "1"]; node "b" [leaf "fb1" "2"]])
  ∧ convert_xml_to_csv 1 doc_scenario
    = Some (["fa1"; "fb1"], [["X"; "1"]; ["X"; "2"]]).
Proof. split; vm_compute; reflexivity. Qed.

(** Groups that lie inside the members of a repeating group are not
    reachable: the search does not descend into a repeating child, and the
    leaves below an unresolved group are skipped. *)
Example group_in_group_not_expanded :
  nested_groups row_group_in_group
  = [(["b"; "c"], [node "c" [leaf "d" "1"; leaf "d" "2"];
                   node "c" [leaf "d" "3"; leaf "d" "4"]])]
  ∧ extract_rows_for_element 3 row_group_in_group None "b" fresh_header
    = Some ([[]; []], fresh_header).
Proof. split; vm_compute; reflexivity. Qed.

(** The row value takes the place of the container value of the same
    column. *)
Example row_value_wins :
  build_container_values (Some doc_row_wins) "a" = [("n", "1")]
  ∧ convert_xml_to_csv 1 doc_row_wins = Some (["n"], [["2"]; ["3"]]).
Proof. split; vm_compute; reflexivity. Qed.

(** A document without repeating tag is its own single row. *)
Lemma find_row_parent_and_tag_no_repeat_witness :
  find_row_parent_and_tag doc_flat = Some (None, "a", [doc_flat]).
Proof.
  apply (find_row_parent_and_tag_no_repeat doc_flat). vm_compute. reflexivity.
Defined.

Example extract_rows_two_groups :
  nested_groups row_two_groups
  = [(["b"; "c"], [leaf "c" "c0"; leaf "c" "c1"]);
     (["b"; "d"], [leaf "d" "d0"; leaf "d" "d1"; leaf "d" "d2"])]
  ∧ fst <$> extract_rows_for_element 9 row_two_groups None "b" fresh_header
    = Some [ [("c", "c1"); ("d", "d2"); ("e", "E")];
             [("c", "c1"); ("d", "d1"); ("e", "E")];
             [("c", "c1"); ("d", "d0"); ("e", "E")];
             [("c", "c0"); ("d", "d2"); ("e", "E")];
             [("c", "c0"); ("d", "d1"); ("e", "E")];
             [("c", "c0"); ("d", "d0"); ("e", "E")] ].
Proof. split; vm_compute; reflexivity. Qed.

(** A row element without nested group: one iteration, the empty selection. *)
Lemma expand_loop_terminates_witness :
  expand_loop 1 row_empty_leaf [∅] [] = Some [∅].
Proof.
  apply (proj2 (proj2 (expand_loop_terminates row_empty_leaf)));
    [vm_compute; reflexivity | lia].
Defined.

Example extract_rows_one_group :
  fst <$> extract_rows_for_element 4 row_one_group None "b" fresh_header
  = Some [ [("c", "3")]; [("c", "2")]; [("c", "1")] ].
Proof. vm_compute. reflexivity. Qed.

(** C5, as the specification states it, fails on
    [<a><b><x/><y>1</y></b><b><x>v</x><y>2</y></b></a>]: the empty leaf [x]
    of the first row is the first leaf to name the column [x], yet after
    that row the header holds [y] alone, and [x] enters it behind [y] with
    the second row. *)
Lemma empty_leaf_registers_no_header :
  iter_scalar_leaves row_empty_leaf ∅ None = [(["b"; "x"], ""); (["b"; "y"], "1")]
  ∧ extract_rows_for_element 1 row_empty_leaf (Some doc_empty_leaf) "b" fresh_header
    = Some ([[("y", "1")]], mkHeader ["y"] {[ "y" := ["b"; "y"] ]})
  ∧ convert_xml_to_csv 1 doc_empty_leaf
    = Some (["y"; "x"], [["1"; ""]; ["2"; "v"]]).
Proof. split_and!; vm_compute; reflexivity. Qed.

(** A leaf that holds a no-break space and nothing else yields the empty
    text; the row of [row_empty_leaf] holds no empty value, and the one
    column it adds holds a value. *)
Lemma empty_leaf_suppressed_witness :
  iter_scalar_leaves (leaf "x" nbsp) ∅ (Some ["b"; "x"]) = [(["b"; "x"], "")]
  ∧ (∀ row col v, row ∈ [[("y", "1")]] → od_get row col = Some v → v ≠ "")
  ∧ (∀ col, col ∈ header_order (mkHeader ["y"] {[ "y" := ["b"; "y"] ]}) →
            col ∉ header_order fresh_header →
            ∃ row v, row ∈ [[("y", "1")]] ∧ od_get row col = Some v ∧ v ≠ "").
Proof.
  split.
  - apply (proj1 empty_leaf_suppressed (leaf "x" nbsp) ∅ (Some ["b"; "x"])).
    reflexivity.
  - apply (proj2 empty_leaf_suppressed 1 row_empty_leaf (Some doc_empty_leaf) "b"
             fresh_header).
    vm_compute. reflexivity.
Defined.


Lemma extract_table_idempotent_witness :
  ∃ rows hs',
    extract_table_from_file 1 doc_scenario fresh_header = Some (rows, hs')
    ∧ extract_table_from_file 5 doc_scenario (mkHeader [] ∅) = Some (rows, hs').
Proof.
  apply (extract_table_idempotent doc_scenario 1 5 fresh_header (mkHeader [] ∅));
    try reflexivity; vm_compute; lia.
Defined.

(** Against one shared header state a second run is not a repetition of the
    first: it finds the columns of the first run bound. *)
Example shared_header_second_run :
  ∃ rows1 hs1 rows2 hs2,
    extract_table_from_file 1 doc_same_leaf_twice fresh_header = Some (rows1, hs1)
    ∧ extract_table_from_file 1 doc_same_leaf_twice hs1 = Some (rows2, hs2)
    ∧ rows1 ≠ rows2.
Proof.
  eexists _, _, _, _. split_and!; [vm_compute; reflexivity .. |].
  vm_compute. discriminate.
Qed.

(** C8, as the specification states it, fails on the two single-row
    documents [<b><name>1</name></b>] and [<c><name>3</name></c>]: whichever
    is merged first takes the column [name], the other gets its dotted path,
    so the two orders give different columns and different records. *)
Lemma merge_order_changes_columns :
  ∃ rows1 hs1 rows2 hs2,
    merge_tables 1 [doc_b_name; doc_c_name] [] fresh_header = Some (rows1, hs1)
    ∧ merge_tables 1 [doc_c_name; doc_b_name] [] fresh_header = Some (rows2, hs2)
    ∧ header_order hs1 = ["name"; "c.name"]
    ∧ header_order hs2 = ["name"; "b.name"]
    ∧ rows1 = [[("name", "1")]; [("c.name", "3")]]
    ∧ rows2 = [[("name", "3")]; [("b.name", "1")]]
    ∧ ¬ (header_order hs1 ≡ₚ header_order hs2)
    ∧ ¬ (rows1 ≡ₚ rows2).
Proof.
  eexists _, _, _, _.
  split_and!; [vm_compute; reflexivity .. | |].
  - vm_compute. intros Hperm.
    assert ("c.name" ∈ ["name"; "b.name"]) as Hin
      by (rewrite <- Hperm; right; left).
    by repeat (apply elem_of_cons in Hin as [?|Hin]; [done |]);
      apply elem_of_nil in Hin.
  - vm_compute. intros Hperm.
    assert ([("c.name", "3")] ∈ [[("name", "3")]; [("b.name", "1")]]) as Hin
      by (rewrite <- Hperm; right; left).
    by repeat (apply elem_of_cons in Hin as [?|Hin]; [done |]);
      apply elem_of_nil in Hin.
Qed.

Lemma merge_order_independent_when_default_named_witness :
  ∃ rows2 hs2,
    merge_tables 1 [doc_y; doc_x] [] fresh_header = Some (rows2, hs2)
    ∧ header_paths hs2
      = header_paths (mkHeader ["x"; "y"] {[ "x" := ["b"; "x"]; "y" := ["s"; "y"] ]})
    ∧ header_order hs2
      ≡ₚ header_order (mkHeader ["x"; "y"] {[ "x" := ["b"; "x"]; "y" := ["s"; "y"] ]})
    ∧ [[("x", "1")]; [("x", "2")]; [("y", "3")]; [("y", "4")]]
      = concat (map (rows_alone 1) [doc_x; doc_y])
    ∧ rows2 = concat (map (rows_alone 1) [doc_y; doc_x]).
Proof.
  apply (merge_order_independent_when_default_named 1 [doc_x; doc_y] [doc_y; doc_x]
           [[("x", "1")]; [("x", "2")]; [("y", "3")]; [("y", "4")]]
           (mkHeader ["x"; "y"] {[ "x" := ["b"; "x"]; "y" := ["s"; "y"] ]})).
  - apply Permutation_swap.
  - vm_compute. reflexivity.
  - apply (bool_decide_unpack _). vm_compute. exact I.
Defined.

(** The column order does follow the order of the documents. *)
Example merge_order_changes_order :
  (header_order ∘ snd) <$> merge_tables 1 [doc_x; doc_y] [] fresh_header
  = Some ["x"; "y"]
  ∧ (header_order ∘ snd) <$> merge_tables 1 [doc_y; doc_x] [] fresh_header
    = Some ["y"; "x"].
Proof. split; vm_compute; reflexivity. Qed.

(** ** Where the program departs from the specification *)

(** C3 fails on the code.  In
    [<a><b><name>1</name><x><name>2</name></x></b>
        <b><name>3</name><x><name>4</name></x></b></a>]
    the leaf [b/x/name] gets the column [b.x.name] in the first row, since
    [name] is taken by [b/name].  In the second row the same leaf is not given
    [b.x.name] again: the dotted name is found in use, without a look at the
    path it is bound to, and the leaf gets the new column [b.x.name_2]. *)
Theorem same_leaf_renamed_in_next_row :
  leaf_column {[ "name" := ["b"; "name"]; "b.x.name" := ["b"; "x"; "name"] ]}
              ["b"; "x"; "name"]
  = "b.x.name_2"
  ∧ convert_xml_to_csv 1 doc_same_leaf_twice
    = Some (["name"; "b.x.name"; "b.x.name_2"], [["1"; "2"; ""]; ["3"; ""; "4"]]).
Proof. split; vm_compute; reflexivity. Qed.

(** C2 fails on the code.  In
    [<a><x><n>1</n></x><y><n>2</n></y><b><f>1</f></b><b><f>2</f></b></a>]
    the container leaves [a/x/n] and [a/y/n] are both filed under their last
    tag [n] by [build_container_values]: the value of the second replaces
    the value of the first, and the one column [n] is bound to the path
    [a/n], which is the path of neither. *)
Theorem container_leaves_share_column :
  iter_scalar_leaves doc_container_clash ∅ None
  = [(["a"; "x"; "n"], "1"); (["a"; "y"; "n"], "2")]
  ∧ build_container_values (Some doc_container_clash) "b" = [("n", "2")]
  ∧ convert_xml_to_csv 1 doc_container_clash
    = Some (["n"; "f"], [["2"; "1"]; ["2"; "2"]])
  ∧ (header_paths ∘ snd) <$> extract_table_from_file 1 doc_container_clash fresh_header
    = Some {[ "n" := ["a"; "n"]; "f" := ["b"; "f"] ]}.
Proof. split_and!; vm_compute; reflexivity. Qed.

(** * Further properties of the program *)

(** ** Tree adapter *)

Lemma setdefault_append_concat {A} (d : list (string * list A)) k v :
  concat (map snd (setdefault_append d k v)) ≡ₚ concat (map snd d) ++ [v].
Proof.
  induction d as [|[k0 vs] d IH]; simpl; [done |].
  case_decide; simpl.
  - rewrite <- !app_assoc. f_equiv. apply Permutation_app_comm.
  - by rewrite IH, app_assoc.
Qed.

Lemma group_fold_concat (cs : list Element) d :
  concat (map snd (fold_left (fun by_tag c => setdefault_append by_tag (tag c) c) cs d))
  ≡ₚ concat (map snd d) ++ cs.
Proof.
  revert d. induction cs as [|c cs IH]; intros d; simpl.
  - by rewrite app_nil_r.
  - rewrite IH, setdefault_append_concat, <- app_assoc. done.
Qed.

Lemma group_fold_first_seen (cs : list Element) d :
  map fst (fold_left (fun by_tag c => setdefault_append by_tag (tag c) c) cs d)
  = fold_left (fun seen t => if decide (t ∈ seen) then seen else seen ++ [t])
              (map tag cs) (map fst d).
Proof.
  revert d. induction cs as [|c cs IH]; intros d; simpl; [done |].
  by rewrite IH, keys_setdefault.
Qed.

Lemma get_children_by_tag_first_seen parent :
  map fst (get_children_by_tag parent) = first_seen (map tag (children parent)).
Proof. apply (group_fold_first_seen (children parent) []). Qed.

(** X1. [get_children_by_tag] partitions the children by tag: its keys are
    the distinct child tags in first-seen order, the entry of a tag lists
    the children bearing it in document order and is never empty, a tag no
    child bears has no entry, and the entries together hold every child
    once. *)
Theorem get_children_by_tag_partition (parent : Element) :
  map fst (get_children_by_tag parent) = first_seen (map tag (children parent))
  ∧ NoDup (map fst (get_children_by_tag parent))
  ∧ (∀ t siblings,
        (t, siblings) ∈ get_children_by_tag parent ↔
        siblings = filter (fun c => tag c = t) (children parent) ∧ siblings ≠ [])
  ∧ (∀ t, t ∉ map tag (children parent) →
          dict_get_list (get_children_by_tag parent) t = [])
  ∧ concat (map snd (get_children_by_tag parent)) ≡ₚ children parent.
Proof.
  split_and!.
  - apply get_children_by_tag_first_seen.
  - apply get_children_by_tag_NoDup.
  - intros t siblings. split; [apply get_children_by_tag_elem |].
    intros [-> Hne].
    assert (t ∈ map fst (get_children_by_tag parent)) as Ht.
    { apply get_children_by_tag_keys.
      destruct (filter (fun c => tag c = t) (children parent)) as [|c l] eqn:Hf;
        [done |].
      assert (c ∈ filter (fun c => tag c = t) (children parent)) as Hc
        by (rewrite Hf; left).
      apply list_elem_of_filter in Hc as [<- Hc].
      apply list_elem_of_fmap. by exists c. }
    apply list_elem_of_fmap in Ht as ([t' sibs] & Heq & Hin). simpl in Heq.
    subst t'. by pose proof (get_children_by_tag_elem _ _ _ Hin) as [<- _].
  - intros t Ht. rewrite get_children_by_tag_get. by apply filter_tag_absent.
  - apply (group_fold_concat (children parent) []).
Qed.

Lemma filter_tag_le_one_NoDup (cs : list Element) :
  (∀ t, length (filter (fun c => tag c = t) cs) ≤ 1) → NoDup (map tag cs).
Proof.
  induction cs as [|c cs IH]; intros Hall; simpl; [constructor |].
  apply NoDup_cons. split.
  - intros (c' & Htag & Hc')%list_elem_of_fmap.
    pose proof (filter_tag_two [] cs c c' Hc' (eq_sym Htag)) as Htwo.
    specialize (Hall (tag c)). simpl in Htwo. lia.
  - apply IH. intros t. specialize (Hall t). rewrite filter_cons in Hall.
    case_decide; simpl in Hall; lia.
Qed.

Lemma find_Some_first {A} (f : A → bool) (l : list A) x :
  List.find f l = Some x →
  ∃ before after, l = before ++ x :: after ∧ f x = true
                  ∧ Forall (fun y => f y = false) before.
Proof.
  induction l as [|a l IH]; simpl; [done |].
  destruct (f a) eqn:Ha.
  - intros ?; simplify_eq. by exists [], l.
  - intros (before & after & -> & Hx & Hbefore)%IH.
    exists (a :: before), after. split_and!; [done | done | by constructor].
Qed.

Lemma first_repeating_child_tag_None_NoDup parent :
  first_repeating_child_tag parent = None → NoDup (map tag (children parent)).
Proof.
  unfold first_repeating_child_tag. intros Hnone.
  destruct (List.find _ _) as [?|] eqn:Hfind; [done |].
  apply filter_tag_le_one_NoDup. intros t.
  destruct (decide (t ∈ map fst (get_children_by_tag parent))) as [Ht|Ht].
  - apply list_elem_of_fmap in Ht as ([t' sibs] & Heq & Hin). simpl in Heq.
    subst t'. pose proof (find_none _ _ Hfind (t, sibs)) as Hlen.
    apply list_elem_of_In in Hin as Hin'. apply Hlen, Nat.ltb_ge in Hin'.
    by apply get_children_by_tag_elem in Hin as [<- _].
  - rewrite get_children_by_tag_keys in Ht.
    rewrite filter_tag_absent by done. simpl. lia.
Qed.

(** X2. [first_repeating_child_tag] answers [None] exactly when the child
    tags are pairwise distinct.  When it answers a tag, at least two
    children bear it and every tag first seen before it is borne by one
    child only: it is the first repeating tag in first-seen order. *)
Theorem first_repeating_child_tag_spec (parent : Element) :
  (first_repeating_child_tag parent = None ↔ NoDup (map tag (children parent)))
  ∧ (∀ t, first_repeating_child_tag parent = Some t →
          2 ≤ length (filter (fun c => tag c = t) (children parent))
          ∧ ∃ before after,
              first_seen (map tag (children parent)) = before ++ t :: after
              ∧ ∀ t', t' ∈ before →
                      length (filter (fun c => tag c = t') (children parent)) = 1).
Proof.
  split.
  - split; [apply first_repeating_child_tag_None_NoDup
           | apply first_repeating_child_tag_None].
  - intros t Hfirst. split.
    { by apply first_repeating_child_tag_Some in Hfirst as (_ & _ & ?). }
    unfold first_repeating_child_tag in Hfirst.
    destruct (List.find _ _) as [[t' sibs]|] eqn:Hfind; [| done].
    simpl in Hfirst. simplify_eq.
    apply find_Some_first in Hfind as (before & after & Hsplit & _ & Hbefore).
    exists (map fst before), (map fst after). split.
    + by rewrite <- get_children_by_tag_first_seen, Hsplit, map_app.
    + intros t' ([t'' sibs'] & Heq & Hin)%list_elem_of_fmap. simpl in Heq.
      subst t''. rewrite Forall_forall in Hbefore.
      pose proof (Hbefore _ Hin) as Hlen. apply Nat.ltb_ge in Hlen.
      assert ((t', sibs') ∈ get_children_by_tag parent) as Hin'
        by (rewrite Hsplit; apply elem_of_app; by left).
      apply get_children_by_tag_elem in Hin' as [-> Hne].
      destruct (filter _ _) as [|? [|? ?]]; simpl in *; [done | done | lia].
Qed.

(** ** Row locator *)

Lemma no_repeating_child_tag_fold n :
  NoDup (map tag (children n)) →
  Forall (fun c => no_repeating_child_tag c = true) (children n) →
  no_repeating_child_tag n = true.
Proof.
  destruct n as [t x cs]. simpl. intros Hnd Hall.
  rewrite bool_decide_eq_true_2 by done. simpl.
  apply forallb_forall. intros c Hc%list_elem_of_In.
  rewrite Forall_forall in Hall. by apply Hall.
Qed.

(** The search falls through only on queues of nodes that are free of
    repeating child tags, all the way down. *)
Lemma bfs_loop_fallthrough fuel queue :
  bfs_loop fuel queue = Some None →
  Forall (fun n => no_repeating_child_tag n = true) queue.
Proof.
  revert queue. induction fuel as [|fuel IH]; intros [|parent queue] Hloop;
    simpl in Hloop; try done.
  destruct (first_repeating_child_tag parent) as [t|] eqn:Hfirst; [done |].
  apply IH, Forall_app in Hloop as [Hqueue Hchildren].
  constructor; [| done].
  by apply no_repeating_child_tag_fold;
    [apply first_repeating_child_tag_None_NoDup |].
Qed.

(** The queue of the search is what is left of a level of the tree,
    followed by the children of the part already visited; a non-empty queue
    can be read so that its head is a node of the level. *)
Lemma bfs_queue_head root k i parent queue :
  parent :: queue
  = drop i (level k root) ++ flat_map children (take i (level k root)) →
  (∀ k' n, k' < k → n ∈ level k' root → first_repeating_child_tag n = None) →
  (∀ i' n, i' < i → level k root !! i' = Some n →
           first_repeating_child_tag n = None) →
  ∃ k2 i2,
    level k2 root !! i2 = Some parent
    ∧ queue ++ children parent
      = drop (S i2) (level k2 root)
        ++ flat_map children (take (S i2) (level k2 root))
    ∧ (∀ k' n, k' < k2 → n ∈ level k' root → first_repeating_child_tag n = None)
    ∧ (∀ i' n, i' < i2 → level k2 root !! i' = Some n →
               first_repeating_child_tag n = None).
Proof.
  intros Hqueue Hlevels Hvisited.
  destruct (level k root !! i) as [n|] eqn:Hi.
  - exists k, i. rewrite (drop_S _ _ _ Hi) in Hqueue.
    injection Hqueue as <- ->. split_and!; [done | | done | done].
    rewrite (take_S_r _ _ _ Hi), flat_map_app. simpl.
    by rewrite app_nil_r, app_assoc.
  - apply lookup_ge_None_1 in Hi.
    rewrite drop_ge, take_ge in Hqueue by done. simpl in Hqueue.
    exists (S k), 0. simpl. rewrite <- Hqueue. simpl.
    split_and!; [done | by rewrite drop_0, app_nil_r | | intros; lia].
    intros k' n Hk' Hn. destruct (decide (k' = k)) as [->|Hne].
    + apply list_elem_of_lookup in Hn as [i' Hi'].
      apply (Hvisited i'); [| done]. apply lookup_lt_Some in Hi'. lia.
    + apply (Hlevels k'); [lia | done].
Qed.

(** The node the search returns is the first one, level by level and from
    left to right, that has a repeating child tag. *)
Lemma bfs_loop_found root fuel queue k i p t es :
  queue = drop i (level k root) ++ flat_map children (take i (level k root)) →
  (∀ k' n, k' < k → n ∈ level k' root → first_repeating_child_tag n = None) →
  (∀ i' n, i' < i → level k root !! i' = Some n →
           first_repeating_child_tag n = None) →
  bfs_loop fuel queue = Some (Some (p, t, es)) →
  first_repeating_child_tag p = Some t
  ∧ es = dict_get_list (get_children_by_tag p) t
  ∧ ∃ k2 i2,
      level k2 root !! i2 = Some p
      ∧ (∀ k' n, k' < k2 → n ∈ level k' root → first_repeating_child_tag n = None)
      ∧ (∀ i' n, i' < i2 → level k2 root !! i' = Some n →
                 first_repeating_child_tag n = None).
Proof.
  revert queue k i. induction fuel as [|fuel IH];
    intros [|parent queue] k i Hqueue Hlevels Hvisited Hloop;
    simpl in Hloop; try done.
  destruct (bfs_queue_head _ _ _ _ _ Hqueue Hlevels Hvisited)
    as (k2 & i2 & Hparent & Hnext & Hlevels2 & Hvisited2).
  destruct (first_repeating_child_tag parent) as [t'|] eqn:Hfirst.
  - simplify_eq. split_and!; [done | done |]. by exists k2, i2.
  - apply (IH (queue ++ children parent) k2 (S i2)); [done | done | | done].
    intros i' n Hi' Hn. destruct (decide (i' = i2)) as [->|Hne].
    + by simplify_eq.
    + apply (Hvisited2 i'); [lia | done].
Qed.

(** X3. [find_row_parent_and_tag] always returns.  It returns no row parent
    exactly when the tree has no repeating child tag at all, and then the
    root is the one row element.  Otherwise the row parent is the first node,
    level by level and from left to right, that has a repeating child tag,
    the row tag is its first repeating tag, and the row elements are its
    children bearing that tag, at least two, in document order. *)
Theorem find_row_parent_and_tag_spec (root : Element) :
  ∃ row_parent row_tag row_elements,
    find_row_parent_and_tag root = Some (row_parent, row_tag, row_elements)
    ∧ match row_parent with
      | None =>
          row_tag = tag root ∧ row_elements = [root]
          ∧ no_repeating_child_tag root = true
      | Some p =>
          no_repeating_child_tag root = false
          ∧ first_repeating_child_tag p = Some row_tag
          ∧ row_elements = filter (fun c => tag c = row_tag) (children p)
          ∧ 2 ≤ length row_elements
          ∧ ∃ k i,
              level k root !! i = Some p
              ∧ (∀ k' n, k' < k → n ∈ level k' root →
                         first_repeating_child_tag n = None)
              ∧ (∀ i' n, i' < i → level k root !! i' = Some n →
                         first_repeating_child_tag n = None)
      end.
Proof.
  unfold find_row_parent_and_tag.
  destruct (bfs_loop_total (node_count root) [root]) as [r Hloop]; [simpl; lia |].
  rewrite Hloop. destruct r as [[[p t] es]|].
  - exists (Some p), t, es. split; [done |].
    destruct (bfs_loop_found root (node_count root) [root] 0 0 p t es)
      as (Hfirst & -> & Hpos); [done | intros; lia | intros; lia | done |].
    destruct (first_repeating_child_tag_Some _ _ Hfirst) as (_ & Hget & Hlen).
    rewrite Hget. split_and!; try done.
    destruct (no_repeating_child_tag root) eqn:Hroot; [| done].
    by rewrite bfs_loop_no_repeat in Hloop;
      [| constructor | simpl; lia].
  - exists None, (tag root), [root]. split_and!; try done.
    apply bfs_loop_fallthrough in Hloop. by apply Forall_cons in Hloop as [? _].
Qed.

(** ** Group indexer *)

(** X4. [compute_repeating_group_keys] lists exactly the tags borne by at
    least two children, each with the key [parent_path + (tag,)] and the
    children bearing the tag; no key is listed twice, and the list is empty
    exactly when [first_repeating_child_tag] finds nothing. *)
Theorem compute_repeating_group_keys_spec (parent : Element) (parent_path : PathKey) :
  (∀ key t members,
      (key, t, members) ∈ compute_repeating_group_keys parent parent_path ↔
      key = parent_path ++ [t]
      ∧ members = filter (fun c => tag c = t) (children parent)
      ∧ 2 ≤ length members)
  ∧ NoDup (map (fun g : PathKey * string * list Element => g.1.1)
               (compute_repeating_group_keys parent parent_path))
  ∧ (compute_repeating_group_keys parent parent_path = [] ↔
     first_repeating_child_tag parent = None).
Proof.
  split_and!.
  - apply compute_repeating_group_keys_elem.
  - apply compute_repeating_group_keys_NoDup.
  - split.
    + intros Hnil. apply first_repeating_child_tag_None.
      apply filter_tag_le_one_NoDup. intros t.
      destruct (decide (2 ≤ length (filter (fun c => tag c = t) (children parent))))
        as [Hlen|Hlen]; [| lia].
      assert ((parent_path ++ [t], t, filter (fun c => tag c = t) (children parent))
              ∈ compute_repeating_group_keys parent parent_path) as Hin
        by by apply compute_repeating_group_keys_elem.
      rewrite Hnil in Hin. by apply elem_of_nil in Hin.
    + intros Hnone%first_repeating_child_tag_None_NoDup.
      destruct (compute_repeating_group_keys parent parent_path)
        as [|[[key t] members] l] eqn:Hkeys; [done |].
      assert ((key, t, members) ∈ compute_repeating_group_keys parent parent_path)
        as Hin by (rewrite Hkeys; left).
      apply compute_repeating_group_keys_elem in Hin as (_ & -> & Hlen).
      pose proof (filter_tag_NoDup_length (children parent) t Hnone). lia.
Qed.

(** X5. [find_next_unselected_repeating_group] returns a group reachable
    through singleton children whose key the selection lacks, and [None]
    only when the selection has every such key.  A group directly under the
    node is returned before any group of a descendant, and the default path
    prefix is the node's own tag. *)
Theorem find_next_unselected_repeating_group_spec (root : Element)
    (sel : Selection) (path : PathKey) :
  match find_next_unselected_repeating_group root sel (Some path) with
  | Some (key, members) =>
      sel !! key = None
      ∧ (key, members) ∈ reachable_groups root path
      ∧ 2 ≤ length members
      ∧ (∃ rest, rest ≠ [] ∧ key = path ++ rest)
      ∧ ((∃ k t m, (k, t, m) ∈ compute_repeating_group_keys root path
                   ∧ sel !! k = None) →
         ∃ t, key = path ++ [t]
              ∧ members = filter (fun c => tag c = t) (children root))
  | None =>
      ∀ key members, (key, members) ∈ reachable_groups root path → sel !! key ≠ None
  end
  ∧ find_next_unselected_repeating_group root sel None
    = find_next_unselected_repeating_group root sel (Some [tag root]).
Proof.
  split; [| apply find_next_default].
  rewrite find_next_unselected_repeating_group_head.
  destruct (head _) as [[key members]|] eqn:Hhead.
  - pose proof Hhead as Hin. apply head_Some_elem_of in Hin.
    apply list_elem_of_filter in Hin as [Hsel Hin]. simpl in Hsel.
    destruct (reachable_groups_elem _ _ _ _ Hin) as [Hrest Hlen].
    split_and!; try done.
    intros (k & t & m & Hk & Hselk).
    rewrite reachable_groups_unfold, filter_app in Hhead.
    assert ((k, m) ∈ filter (fun g : PathKey * list Element => sel !! g.1 = None)
              (map (fun g : PathKey * string * list Element => (g.1.1, g.2))
                   (compute_repeating_group_keys root path))) as Hfirst.
    { apply list_elem_of_filter. split; [done |].
      apply list_elem_of_fmap. by exists (k, t, m). }
    destruct (filter _ (map _ (compute_repeating_group_keys root path)))
      as [|g l] eqn:Hhere; [by apply elem_of_nil in Hfirst |].
    simpl in Hhead. simplify_eq.
    assert ((key, members)
            ∈ filter (fun g : PathKey * list Element => sel !! g.1 = None)
                (map (fun g : PathKey * string * list Element => (g.1.1, g.2))
                     (compute_repeating_group_keys root path))) as Hg
      by (rewrite Hhere; left).
    apply list_elem_of_filter in Hg as [_ Hg].
    apply reachable_groups_here in Hg as (t' & -> & -> & _). by exists t'.
  - apply head_None in Hhead. intros key members Hin Hsel.
    assert ((key, members)
            ∈ filter (fun g : PathKey * list Element => sel !! g.1 = None)
                (reachable_groups root path)) as Hf
      by by apply list_elem_of_filter.
    rewrite Hhead in Hf. by apply elem_of_nil in Hf.
Qed.

(** ** Selection expander *)

Lemma NoDup_flat_map_disjoint {A B} (f : A → list B) (l : list A) :
  NoDup l →
  (∀ x, x ∈ l → NoDup (f x)) →
  (∀ x y b, x ∈ l → y ∈ l → b ∈ f x → b ∈ f y → x = y) →
  NoDup (flat_map f l).
Proof.
  induction 1 as [|x l Hx Hl IH]; intros Hf Hdisj; simpl; [constructor |].
  apply NoDup_app. split_and!.
  - apply Hf. left.
  - intros b Hb (y & Hy & Hby)%list_elem_of_In%in_flat_map.
    apply list_elem_of_In in Hy, Hby.
    assert (x = y) as -> by (eapply Hdisj; [left | by right | done | done]).
    done.
  - apply IH.
    + intros y Hy. apply Hf. by right.
    + intros y z b Hy Hz. apply Hdisj; by right.
Qed.

Lemma cartesian_lookup (groups : list (PathKey * list Element))
    (sel sel' : Selection) :
  NoDup (map fst groups) → sel' ∈ cartesian groups sel →
  (∀ key members, (key, members) ∈ groups →
      ∃ idx, idx < length members ∧ sel' !! key = Some (Z.of_nat idx))
  ∧ (∀ key, key ∉ map fst groups → sel' !! key = sel !! key).
Proof.
  revert sel. induction groups as [|[k0 m0] groups IH]; intros sel Hnd Hin; simpl in *.
  - apply list_elem_of_singleton in Hin as ->. split; [| done].
    by intros ?? ?%elem_of_nil.
  - apply NoDup_cons in Hnd as [Hk0 Hnd].
    apply list_elem_of_In, in_flat_map in Hin as (idx & Hidx & Hin).
    apply list_elem_of_In in Hidx, Hin.
    apply elem_of_reverse, elem_of_seq in Hidx.
    destruct (IH _ Hnd Hin) as [Hgroups Hother]. split.
    + intros key members [Heq|Hrest]%elem_of_cons; [| by apply Hgroups].
      simplify_eq. exists idx. split; [lia |].
      by rewrite Hother, lookup_insert_eq.
    + intros key Hkey. rewrite Hother by (intros ?; apply Hkey; by right).
      rewrite lookup_insert_ne; [done |]. intros ->. apply Hkey. left.
Qed.

Lemma cartesian_NoDup (groups : list (PathKey * list Element)) (sel : Selection) :
  NoDup (map fst groups) → NoDup (cartesian groups sel).
Proof.
  revert sel. induction groups as [|[k0 m0] groups IH]; intros sel Hnd; simpl.
  - apply NoDup_singleton.
  - apply NoDup_cons in Hnd as [Hk0 Hnd]. apply NoDup_flat_map_disjoint.
    + rewrite reverse_Permutation. apply NoDup_seq.
    + intros idx _. by apply IH.
    + intros i j sel' _ _ Hi Hj.
      apply (cartesian_lookup _ _ _ Hnd) in Hi as [_ Hi], Hj as [_ Hj].
      specialize (Hi k0 Hk0). specialize (Hj k0 Hk0).
      rewrite lookup_insert_eq in Hi, Hj. rewrite Hi in Hj. simplify_eq. lia.
Qed.

(** X6. The selections the expansion loop finalizes are pairwise distinct;
    each gives every nested group of the row element an index within the
    group, has no other key, and leaves the group search nothing to find. *)
Theorem expand_loop_selections_complete (fuel : nat) (row_elem : Element) :
  expansion_steps (nested_groups row_elem) ≤ fuel →
  ∃ finalized,
    expand_loop fuel row_elem [∅] [] = Some finalized
    ∧ NoDup finalized
    ∧ ∀ sel : Selection, sel ∈ finalized →
        (∀ key members, (key, members) ∈ nested_groups row_elem →
            ∃ idx, idx < length members ∧ sel !! key = Some (Z.of_nat idx))
        ∧ (∀ key, sel !! key ≠ None → key ∈ map fst (nested_groups row_elem))
        ∧ find_next_unselected_repeating_group row_elem sel None = None.
Proof.
  intros Hfuel. exists (cartesian (nested_groups row_elem) ∅).
  pose proof (reachable_groups_NoDup row_elem [tag row_elem]) as Hnd.
  split_and!; [by apply expand_loop_start | by apply cartesian_NoDup |].
  intros sel Hsel. destruct (cartesian_lookup _ _ _ Hnd Hsel) as [Hgroups Hother].
  split_and!; [done | |].
  - intros key Hkey.
    destruct (decide (key ∈ map fst (nested_groups row_elem))); [done |].
    by rewrite Hother, lookup_empty in Hkey.
  - rewrite find_next_unresolved. apply head_None. unfold unresolved.
    destruct (filter _ _) as [|[key members] l] eqn:Hf; [done |].
    assert ((key, members)
            ∈ filter (fun g : PathKey * list Element => sel !! g.1 = None)
                (nested_groups row_elem)) as Hin by (rewrite Hf; left).
    apply list_elem_of_filter in Hin as [Hnone Hin]. simpl in Hnone.
    destruct (Hgroups _ _ Hin) as (idx & _ & Hidx). by rewrite Hidx in Hnone.
Qed.

(** ** Leaf collector *)

Lemma setdefault_append_fresh {A} (d : list (string * list A)) k v :
  k ∉ map fst d → setdefault_append d k v = d ++ [(k, [v])].
Proof.
  induction d as [|[k0 vs] d IH]; simpl; intros Hk; [done |].
  case_decide as Heq.
  - exfalso. apply Hk. rewrite Heq. left.
  - rewrite IH; [done |]. intros ?. apply Hk. by right.
Qed.

Lemma group_fold_singletons (cs : list Element) d :
  NoDup (map tag cs) → (∀ c, c ∈ cs → tag c ∉ map fst d) →
  fold_left (fun by_tag c => setdefault_append by_tag (tag c) c) cs d
  = d ++ map (fun c => (tag c, [c])) cs.
Proof.
  revert d. induction cs as [|c cs IH]; intros d Hnd Hfresh; simpl.
  - by rewrite app_nil_r.
  - apply NoDup_cons in Hnd as [Hc Hnd].
    rewrite setdefault_append_fresh by (apply Hfresh; left).
    rewrite IH; [by rewrite <- app_assoc | done |].
    intros c' Hc'. rewrite map_app, elem_of_app. simpl.
    intros [Hd|Heq%list_elem_of_singleton].
    + by apply (Hfresh c'); [right |].
    + apply Hc. rewrite <- Heq. apply list_elem_of_fmap. by exists c'.
Qed.

(** With pairwise distinct child tags every child is a group of its own. *)
Lemma get_children_by_tag_singletons parent :
  NoDup (map tag (children parent)) →
  get_children_by_tag parent = map (fun c => (tag c, [c])) (children parent).
Proof.
  intros Hnd. unfold get_children_by_tag.
  rewrite group_fold_singletons; [done | done |].
  intros c _. simpl. apply not_elem_of_nil.
Qed.

Lemma all_leaves_unfold node path :
  all_leaves node path
  = match children node with
    | [] => [(path, strip (default "" (text node)))]
    | _ => flat_map (fun c => all_leaves c (path ++ [tag c])) (children node)
    end.
Proof. by destruct node. Qed.

(** X7. On a subtree without repeating child tag the selection plays no
    part: [iter_scalar_leaves] yields every leaf of the subtree once, in
    document order, each with the path of tags leading to it and its
    trimmed text. *)
Theorem iter_scalar_leaves_no_repeat (node : Element) (sel : Selection)
    (path : option PathKey) :
  no_repeating_child_tag node = true →
  iter_scalar_leaves node sel path = all_leaves node (default [tag node] path).
Proof.
  revert path. induction node as [t x cs IH] using Element_ind.
  intros path Hnode. rewrite iter_scalar_leaves_unfold, all_leaves_unfold.
  apply no_repeating_child_tag_unfold in Hnode as [Hnd Hcs]. cbv zeta.
  rewrite get_children_by_tag_singletons by done.
  cbn [children tag text] in *. destruct cs as [|c0 cs0]; [done |].
  rewrite flat_map_concat_map, map_map, <- flat_map_concat_map.
  apply flat_map_ext_elem. intros c Hc. simpl.
  rewrite Forall_forall in IH, Hcs. by rewrite IH by auto.
Qed.

Lemma iter_scalar_leaves_prefix (node : Element) (sel : Selection)
    (path : option PathKey) (p : PathKey) (txt : string) :
  (p, txt) ∈ iter_scalar_leaves node sel path →
  ∃ rest, p = default [tag node] path ++ rest.
Proof. apply iter_scalar_leaves_depth_path. Qed.

(** The leaves yielded for one entry of the tag grouping. *)
Lemma iter_scalar_leaves_elem (node : Element) (sel : Selection)
    (path : option PathKey) (p : PathKey) (txt : string) :
  children node ≠ [] →
  (p, txt) ∈ iter_scalar_leaves node sel path ↔
  ∃ t siblings,
    (t, siblings) ∈ get_children_by_tag node
    ∧ if 1 <? length siblings then
        ∃ idx s, sel !! (default [tag node] path ++ [t]) = Some idx
                 ∧ (0 ≤ idx < Z.of_nat (length siblings))%Z
                 ∧ siblings !! Z.to_nat idx = Some s
                 ∧ (p, txt) ∈ iter_scalar_leaves s sel
                                (Some (default [tag node] path ++ [t]))
      else
        ∃ s, head siblings = Some s
             ∧ (p, txt) ∈ iter_scalar_leaves s sel
                            (Some (default [tag node] path ++ [t])).
Proof.
  intros Hcs. rewrite iter_scalar_leaves_unfold. cbv zeta.
  destruct (children node) as [|c0 cs0]; [done |].
  rewrite list_elem_of_In, in_flat_map. split.
  - intros ([t siblings] & Hin%list_elem_of_In & Hp%list_elem_of_In).
    exists t, siblings. split; [done |].
    destruct (1 <? length siblings).
    + destruct (sel !! _) as [idx|]; [| by apply elem_of_nil in Hp].
      destruct (_ && _)%bool eqn:Hrange; [| by apply elem_of_nil in Hp].
      destruct (siblings !! Z.to_nat idx) as [s|] eqn:Hs;
        [| by apply elem_of_nil in Hp].
      exists idx, s. split_and!; try done; lia.
    + destruct siblings as [|s ?]; [by apply elem_of_nil in Hp |]. by exists s.
  - intros (t & siblings & Hin & Hp). exists (t, siblings).
    split; [by apply list_elem_of_In |]. apply list_elem_of_In.
    destruct (1 <? length siblings).
    + destruct Hp as (idx & s & -> & Hrange & -> & Hp).
      destruct (_ && _)%bool eqn:Hb; [done | lia].
    + destruct Hp as (s & Hs & Hp). destruct siblings; simpl in Hs; by simplify_eq.
Qed.

Lemma iter_scalar_leaves_NoDup (node : Element) (sel : Selection)
    (path : option PathKey) :
  NoDup (map fst (iter_scalar_leaves node sel path)).
Proof.
  revert path. induction node as [t x cs IH] using Element_ind. intros path.
  rewrite iter_scalar_leaves_unfold. cbv zeta.
  destruct (children (Elem t x cs)) as [|c0 cs0] eqn:Hchildren;
    [apply NoDup_singleton |].
  rewrite flat_map_concat_map, concat_map, map_map, <- flat_map_concat_map.
  assert (∀ t' siblings s, (t', siblings) ∈ get_children_by_tag (Elem t x cs) →
            s ∈ siblings →
            ∀ path', NoDup (map fst (iter_scalar_leaves s sel path'))) as Hrec.
  { intros t' siblings s Hin Hs.
    apply (get_children_by_tag_member _ _ _ _ Hin) in Hs as [Hs _].
    rewrite Forall_forall in IH. by apply IH. }
  apply NoDup_flat_map_disjoint.
  - eapply NoDup_fmap_1, get_children_by_tag_NoDup.
  - intros [t' siblings] Hin. destruct (1 <? length siblings).
    + destruct (sel !! _) as [idx|]; [| constructor].
      destruct (_ && _)%bool; [| constructor].
      destruct (siblings !! Z.to_nat idx) as [s|] eqn:Hs; [| constructor].
      eapply Hrec; [done |]. by eapply list_elem_of_lookup_2.
    + destruct siblings as [|s ?]; [constructor |].
      eapply Hrec; [done | left].
  - assert (∀ t' siblings p,
              p ∈ map fst
                  (let next_path := default [t] path ++ [t'] in
                   if 1 <? length siblings then
                     match sel !! next_path with
                     | Some idx =>
                         if ((0 <=? idx) && (idx <? Z.of_nat (length siblings)))%Z
                         then match siblings !! Z.to_nat idx with
                              | Some s => iter_scalar_leaves s sel (Some next_path)
                              | None => []
                              end
                         else []
                     | None => []
                     end
                   else match siblings with
                        | s :: _ => iter_scalar_leaves s sel (Some next_path)
                        | [] => []
                        end) →
              ∃ rest, p = default [t] path ++ t' :: rest) as Hkey.
    { intros t' siblings p ([p' txt] & -> & Hp)%list_elem_of_fmap. cbv zeta in Hp.
      assert (∀ s, (p', txt) ∈ iter_scalar_leaves s sel
                                 (Some (default [t] path ++ [t'])) →
                   ∃ rest, p' = default [t] path ++ t' :: rest) as Hs.
      { intros s (rest & ->)%iter_scalar_leaves_prefix. exists rest.
        simpl. by rewrite <- app_assoc. }
      destruct (1 <? length siblings).
      - destruct (sel !! _) as [idx|]; [| by apply elem_of_nil in Hp].
        destruct (_ && _)%bool; [| by apply elem_of_nil in Hp].
        destruct (siblings !! Z.to_nat idx) as [s|];
          [by apply (Hs s) | by apply elem_of_nil in Hp].
      - destruct siblings as [|s ?]; [by apply elem_of_nil in Hp | by apply (Hs s)]. }
    intros [t1 sibs1] [t2 sibs2] p Hin1 Hin2 Hp1 Hp2. simpl in Hp1, Hp2.
    apply Hkey in Hp1 as (rest1 & ->), Hp2 as (rest2 & Heq).
    apply app_inv_head in Heq. simplify_eq.
    f_equal. transitivity (dict_get_list (get_children_by_tag (Elem t x cs)) t2).
    + symmetry. by apply dict_get_list_elem; [apply get_children_by_tag_NoDup |].
    + by apply dict_get_list_elem; [apply get_children_by_tag_NoDup |].
Qed.

(** X8. Whatever the selection, [iter_scalar_leaves] yields no path twice,
    and every path it yields extends the path of the node it started at. *)
Theorem iter_scalar_leaves_paths_NoDup (node : Element) (sel : Selection)
    (path : option PathKey) :
  NoDup (map fst (iter_scalar_leaves node sel path))
  ∧ ∀ p txt, (p, txt) ∈ iter_scalar_leaves node sel path →
             default [tag node] path `prefix_of` p.
Proof.
  split; [apply iter_scalar_leaves_NoDup |].
  intros p txt (rest & ->)%iter_scalar_leaves_prefix. by apply prefix_app_r.
Qed.

(** X9. Below a repeating group, [iter_scalar_leaves] yields the leaves of
    the member the selection names, and nothing else: nothing at all when
    the selection lacks the group's key or holds an index outside the
    group. *)
Theorem iter_scalar_leaves_selected_member (node : Element) (sel : Selection)
    (path : option PathKey) (t : string) (siblings : list Element)
    (p : PathKey) (txt : string) :
  (t, siblings) ∈ get_children_by_tag node → 2 ≤ length siblings →
  ((p, txt) ∈ iter_scalar_leaves node sel path
   ∧ (default [tag node] path ++ [t]) `prefix_of` p)
  ↔ ∃ idx s, sel !! (default [tag node] path ++ [t]) = Some idx
             ∧ (0 ≤ idx < Z.of_nat (length siblings))%Z
             ∧ siblings !! Z.to_nat idx = Some s
             ∧ (p, txt) ∈ iter_scalar_leaves s sel
                            (Some (default [tag node] path ++ [t])).
Proof.
  intros Hin Hlen.
  assert (children node ≠ []) as Hcs.
  { apply get_children_by_tag_elem in Hin as [-> Hne].
    intros Hnil. by rewrite Hnil in Hne. }
  rewrite (iter_scalar_leaves_elem _ _ _ _ _ Hcs). split.
  - intros [(t' & siblings' & Hin' & Hp) Hprefix].
    assert (∀ s, (p, txt) ∈ iter_scalar_leaves s sel
                               (Some (default [tag node] path ++ [t'])) → t' = t)
      as Hsame.
    { intros s (rest & ->)%iter_scalar_leaves_prefix.
      destruct Hprefix as [rest' Heq]. simpl in Heq.
      rewrite <- !app_assoc in Heq. apply app_inv_head in Heq. by simplify_eq. }
    assert (t' = t) as ->.
    { destruct (1 <? length siblings').
      - destruct Hp as (? & s & _ & _ & _ & Hp). by apply (Hsame s).
      - destruct Hp as (s & _ & Hp). by apply (Hsame s). }
    assert (siblings' = siblings) as ->.
    { transitivity (dict_get_list (get_children_by_tag node) t).
      - symmetry. by apply dict_get_list_elem; [apply get_children_by_tag_NoDup |].
      - by apply dict_get_list_elem; [apply get_children_by_tag_NoDup |]. }
    apply Nat.ltb_lt in Hlen as Hb. by rewrite Hb in Hp.
  - intros (idx & s & Hsel & Hrange & Hs & Hp). split.
    + exists t, siblings. split; [done |].
      apply Nat.ltb_lt in Hlen as Hb. rewrite Hb. by exists idx, s.
    + apply iter_scalar_leaves_prefix in Hp as (rest & ->). by apply prefix_app_r.
Qed.

(** ** Container values *)

Lemma container_value_step_eq row_parent row_tag values leaf :
  container_value_step row_parent row_tag values leaf
  = if decide (container_leaf_kept row_parent row_tag leaf)
    then od_set values (path_last leaf.1) leaf.2 else values.
Proof.
  destruct leaf as [path text]. unfold container_value_step, container_leaf_kept.
  simpl. repeat case_bool_decide; simpl; repeat case_decide; try done; tauto.
Qed.

Lemma od_get_None (d : odict) k : od_get d k = None ↔ k ∉ map fst d.
Proof.
  induction d as [|[k0 v0] d IH]; simpl.
  - split; [intros _; apply not_elem_of_nil | done].
  - case_decide as Heq.
    + subst. split; [done |]. intros H. exfalso. apply H. left.
    + rewrite IH, not_elem_of_cons. split; [by intros ?; split |].
      by intros [_ ?].
Qed.

Lemma od_set_NoDup (d : odict) k v :
  NoDup (map fst d) → NoDup (map fst (od_set d k v)).
Proof.
  induction d as [|[k0 v0] d IH]; simpl; intros Hnd.
  - apply NoDup_singleton.
  - apply NoDup_cons in Hnd as [Hk0 Hnd]. case_decide; simpl.
    + by apply NoDup_cons.
    + apply NoDup_cons. split; [| by apply IH].
      rewrite <- od_get_None in *. by rewrite od_get_set, decide_False.
Qed.

Lemma od_set_elem (d : odict) k v k' v' :
  (k', v') ∈ od_set d k v → (k', v') = (k, v) ∨ (k', v') ∈ d.
Proof.
  induction d as [|[k0 v0] d IH]; simpl.
  - intros ?%list_elem_of_singleton. by left.
  - case_decide; intros [?|?]%elem_of_cons; simplify_eq.
    + by left.
    + right. by right.
    + right. left.
    + destruct (IH H0) as [?|?]; [by left | right; by right].
Qed.

Lemma container_fold_untouched row_parent row_tag leaves values k :
  (∀ leaf, leaf ∈ leaves → container_leaf_kept row_parent row_tag leaf →
           path_last leaf.1 ≠ k) →
  od_get (fold_left (container_value_step row_parent row_tag) leaves values) k
  = od_get values k.
Proof.
  revert values. induction leaves as [|leaf leaves IH]; intros values Hother;
    cbn [fold_left]; [done |].
  rewrite IH by (intros; apply Hother; [by right | done]).
  rewrite container_value_step_eq. case_decide as Hkept; [| done].
  rewrite od_get_set, decide_False; [done |]. apply Hother; [left | done].
Qed.

(** X10. [build_container_values] files the text of every leaf it keeps
    (a leaf with text, reached from the row parent through singleton
    children, outside the row tag) under the leaf's last tag, one entry per
    tag; when several kept leaves end in the same tag, the entry holds the
    text of the last of them. *)
Theorem build_container_values_spec (row_parent : Element) (row_tag : string) :
  let leaves := iter_scalar_leaves row_parent ∅ None in
  let values := build_container_values (Some row_parent) row_tag in
  NoDup (map fst values)
  ∧ (∀ k v, (k, v) ∈ values →
        v ≠ ""
        ∧ ∃ path, (path, v) ∈ leaves
                  ∧ container_leaf_kept row_parent row_tag (path, v)
                  ∧ path_last path = k)
  ∧ (∀ before path v after,
        leaves = before ++ (path, v) :: after →
        container_leaf_kept row_parent row_tag (path, v) →
        (∀ leaf, leaf ∈ after → container_leaf_kept row_parent row_tag leaf →
                 path_last leaf.1 ≠ path_last path) →
        od_get values (path_last path) = Some v).
Proof.
  intros leaves values. subst values. simpl. fold leaves. split_and!.
  - apply (fold_left_invariant (fun d : odict => NoDup (map fst d)));
      [constructor |].
    intros d leaf Hd _. rewrite container_value_step_eq.
    case_decide; [by apply od_set_NoDup | done].
  - assert (∀ l (d : odict) k v,
              (k, v) ∈ fold_left (container_value_step row_parent row_tag) l d →
              (k, v) ∈ d
              ∨ ∃ path, (path, v) ∈ l
                        ∧ container_leaf_kept row_parent row_tag (path, v)
                        ∧ path_last path = k) as Hfold.
    { induction l as [|[path text] l IH]; intros d k v Hin; cbn [fold_left] in Hin;
        [by left |].
      apply IH in Hin as [Hin|(path' & Hin & Hkept & Hlast)].
      - rewrite container_value_step_eq in Hin. case_decide as Hkept; [| by left].
        apply od_set_elem in Hin as [Heq|Hin]; [| by left].
        simpl in Heq. simplify_eq. right. exists path. split; [left | done].
      - right. exists path'. split; [by right | done]. }
    intros k v Hin. apply Hfold in Hin as [Hin|(path & Hin & Hkept & Hlast)];
      [by apply elem_of_nil in Hin |].
    split; [apply Hkept | by exists path].
  - intros before path v after Hsplit Hkept Hlast.
    rewrite Hsplit, fold_left_app. cbn [fold_left].
    rewrite container_fold_untouched by done.
    rewrite container_value_step_eq, decide_True by done. simpl.
    by rewrite od_get_set, decide_True.
Qed.

(** ** Column namer *)

(** X11. The name [disambiguate_column_name] returns is never one in use.
    It is the candidate when that is free, else the dotted path when that
    is free, else the dotted path with the smallest suffix [_i], [i >= 2],
    that is free. *)
Theorem disambiguate_column_name_spec (candidate : string) (full_path : PathKey)
    (existing : gmap string (list string)) :
  let name := disambiguate_column_name candidate full_path existing in
  existing !! name = None
  ∧ (existing !! candidate = None → name = candidate)
  ∧ (existing !! candidate ≠ None → existing !! join_dot full_path = None →
     name = join_dot full_path)
  ∧ (existing !! candidate ≠ None → existing !! join_dot full_path ≠ None →
     ∃ i, 2 ≤ i ∧ name = suffixed (join_dot full_path) i
          ∧ ∀ j, 2 ≤ j < i → existing !! suffixed (join_dot full_path) j ≠ None).
Proof.
  cbv zeta. split_and!.
  - destruct (decide (existing !! candidate = None)) as [Hfree|Hused].
    + by rewrite disambiguate_column_name_unused.
    + by apply disambiguate_column_name_fresh.
  - apply disambiguate_column_name_unused.
  - intros Hused Hdotted. unfold disambiguate_column_name.
    by rewrite decide_False, decide_True.
  - intros Hused Hdotted. unfold disambiguate_column_name.
    rewrite !decide_False by done.
    destruct (suffix_loop_total (join_dot full_path) existing 2) as [alt Halt].
    rewrite Halt. simpl.
    apply suffix_loop_Some in Halt as (_ & i & Hi & -> & Hmin). by exists i.
Qed.

(** ** Header state *)

Lemma header_prefix_closed (order : list string) :
  header_closed (fun hs => order `prefix_of` header_order hs).
Proof.
  intros col full_path hs Hprefix. rewrite register_column_order.
  by apply prefix_app_r.
Qed.

Lemma register_column_bound col full_path hs :
  header_paths (register_column col full_path hs) !! col ≠ None.
Proof.
  rewrite register_column_paths. case_decide as Hcol; [| done].
  by rewrite lookup_insert_eq.
Qed.

Lemma header_paths_bound_mono (hs hs' : HeaderState) col :
  header_paths hs ⊆ header_paths hs' →
  header_paths hs !! col ≠ None → header_paths hs' !! col ≠ None.
Proof.
  intros Hsub Hcol. destruct (header_paths hs !! col) as [p|] eqn:Hp; [| done].
  by rewrite (lookup_weaken _ _ _ _ Hp Hsub).
Qed.

(** Every column of the record is bound in the header. *)
Lemma leaf_step_keys_bound row_parent row_tag st leaf :
  (∀ col, od_get st.1 col ≠ None → header_paths st.2 !! col ≠ None) →
  ∀ col, od_get (leaf_step row_parent row_tag st leaf).1 col ≠ None →
         header_paths (leaf_step row_parent row_tag st leaf).2 !! col ≠ None.
Proof.
  destruct st as [row_map hs], leaf as [path text]. rewrite leaf_step_eq.
  case_decide; [done |]. simpl. intros Hbound col. rewrite od_get_set.
  case_decide as Hcol; [subst; intros _; apply register_column_bound |].
  intros Hget%Hbound. eapply header_paths_bound_mono; [| done].
  by apply (header_grows_closed hs).
Qed.

Lemma container_step_keys_bound row_parent st item :
  (∀ col, od_get st.1 col ≠ None → header_paths st.2 !! col ≠ None) →
  ∀ col, od_get (container_step row_parent st item).1 col ≠ None →
         header_paths (container_step row_parent st item).2 !! col ≠ None.
Proof.
  destruct st as [row_map hs], item as [candidate_name value].
  unfold container_step. simpl.
  set (col0 := if _ : bool then _ else candidate_name).
  set (full_path := match row_parent with Some _ => _ | None => _ end).
  intros Hbound col Hget.
  destruct (decide (col = col0)) as [->|Hne]; [apply register_column_bound |].
  eapply header_paths_bound_mono; [by apply (header_grows_closed hs) |].
  apply Hbound. destruct (od_get row_map col0); [done |].
  by rewrite od_get_set, decide_False in Hget.
Qed.

Lemma build_row_keys_bound row_elem row_parent row_tag container_values hs sel :
  ∀ col, od_get (build_row row_elem row_parent row_tag container_values hs sel).1 col
           ≠ None →
         header_paths (build_row row_elem row_parent row_tag container_values hs sel).2
           !! col ≠ None.
Proof.
  unfold build_row, add_row_values, seed_container_values.
  apply (fold_left_invariant
           (fun st : odict * HeaderState =>
              ∀ col, od_get st.1 col ≠ None → header_paths st.2 !! col ≠ None)).
  - apply (fold_left_invariant
             (fun st : odict * HeaderState =>
                ∀ col, od_get st.1 col ≠ None → header_paths st.2 !! col ≠ None));
      [done |].
    intros st item Hst _. by apply container_step_keys_bound.
  - intros st leaf Hst _. by apply leaf_step_keys_bound.
Qed.

(** The rows of a row element use bound columns only. *)
Lemma rows_fold_keys_bound row_elem row_parent row_tag container_values sels st :
  Forall (fun row : odict =>
            ∀ col, od_get row col ≠ None → header_paths st.2 !! col ≠ None) st.1 →
  let st' := fold_left (row_step row_elem row_parent row_tag container_values)
                       sels st in
  Forall (fun row : odict =>
            ∀ col, od_get row col ≠ None → header_paths st'.2 !! col ≠ None) st'.1.
Proof.
  revert st. induction sels as [|sel sels IH]; intros [rows hs] Hrows; simpl;
    [done |].
  pose proof (build_row_keys_bound row_elem row_parent row_tag container_values
                hs sel) as Hrow.
  pose proof (build_row_closed _ (header_grows_closed hs) row_elem row_parent
                row_tag container_values hs sel (reflexivity _)) as Hgrow.
  destruct (build_row _ _ _ _ _ _) as [row_map hs1]. simpl in *.
  apply IH. simpl. apply Forall_app. split; [| by constructor].
  eapply Forall_impl; [done |]. intros row Hrow' col Hcol.
  apply (header_paths_bound_mono hs); [exact Hgrow | by apply Hrow'].
Qed.

Lemma extract_rows_for_element_keys_bound fuel row_elem row_parent row_tag
    hs rows hs' :
  extract_rows_for_element fuel row_elem row_parent row_tag hs = Some (rows, hs') →
  Forall (fun row : odict =>
            ∀ col, od_get row col ≠ None → header_paths hs' !! col ≠ None) rows.
Proof.
  unfold extract_rows_for_element. intros Hex.
  destruct (expand_loop _ _ _ _) as [finalized|]; [| done]. simpl in Hex.
  injection Hex as Hex.
  pose proof (rows_fold_keys_bound row_elem row_parent row_tag
                (build_container_values row_parent row_tag) finalized ([], hs)
                (Forall_nil_2 _)) as Hfold.
  simpl in Hfold. by rewrite Hex in Hfold.
Qed.

(** X12. An extraction only adds to the header: the columns listed before
    stay listed first and in the same order, a bound column keeps its path,
    a header that lists each bound column once still does so afterwards, and
    every column of every returned row is bound in the header afterwards. *)
Theorem extract_rows_for_element_header (fuel : nat) (row_elem : Element)
    (row_parent : option Element) (row_tag : string) (hs : HeaderState)
    (rows : list odict) (hs' : HeaderState) :
  extract_rows_for_element fuel row_elem row_parent row_tag hs = Some (rows, hs') →
  header_order hs `prefix_of` header_order hs'
  ∧ header_paths hs ⊆ header_paths hs'
  ∧ (header_wf hs → header_wf hs')
  ∧ ∀ row col, row ∈ rows → od_get row col ≠ None →
               header_paths hs' !! col ≠ None.
Proof.
  intros Hex. split_and!.
  - by apply (extract_rows_for_element_closed _ (header_prefix_closed _)
                _ _ _ _ _ _ _ Hex).
  - by apply (extract_rows_for_element_closed _ (header_grows_closed hs)
                _ _ _ _ _ _ _ Hex).
  - by apply (extract_rows_for_element_closed _ header_wf_closed
                _ _ _ _ _ _ _ Hex).
  - intros row col Hrow.
    pose proof (extract_rows_for_element_keys_bound _ _ _ _ _ _ _ Hex) as Hall.
    rewrite Forall_forall in Hall. by apply Hall.
Qed.

(** ** Whole tables *)

Lemma extract_all_rows fuel row_elements row_parent row_tag rows0 hs rows hs' :
  extract_all fuel row_elements row_parent row_tag rows0 hs = Some (rows, hs') →
  Forall (fun row : odict =>
            ∀ col, od_get row col ≠ None → header_paths hs !! col ≠ None) rows0 →
  rows0 `prefix_of` rows
  ∧ Forall (fun row : odict =>
              ∀ col, od_get row col ≠ None → header_paths hs' !! col ≠ None) rows.
Proof.
  revert rows0 hs. induction row_elements as [|row_elem rest IH];
    intros rows0 hs Hex Hrows0; simpl in Hex; [by simplify_eq |].
  destruct (extract_rows_for_element _ _ _ _ _) as [[extracted hs1]|] eqn:Hrow;
    [| done].
  simpl in Hex.
  pose proof (extract_rows_for_element_keys_bound _ _ _ _ _ _ _ Hrow) as Hnew.
  pose proof (extract_rows_for_element_closed _ (header_grows_closed hs)
                _ _ _ _ _ _ _ Hrow (reflexivity _)) as Hgrow.
  destruct (IH _ _ Hex) as [Hprefix Hall].
  - apply Forall_app. split; [| done]. eapply Forall_impl; [done |].
    intros row Hrow' col Hcol.
    apply (header_paths_bound_mono hs); [exact Hgrow | by apply Hrow'].
  - split; [| done]. etrans; [| done]. by apply prefix_app_r.
Qed.

Lemma merge_tables_rows fuel inputs rows0 hs rows hs' :
  merge_tables fuel inputs rows0 hs = Some (rows, hs') →
  Forall (fun row : odict =>
            ∀ col, od_get row col ≠ None → header_paths hs !! col ≠ None) rows0 →
  rows0 `prefix_of` rows
  ∧ Forall (fun row : odict =>
              ∀ col, od_get row col ≠ None → header_paths hs' !! col ≠ None) rows.
Proof.
  revert rows0 hs. induction inputs as [|root rest IH];
    intros rows0 hs Hm Hrows0; simpl in Hm; [by simplify_eq |].
  destruct (extract_table_from_file _ _ _) as [[rows1 hs1]|] eqn:Htab; [| done].
  simpl in Hm.
  pose proof (extract_table_closed _ (header_grows_closed hs)
                _ _ _ _ _ Htab (reflexivity _)) as Hgrow.
  unfold extract_table_from_file in Htab.
  destruct (find_row_parent_and_tag root)
    as [[[row_parent row_tag] row_elements]|]; [| done].
  simpl in Htab. apply extract_all_rows in Htab as [_ Hnew]; [| constructor].
  destruct (IH _ _ Hm) as [Hprefix Hall].
  - apply Forall_app. split; [| done]. eapply Forall_impl; [done |].
    intros row Hrow' col Hcol.
    apply (header_paths_bound_mono hs); [exact Hgrow | by apply Hrow'].
  - split; [| done]. etrans; [| done]. by apply prefix_app_r.
Qed.

(** What is handed to the writer is a proper table. *)
Lemma csv_table_wf (rows : list odict) (hs : HeaderState) :
  header_wf hs →
  Forall (fun row : odict =>
            ∀ col, od_get row col ≠ None → header_paths hs !! col ≠ None) rows →
  NoDup (header_order hs)
  ∧ Forall (fun record => length record = length (header_order hs))
           (map (csv_record (header_order hs)) rows)
  ∧ ∀ row col v, row ∈ rows → od_get row col = Some v →
      ∃ i, header_order hs !! i = Some col
           ∧ csv_record (header_order hs) row !! i = Some v.
Proof.
  intros [Hnd Hdom] Hrows. split_and!; [done | |].
  - apply Forall_forall. intros record (row & -> & _)%list_elem_of_fmap.
    unfold csv_record. by rewrite length_map.
  - intros row col v Hrow Hget. rewrite Forall_forall in Hrows.
    assert (col ∈ header_order hs) as Hcol.
    { apply Hdom, (Hrows row Hrow). by rewrite Hget. }
    apply list_elem_of_lookup in Hcol as [i Hi]. exists i. split; [done |].
    unfold csv_record. change (map ?f ?l) with (f <$> l).
    by rewrite list_lookup_fmap, Hi; simpl; rewrite Hget.
Qed.

(** X13. The table [convert_xml_to_csv] hands to the writer is well formed:
    no column name occurs twice in the header line, every record has one
    field per column, and every value of every extracted row is written, in
    the field of its column. *)
Theorem convert_xml_to_csv_table (fuel : nat) (root : Element)
    (header : list string) (records : list (list string)) :
  convert_xml_to_csv fuel root = Some (header, records) →
  NoDup header
  ∧ Forall (fun record => length record = length header) records
  ∧ ∃ rows hs,
      extract_table_from_file fuel root fresh_header = Some (rows, hs)
      ∧ header = header_order hs
      ∧ records = map (csv_record header) rows
      ∧ ∀ row col v, row ∈ rows → od_get row col = Some v →
          ∃ i, header !! i = Some col ∧ csv_record header row !! i = Some v.
Proof.
  unfold convert_xml_to_csv. intros Hconv.
  destruct (extract_table_from_file _ _ _) as [[rows hs]|] eqn:Htab; [| done].
  simpl in Hconv. simplify_eq.
  pose proof (extract_table_closed _ header_wf_closed _ _ _ _ _ Htab
                header_wf_fresh) as Hwf.
  assert (Forall (fun row : odict =>
            ∀ col, od_get row col ≠ None → header_paths hs !! col ≠ None) rows)
    as Hrows.
  { unfold extract_table_from_file in Htab.
    destruct (find_row_parent_and_tag root)
      as [[[row_parent row_tag] row_elements]|]; [| done].
    simpl in Htab. by apply extract_all_rows in Htab as [_ ?]; [| constructor]. }
  destruct (csv_table_wf rows hs Hwf Hrows) as (Hnd & Hrect & Hvalues).
  split_and!; [done | done |]. by exists rows, hs.
Qed.

Lemma merge_tables_app fuel inputs1 inputs2 rows0 hs :
  merge_tables fuel (inputs1 ++ inputs2) rows0 hs
  = '(rows1, hs1) ← merge_tables fuel inputs1 rows0 hs;
    merge_tables fuel inputs2 rows1 hs1.
Proof.
  revert rows0 hs. induction inputs1 as [|root rest IH]; intros rows0 hs; simpl;
    [done |].
  destruct (extract_table_from_file _ _ _) as [[rows hs1]|]; [| done].
  simpl. apply IH.
Qed.

(** X14. The merged table is well formed as well (distinct column names,
    one field per column in every record, every value written in the field
    of its column).  Merging is sequential composition: the merge of
    [inputs1 ++ inputs2] is the merge of [inputs2] continued from the rows
    and the header state the merge of [inputs1] leaves; and the merge of a
    single input is the conversion of that input. *)
Theorem merge_csv_table (fuel : nat) (inputs inputs1 inputs2 : list Element)
    (rows0 : list odict) (hs0 : HeaderState) (root : Element) :
  (∀ header records,
      merge_csv fuel inputs = Some (header, records) →
      NoDup header
      ∧ Forall (fun record => length record = length header) records
      ∧ ∃ rows hs,
          merge_tables fuel inputs [] fresh_header = Some (rows, hs)
          ∧ header = header_order hs
          ∧ records = map (csv_record header) rows
          ∧ ∀ row col v, row ∈ rows → od_get row col = Some v →
              ∃ i, header !! i = Some col ∧ csv_record header row !! i = Some v)
  ∧ merge_tables fuel (inputs1 ++ inputs2) rows0 hs0
    = ('(rows1, hs1) ← merge_tables fuel inputs1 rows0 hs0;
       merge_tables fuel inputs2 rows1 hs1)
  ∧ merge_csv fuel [root] = convert_xml_to_csv fuel root.
Proof.
  split_and!.
  - unfold merge_csv. intros header records Hmerge.
    destruct (merge_tables _ _ _ _) as [[rows hs]|] eqn:Htab; [| done].
    simpl in Hmerge. simplify_eq.
    pose proof (merge_tables_closed _ header_wf_closed _ _ _ _ _ _ Htab
                  header_wf_fresh) as Hwf.
    pose proof (merge_tables_rows _ _ _ _ _ _ Htab (Forall_nil_2 _)) as [_ Hrows].
    destruct (csv_table_wf rows hs Hwf Hrows) as (Hnd & Hrect & Hvalues).
    split_and!; [done | done |]. by exists rows, hs.
  - apply merge_tables_app.
  - unfold merge_csv, convert_xml_to_csv. simpl.
    by destruct (extract_table_from_file _ _ _) as [[rows hs]|].
Qed.

(** ** Rows *)

Lemma NoDup_fst_functional {A B} (l : list (A * B)) x y1 y2 :
  NoDup (map fst l) → (x, y1) ∈ l → (x, y2) ∈ l → y1 = y2.
Proof.
  induction l as [|[a b] l IH]; simpl; intros Hnd H1 H2;
    [by apply elem_of_nil in H1 |].
  apply NoDup_cons in Hnd as [Ha Hnd].
  apply elem_of_cons in H1 as [H1|H1], H2 as [H2|H2]; simplify_eq.
  - done.
  - exfalso. apply Ha, list_elem_of_fmap. by exists (a, y2).
  - exfalso. apply Ha, list_elem_of_fmap. by exists (a, y1).
  - by apply IH.
Qed.

(** After the row values are added, every leaf with text has a column bound
    to its path, holding the text of a leaf of that path. *)
Lemma leaf_fold_stored row_parent row_tag (leaves : list (PathKey * string)) st :
  let res := fold_left (leaf_step row_parent row_tag) leaves st in
  ∀ path text, (path, text) ∈ leaves → text ≠ "" →
    ∃ col path' text',
      header_paths res.2 !! col = Some (effective_path row_parent row_tag path)
      ∧ od_get res.1 col = Some text'
      ∧ (path', text') ∈ leaves ∧ text' ≠ ""
      ∧ effective_path row_parent row_tag path'
        = effective_path row_parent row_tag path.
Proof.
  induction leaves as [|[px tx] l IH] using rev_ind; cbv zeta.
  { by intros ?? ?%elem_of_nil. }
  rewrite fold_left_app. cbn [fold_left].
  destruct (fold_left (leaf_step row_parent row_tag) l st) as [rm1 hs1] eqn:Hfold.
  cbv zeta in IH. simpl in IH. rewrite leaf_step_eq.
  intros path text [Hin|Hin%list_elem_of_singleton]%elem_of_app Htext.
  - destruct (IH _ _ Hin Htext) as (col & path' & text' & Hcol & Hget & Hin' & Ht' & Heq).
    case_decide as Htx; simpl.
    { exists col, path', text'. split_and!; try done. apply elem_of_app. by left. }
    set (full := effective_path row_parent row_tag px).
    set (colx := leaf_column (header_paths hs1) full).
    assert (header_paths (register_column colx full hs1) !! col
            = Some (effective_path row_parent row_tag path)) as Hold.
    { eapply lookup_weaken; [exact Hcol |]. by apply (header_grows_closed hs1). }
    pose proof (register_leaf_column hs1 full) as Hreg. fold colx in Hreg.
    destruct (decide (colx = col)) as [Hsame|Hne].
    + exists col, px, tx. rewrite od_get_set, decide_True by done.
      split_and!; try done; [apply elem_of_app; right; left |].
      rewrite <- Hsame in Hold. rewrite Hreg in Hold. by injection Hold.
    + exists col, path', text'. rewrite od_get_set, decide_False by done.
      split_and!; try done. apply elem_of_app. by left.
  - injection Hin as -> ->. rewrite decide_False by done. simpl.
    exists (leaf_column (header_paths hs1) (effective_path row_parent row_tag px)),
      px, tx.
    rewrite register_leaf_column, od_get_set, decide_True by done.
    split_and!; try done. apply elem_of_app. right. left.
Qed.

Lemma effective_path_other_tag row_parent row_tag (row_elem : Element) path :
  (∀ p, row_parent = Some p → tag p ≠ tag row_elem) →
  [tag row_elem] `prefix_of` path →
  effective_path row_parent row_tag path = path.
Proof.
  intros Htag [rest ->]. unfold effective_path.
  destruct row_parent as [p|]; [| done]. simpl.
  rewrite (bool_decide_eq_false_2 (Some (tag row_elem) = Some (tag p)));
    [by rewrite andb_false_r |].
  intros ?. simplify_eq. by apply (Htag p).
Qed.

(** X15. Once the values of the row element's subtree are added to a
    record, every leaf with text has a column that the header binds to the
    leaf's effective path, and the record holds in that column the text of a
    leaf with that effective path; the text of the leaf itself, when the row
    parent is absent or tagged differently from the row element. *)
Theorem add_row_values_stored (row_elem : Element) (row_parent : option Element)
    (row_tag : string) (sel : Selection) (st : odict * HeaderState)
    (path : PathKey) (text : string) :
  (path, text) ∈ iter_scalar_leaves row_elem sel None → text ≠ "" →
  let res := add_row_values row_elem row_parent row_tag sel st in
  ∃ col,
    header_paths res.2 !! col = Some (effective_path row_parent row_tag path)
    ∧ (∃ path' text',
          od_get res.1 col = Some text'
          ∧ (path', text') ∈ iter_scalar_leaves row_elem sel None ∧ text' ≠ ""
          ∧ effective_path row_parent row_tag path'
            = effective_path row_parent row_tag path)
    ∧ ((∀ p, row_parent = Some p → tag p ≠ tag row_elem) →
       effective_path row_parent row_tag path = path
       ∧ od_get res.1 col = Some text).
Proof.
  intros Hin Htext res. subst res. unfold add_row_values.
  destruct (leaf_fold_stored row_parent row_tag
              (iter_scalar_leaves row_elem sel None) st path text Hin Htext)
    as (col & path' & text' & Hcol & Hget & Hin' & Ht' & Heq).
  exists col. split_and!; [done | by exists path', text' |].
  intros Htag.
  assert (∀ q txt, (q, txt) ∈ iter_scalar_leaves row_elem sel None →
                   effective_path row_parent row_tag q = q) as Heff.
  { intros q txt (rest & ->)%iter_scalar_leaves_prefix.
    apply (effective_path_other_tag _ _ row_elem); [done |].
    by apply prefix_app_r. }
  rewrite (Heff _ _ Hin), (Heff _ _ Hin') in Heq. subst path'.
  split; [by eapply Heff |]. rewrite Hget. f_equal.
  eapply NoDup_fst_functional; [apply iter_scalar_leaves_NoDup | done | done].
Qed.

Lemma product_group_sizes_pos node path :
  0 < product (group_sizes (reachable_groups node path)).
Proof.
  pose proof (fun key members => reachable_groups_elem node path key members)
    as Helem.
  induction (reachable_groups node path) as [|[key members] l IH]; simpl; [lia |].
  destruct (Helem key members) as [_ Hlen]; [left |].
  assert (0 < product (group_sizes l)) by (apply IH; intros; apply Helem; by right).
  unfold product in *. simpl in *. nia.
Qed.

(** ** Container columns *)

(** Seeding a record registers the container names that the header does not
    list yet, in the order of the container values. *)
Lemma seed_container_values_order row_parent (container_values : odict) st :
  header_wf st.2 → NoDup (map fst container_values) →
  (∀ k, k ∈ map fst container_values → k ∉ header_order st.2) →
  header_order (seed_container_values (Some row_parent) container_values st).2
  = header_order st.2 ++ map fst container_values.
Proof.
  unfold seed_container_values. revert st.
  induction container_values as [|[k v] l IH]; intros [row_map hs] Hwf Hnd Hnew;
    cbn [fold_left].
  { simpl. by rewrite app_nil_r. }
  apply NoDup_cons in Hnd as [Hk Hnd].
  assert (header_paths hs !! k = None) as Hfree.
  { destruct Hwf as [_ Hdom]. simpl in *.
    destruct (header_paths hs !! k) eqn:Hlookup; [| done].
    exfalso. apply (Hnew k); [left |]. apply Hdom. by rewrite Hlookup. }
  rewrite container_step_eq. cbv zeta.
  rewrite (bool_decide_eq_false_2 (header_paths hs !! k ≠ None))
    by (by intros ?).
  cbn [andb]. rewrite IH; cbn [fst snd].
  - rewrite register_column_order, decide_True by done.
    by rewrite <- app_assoc.
  - by apply header_wf_closed.
  - done.
  - intros k' Hk'. rewrite register_column_order, decide_True by done.
    intros [Hold|Heq%list_elem_of_singleton]%elem_of_app.
    + by apply (Hnew k'); [right |].
    + by subst.
Qed.

Lemma cartesian_nonempty (groups : list (PathKey * list Element)) (sel : Selection) :
  0 < product (group_sizes groups) → cartesian groups sel ≠ [].
Proof.
  intros Hpos Hnil. pose proof (length_cartesian groups sel) as Hlen.
  rewrite Hnil in Hlen. simpl in Hlen. lia.
Qed.

Lemma find_row_parent_and_tag_elements root row_parent row_tag row_elements :
  find_row_parent_and_tag root = Some (row_parent, row_tag, row_elements) →
  row_elements ≠ [].
Proof.
  unfold find_row_parent_and_tag.
  destruct (bfs_loop _ _) as [[[[p t] es]|]|] eqn:Hloop; intros [= <- <- <-];
    [| done].
  destruct (bfs_loop_found root (node_count root) [root] 0 0 p t es)
    as (Hfirst & -> & _); [done | intros; lia | intros; lia | done |].
  apply first_repeating_child_tag_Some in Hfirst as (_ & -> & Hlen).
  intros Hnil. rewrite Hnil in Hlen. simpl in Hlen. lia.
Qed.

(** X17. In a table extracted against a fresh header, the container columns
    come first in the header, in the order of the container values, before
    any column of the row elements. *)
Theorem container_columns_first (fuel : nat) (root : Element)
    (row_parent : option Element) (row_tag : string) (row_elements : list Element)
    (rows : list odict) (hs' : HeaderState) :
  table_fuel root ≤ fuel →
  find_row_parent_and_tag root = Some (row_parent, row_tag, row_elements) →
  extract_table_from_file fuel root fresh_header = Some (rows, hs') →
  map fst (build_container_values row_parent row_tag) `prefix_of` header_order hs'.
Proof.
  intros Hfuel Hfind Htab.
  destruct row_parent as [p|]; [| apply prefix_nil].
  pose proof (table_fuel_covers _ _ _ _ _ Hfind Hfuel) as Hcover.
  pose proof (find_row_parent_and_tag_elements _ _ _ _ Hfind) as Hne.
  unfold extract_table_from_file in Htab. rewrite Hfind in Htab. simpl in Htab.
  destruct row_elements as [|row_elem rest]; [done |].
  apply Forall_cons in Hcover as [Hrow _]. cbn [extract_all] in Htab.
  rewrite extract_rows_for_element_cartesian in Htab by done.
  destruct (rows_for_selections row_elem (Some p) row_tag
              (cartesian (nested_groups row_elem) ∅) fresh_header)
    as [extracted hs1] eqn:Hrows.
  simpl in Htab.
  apply (extract_all_closed _ (header_prefix_closed _) _ _ _ _ _ _ _ _ Htab).
  pose proof (cartesian_nonempty (nested_groups row_elem) ∅
                (product_group_sizes_pos row_elem [tag row_elem])) as Hsels.
  unfold rows_for_selections in Hrows.
  destruct (cartesian (nested_groups row_elem) ∅) as [|sel sels]; [done |].
  cbn [fold_left] in Hrows.
  pose proof (rows_fold_closed _ (header_prefix_closed
                (map fst (build_container_values (Some p) row_tag)))
                row_elem (Some p) row_tag
                (build_container_values (Some p) row_tag) sels
                (row_step row_elem (Some p) row_tag
                   (build_container_values (Some p) row_tag) ([], fresh_header) sel))
    as Hfold.
  rewrite Hrows in Hfold. apply Hfold. clear Hfold Hrows Htab.
  unfold row_step.
  assert (map fst (build_container_values (Some p) row_tag)
          `prefix_of` header_order
             (build_row row_elem (Some p) row_tag
                (build_container_values (Some p) row_tag) fresh_header sel).2)
    as Hrow'; [| by destruct (build_row _ _ _ _ _ _)].
  unfold build_row, add_row_values.
  apply (fold_left_invariant
           (fun st : odict * HeaderState =>
              map fst (build_container_values (Some p) row_tag)
              `prefix_of` header_order st.2)).
  - rewrite seed_container_values_order; simpl.
    + done.
    + apply header_wf_fresh.
    + apply (fold_left_invariant (fun d : odict => NoDup (map fst d)));
        [constructor |].
      intros d leaf Hd _. rewrite container_value_step_eq.
      case_decide; [by apply od_set_NoDup | done].
    + intros k _. apply not_elem_of_nil.
  - intros st leaf Hst _.
    by apply (leaf_step_closed _ (header_prefix_closed _)).
Qed.

(** ** The further properties on the sample documents *)

Lemma first_repeating_child_tag_spec_witness :
  2 ≤ length (filter (fun c => tag c = "b") (children doc_scenario))
  ∧ ∃ before after,
      first_seen (map tag (children doc_scenario)) = before ++ "b" :: after
      ∧ ∀ t', t' ∈ before →
              length (filter (fun c => tag c = t') (children doc_scenario)) = 1.
Proof.
  apply (proj2 (first_repeating_child_tag_spec doc_scenario) "b").
  vm_compute. reflexivity.
Defined.

Lemma expand_loop_selections_complete_witness :
  ∃ finalized,
    expand_loop 9 row_two_groups [∅] [] = Some finalized
    ∧ NoDup finalized
    ∧ ∀ sel : Selection, sel ∈ finalized →
        (∀ key members, (key, members) ∈ nested_groups row_two_groups →
            ∃ idx, idx < length members ∧ sel !! key = Some (Z.of_nat idx))
        ∧ (∀ key, sel !! key ≠ None → key ∈ map fst (nested_groups row_two_groups))
        ∧ find_next_unselected_repeating_group row_two_groups sel None = None.
Proof.
  apply (expand_loop_selections_complete 9 row_two_groups). vm_compute. lia.
Defined.

(** The leaves of [doc_padded], each with its text less the white space
    around it, the no-break, em and ideographic spaces included. *)
Lemma iter_scalar_leaves_no_repeat_witness :
  iter_scalar_leaves doc_padded {[ ["a"; "x"] := 1%Z ]} None
  = [(["a"; "x"], "v w"); (["a"; "y"; "z"], "2"); (["a"; "e"], "")].
Proof.
  apply (iter_scalar_leaves_no_repeat doc_padded {[ ["a"; "x"] := 1%Z ]} None).
  vm_compute. reflexivity.
Defined.

Example all_leaves_flat :
  all_leaves doc_flat ["a"] = [(["a"; "x"], "1"); (["a"; "y"; "z"], "2")].
Proof. vm_compute. reflexivity. Qed.

Lemma iter_scalar_leaves_selected_member_witness :
  ((["b"; "c"], "2") ∈ iter_scalar_leaves row_one_group {[ ["b"; "c"] := 1%Z ]} None
   ∧ (default [tag row_one_group] None ++ ["c"]) `prefix_of` ["b"; "c"])
  ↔ ∃ idx s,
      ({[ ["b"; "c"] := 1%Z ]} : Selection)
        !! (default [tag row_one_group] None ++ ["c"]) = Some idx
      ∧ (0 ≤ idx < Z.of_nat (length [leaf "c" "1"; leaf "c" "2"; leaf "c" "3"]))%Z
      ∧ [leaf "c" "1"; leaf "c" "2"; leaf "c" "3"] !! Z.to_nat idx = Some s
      ∧ (["b"; "c"], "2") ∈ iter_scalar_leaves s {[ ["b"; "c"] := 1%Z ]}
                              (Some (default [tag row_one_group] None ++ ["c"])).
Proof.
  apply (iter_scalar_leaves_selected_member row_one_group {[ ["b"; "c"] := 1%Z ]}
           None "c" [leaf "c" "1"; leaf "c" "2"; leaf "c" "3"] ["b"; "c"] "2").
  - vm_compute. left.
  - simpl. lia.
Defined.

Lemma extract_rows_for_element_header_witness :
  header_order fresh_header
    `prefix_of` header_order (mkHeader ["y"] {[ "y" := ["b"; "y"] ]})
  ∧ header_paths fresh_header
    ⊆ header_paths (mkHeader ["y"] {[ "y" := ["b"; "y"] ]})
  ∧ (header_wf fresh_header → header_wf (mkHeader ["y"] {[ "y" := ["b"; "y"] ]}))
  ∧ ∀ row col, row ∈ [[("y", "1")]] → od_get row col ≠ None →
               header_paths (mkHeader ["y"] {[ "y" := ["b"; "y"] ]}) !! col ≠ None.
Proof.
  apply (extract_rows_for_element_header 1 row_empty_leaf (Some doc_empty_leaf)
           "b" fresh_header).
  vm_compute. reflexivity.
Defined.

Lemma convert_xml_to_csv_table_witness :
  NoDup ["fa1"; "fb1"]
  ∧ Forall (fun record => length record = length ["fa1"; "fb1"])
           [["X"; "1"]; ["X"; "2"]]
  ∧ ∃ rows hs,
      extract_table_from_file 1 doc_scenario fresh_header = Some (rows, hs)
      ∧ ["fa1"; "fb1"] = header_order hs
      ∧ [["X"; "1"]; ["X"; "2"]] = map (csv_record ["fa1"; "fb1"]) rows
      ∧ ∀ row col v, row ∈ rows → od_get row col = Some v →
          ∃ i, ["fa1"; "fb1"] !! i = Some col
               ∧ csv_record ["fa1"; "fb1"] row !! i = Some v.
Proof.
  apply (convert_xml_to_csv_table 1 doc_scenario). vm_compute. reflexivity.
Defined.

Lemma merge_csv_table_witness :
  NoDup ["x"; "y"]
  ∧ Forall (fun record => length record = length ["x"; "y"])
           [["1"; ""]; ["2"; ""]; [""; "3"]; [""; "4"]]
  ∧ ∃ rows hs,
      merge_tables 1 [doc_x; doc_y] [] fresh_header = Some (rows, hs)
      ∧ ["x"; "y"] = header_order hs
      ∧ [["1"; ""]; ["2"; ""]; [""; "3"]; [""; "4"]]
        = map (csv_record ["x"; "y"]) rows
      ∧ ∀ row col v, row ∈ rows → od_get row col = Some v →
          ∃ i, ["x"; "y"] !! i = Some col
               ∧ csv_record ["x"; "y"] row !! i = Some v.
Proof.
  apply (proj1 (merge_csv_table 1 [doc_x; doc_y] [] [] [] fresh_header doc_x)).
  vm_compute. reflexivity.
Defined.

Lemma add_row_values_stored_witness :
  let res :=
    add_row_values row_one_group None "b" {[ ["b"; "c"] := 1%Z ]} ([], fresh_header) in
  ∃ col,
    header_paths res.2 !! col = Some (effective_path None "b" ["b"; "c"])
    ∧ (∃ path' text',
          od_get res.1 col = Some text'
          ∧ (path', text')
            ∈ iter_scalar_leaves row_one_group {[ ["b"; "c"] := 1%Z ]} None
          ∧ text' ≠ ""
          ∧ effective_path None "b" path' = effective_path None "b" ["b"; "c"])
    ∧ ((∀ p, None = Some p → tag p ≠ tag row_one_group) →
       effective_path None "b" ["b"; "c"] = ["b"; "c"]
       ∧ od_get res.1 col = Some "2").
Proof.
  apply (add_row_values_stored row_one_group None "b" {[ ["b"; "c"] := 1%Z ]}
           ([], fresh_header) ["b"; "c"] "2").
  - vm_compute. left.
  - discriminate.
Defined.

Lemma container_columns_first_witness :
  map fst (build_container_values (Some doc_container_clash) "b")
  `prefix_of` header_order (mkHeader ["n"; "f"] {[ "n" := ["a"; "n"]; "f" := ["b"; "f"] ]}).
Proof.
  apply (container_columns_first 1 doc_container_clash (Some doc_container_clash)
           "b" [node "b" [leaf "f" "1"]; node "b" [leaf "f" "2"]]
           [[("n", "2"); ("f", "1")]; [("n", "2"); ("f", "2")]]).
  - vm_compute. lia.
  - vm_compute. reflexivity.
  - vm_compute. reflexivity.
Defined.

(** ** The groups and the leaves, read off the tree *)

(** The grouping by tag, tag by tag. *)
Lemma get_children_by_tag_map parent :
  get_children_by_tag parent
  = map (fun t => (t, filter (fun c => tag c = t) (children parent)))
        (first_seen (map tag (children parent))).
Proof.
  rewrite <- get_children_by_tag_first_seen.
  pose proof (get_children_by_tag_elem parent) as Helem.
  induction (get_children_by_tag parent) as [|[t siblings] l IH]; simpl; [done |].
  destruct (Helem t siblings) as [<- _]; [left |].
  f_equal. apply IH. intros t' s' Hin. apply Helem. by right.
Qed.

(** The group indexer finds the groups the tree has under a node. *)
Lemma compute_repeating_group_keys_tree parent path :
  map (fun g : PathKey * string * list Element => (g.1.1, g.2))
      (compute_repeating_group_keys parent path)
  = flat_map (fun t =>
                let members := filter (fun c => tag c = t) (children parent) in
                if decide (2 ≤ length members) then [(path ++ [t], members)] else [])
             (first_seen (map tag (children parent))).
Proof.
  unfold compute_repeating_group_keys. rewrite get_children_by_tag_map.
  induction (first_seen (map tag (children parent))) as [|t l IH]; simpl; [done |].
  rewrite map_app, IH. f_equal.
  destruct (1 <? length _) eqn:Hlen; case_decide as Hdec; try done.
  - apply Nat.ltb_lt in Hlen. lia.
  - apply Nat.ltb_ge in Hlen. lia.
Qed.

Lemma tree_groups_unfold node path :
  tree_groups node path
  = flat_map (fun t =>
                let members := filter (fun c => tag c = t) (children node) in
                if decide (2 ≤ length members) then [(path ++ [t], members)] else [])
             (first_seen (map tag (children node)))
    ++ flat_map (fun child =>
                   if decide (singleton_child node child)
                   then tree_groups child (path ++ [tag child]) else [])
                (children node).
Proof. by destruct node. Qed.

(** The groups the search reaches are the groups of the tree. *)
Lemma reachable_groups_tree node path :
  reachable_groups node path = tree_groups node path.
Proof.
  revert path. induction node as [t x cs IH] using Element_ind. intros path.
  rewrite reachable_groups_unfold, tree_groups_unfold,
    compute_repeating_group_keys_tree.
  f_equal. apply flat_map_ext_elem. intros child Hc.
  rewrite Forall_forall in IH. case_decide; [by apply IH | done].
Qed.

Lemma nested_groups_tree row_elem : nested_groups row_elem = row_groups row_elem.
Proof. apply reachable_groups_tree. Qed.

Lemma tree_groups_elem node path key members :
  (key, members) ∈ tree_groups node path →
  (∃ rest, rest ≠ [] ∧ key = path ++ rest) ∧ 2 ≤ length members.
Proof. rewrite <- reachable_groups_tree. apply reachable_groups_elem. Qed.

Lemma singleton_leaves_unfold node path :
  singleton_leaves node path
  = match children node with
    | [] => [(path, strip (default "" (text node)))]
    | _ =>
        flat_map (fun child =>
                    if decide (singleton_child node child)
                    then singleton_leaves child (path ++ [tag child]) else [])
                 (children node)
    end.
Proof. by destruct node. Qed.

Lemma iter_scalar_leaves_default (node : Element) (sel : Selection) :
  iter_scalar_leaves node sel None = iter_scalar_leaves node sel (Some [tag node]).
Proof. by rewrite !iter_scalar_leaves_unfold. Qed.

(** A child that shares its tag with no sibling is an entry of the grouping
    on its own. *)
Lemma singleton_child_entry (node child : Element) :
  child ∈ children node → singleton_child node child →
  (tag child, [child]) ∈ get_children_by_tag node.
Proof.
  intros Hc Hsingle. unfold singleton_child in Hsingle.
  assert (child ∈ filter (fun c => tag c = tag child) (children node)) as Hin
    by by apply list_elem_of_filter.
  rewrite get_children_by_tag_map. apply list_elem_of_fmap. exists (tag child).
  split.
  - destruct (filter _ (children node)) as [|c [|??]]; simpl in Hsingle; try done.
    by apply list_elem_of_singleton in Hin as ->.
  - rewrite <- get_children_by_tag_first_seen. apply get_children_by_tag_keys.
    apply list_elem_of_fmap. by exists child.
Qed.

(** The leaves on which no choice bears are yielded under every selection. *)
Lemma singleton_leaves_yielded (node : Element) (sel : Selection) (path p : PathKey)
    (txt : string) :
  (p, txt) ∈ singleton_leaves node path →
  (p, txt) ∈ iter_scalar_leaves node sel (Some path).
Proof.
  revert path. induction node as [t x cs IH] using Element_ind. intros path.
  rewrite singleton_leaves_unfold.
  destruct (children (Elem t x cs)) as [|c0 cs0] eqn:Hcs.
  { by rewrite iter_scalar_leaves_leaf. }
  rewrite <- Hcs.
  intros (child & Hc & Hin)%list_elem_of_In%in_flat_map.
  apply list_elem_of_In in Hc, Hin.
  case_decide as Hsingle; [| by apply elem_of_nil in Hin].
  apply iter_scalar_leaves_elem; [by rewrite Hcs |].
  exists (tag child), [child]. split; [by apply singleton_child_entry |].
  simpl. exists child. split; [done |].
  rewrite Forall_forall in IH. by apply IH.
Qed.

(** The leaves yielded for the selected member of a group of the tree are
    yielded for the tree. *)
Lemma group_member_yielded (node : Element) (sel : Selection) (path key : PathKey)
    (members : list Element) (idx : nat) (child : Element) (leaf : PathKey * string) :
  (key, members) ∈ tree_groups node path →
  sel !! key = Some (Z.of_nat idx) → members !! idx = Some child →
  leaf ∈ iter_scalar_leaves child sel (Some key) →
  leaf ∈ iter_scalar_leaves node sel (Some path).
Proof.
  revert path. induction node as [t x cs IH] using Element_ind.
  intros path Hgroup Hsel Hchild Hleaf. destruct leaf as [p txt].
  assert (children (Elem t x cs) ≠ []) as Hcs.
  { intros Hnil. rewrite tree_groups_unfold, Hnil in Hgroup.
    by apply elem_of_nil in Hgroup. }
  apply iter_scalar_leaves_elem; [done |].
  rewrite tree_groups_unfold in Hgroup.
  apply elem_of_app in Hgroup as [Hhere|Hbelow].
  - apply list_elem_of_In, in_flat_map in Hhere as (t' & Ht' & Hin).
    apply list_elem_of_In in Ht', Hin. cbv zeta in Hin.
    case_decide as Hlen; [| by apply elem_of_nil in Hin].
    apply list_elem_of_singleton in Hin. injection Hin as -> ->.
    exists t', (filter (fun c => tag c = t') (children (Elem t x cs))). split.
    + rewrite get_children_by_tag_map. apply list_elem_of_fmap. by exists t'.
    + apply Nat.ltb_lt in Hlen as Hlt. rewrite Hlt.
      exists (Z.of_nat idx), child. rewrite Nat2Z.id.
      apply lookup_lt_Some in Hchild as Hbound.
      split; [done |]. split; [cbn [children]; lia |]. done.
  - apply list_elem_of_In, in_flat_map in Hbelow as (c & Hc & Hin).
    apply list_elem_of_In in Hc, Hin.
    case_decide as Hsingle; [| by apply elem_of_nil in Hin].
    exists (tag c), [c]. split; [by apply singleton_child_entry |].
    simpl. exists c. split; [done |].
    rewrite Forall_forall in IH. by apply (IH c Hc).
Qed.

(** The record of a selection shows the member it selects in each group. *)
Lemma build_row_shows (row_elem : Element) (row_parent : option Element)
    (row_tag : string) (container_values : odict) (hs : HeaderState)
    (sel : Selection) (key : PathKey) (members : list Element) (idx : nat)
    (child : Element) :
  (∀ p, row_parent = Some p → tag p ≠ tag row_elem) →
  (key, members) ∈ row_groups row_elem →
  sel !! key = Some (Z.of_nat idx) → members !! idx = Some child →
  let res := build_row row_elem row_parent row_tag container_values hs sel in
  row_shows res.2 res.1 child key.
Proof.
  intros Htag Hgroup Hsel Hchild res path text Hleaf Htext.
  assert ((path, text) ∈ iter_scalar_leaves row_elem sel None) as Hin.
  { rewrite iter_scalar_leaves_default.
    eapply group_member_yielded; [exact Hgroup | done | done |].
    by apply singleton_leaves_yielded. }
  subst res. unfold build_row, add_row_values.
  destruct (leaf_fold_stored row_parent row_tag
              (iter_scalar_leaves row_elem sel None)
              (seed_container_values row_parent container_values ([], hs))
              path text Hin Htext)
    as (col & path' & text' & Hcol & Hget & Hin' & _ & Heq).
  assert (∀ q txt, (q, txt) ∈ iter_scalar_leaves row_elem sel None →
                   effective_path row_parent row_tag q = q) as Heff.
  { intros q txt (rest & ->)%iter_scalar_leaves_prefix.
    apply (effective_path_other_tag _ _ row_elem); [done |].
    by apply prefix_app_r. }
  rewrite (Heff _ _ Hin), (Heff _ _ Hin') in Heq. subst path'.
  rewrite (Heff _ _ Hin) in Hcol.
  exists col. split; [done |]. rewrite Hget. f_equal.
  eapply NoDup_fst_functional; [apply iter_scalar_leaves_NoDup | done | done].
Qed.

Lemma row_shows_weaken (hs hs' : HeaderState) row member key :
  header_paths hs ⊆ header_paths hs' →
  row_shows hs row member key → row_shows hs' row member key.
Proof.
  intros Hsub Hshows path text Hleaf Htext.
  destruct (Hshows path text Hleaf Htext) as (col & Hcol & Hget).
  exists col. split; [| done]. by eapply lookup_weaken.
Qed.

(** The records of a list of selections, one by one. *)
Lemma rows_for_selections_shows (row_elem : Element) (row_parent : option Element)
    (row_tag : string) (sels : list Selection) (hs : HeaderState) (i : nat)
    (sel : Selection) (key : PathKey) (members : list Element) (idx : nat)
    (child : Element) :
  (∀ p, row_parent = Some p → tag p ≠ tag row_elem) →
  (key, members) ∈ row_groups row_elem →
  sels !! i = Some sel →
  sel !! key = Some (Z.of_nat idx) → members !! idx = Some child →
  let res := rows_for_selections row_elem row_parent row_tag sels hs in
  ∃ row, res.1 !! i = Some row ∧ row_shows res.2 row child key.
Proof.
  intros Htag Hgroup Hi Hsel Hchild. cbv zeta. unfold rows_for_selections.
  revert i Hi. induction sels as [|s sels IH] using rev_ind; intros i Hi; [done |].
  rewrite fold_left_app. cbn [fold_left].
  pose proof (rows_fold_length row_elem row_parent row_tag
                (build_container_values row_parent row_tag) sels [] hs) as Hlen.
  destruct (fold_left _ sels ([], hs)) as [rows hs1]. simpl in Hlen.
  unfold row_step.
  pose proof (build_row_closed _ (header_grows_closed hs1) row_elem row_parent
                row_tag (build_container_values row_parent row_tag) hs1 s) as Hgrow.
  pose proof (build_row_shows row_elem row_parent row_tag
                (build_container_values row_parent row_tag) hs1 s key members
                idx child Htag Hgroup) as Hnew.
  destruct (build_row _ _ _ _ hs1 s) as [row_map hs2]. simpl in *.
  destruct (decide (i < length sels)) as [Hlt|Hge].
  - rewrite lookup_app_l in Hi by done.
    destruct (IH i Hi) as (row & Hrow & Hshows).
    exists row. split.
    + rewrite lookup_app_l by lia. done.
    + eapply row_shows_weaken; [| done]. by apply Hgrow.
  - apply lookup_lt_Some in Hi as Hbound. rewrite length_app in Hbound.
    simpl in Hbound. assert (i = length sels) as -> by lia.
    rewrite lookup_app_r in Hi by lia. rewrite Nat.sub_diag in Hi.
    injection Hi as ->.
    exists row_map. split; [| by apply Hnew].
    rewrite lookup_app_r by lia.
    by replace (length sels - length rows) with 0 by lia.
Qed.

(** ** The rows of a row element *)

Lemma row_groups_NoDup row_elem : NoDup (map fst (row_groups row_elem)).
Proof. rewrite <- nested_groups_tree. apply reachable_groups_NoDup. Qed.

(** With the bound covering the expansion, the rows of a row element are
    those of the combinations of indices for the groups of its tree. *)
Lemma extract_rows_for_element_tree fuel row_elem row_parent row_tag hs :
  expansion_steps (row_groups row_elem) ≤ fuel →
  extract_rows_for_element fuel row_elem row_parent row_tag hs
  = Some (rows_for_selections row_elem row_parent row_tag
            (cartesian (row_groups row_elem) ∅) hs).
Proof.
  rewrite <- nested_groups_tree. apply extract_rows_for_element_cartesian.
Qed.

(** C1. The number of rows extracted for a row element is the product of
    the sizes of the repeating groups of its tree (those reached through
    children that share their tag with no sibling): one row when there is
    no such group, and six rows when there are two groups of sizes 2 and 3,
    one for each pair of indices.  The row of the pair [(i, j)] is the row
    [3 * (1 - i) + (2 - j)], and it shows member [i] of the first group and
    member [j] of the second. *)
Theorem extract_rows_count (fuel : nat) (row_elem : Element)
    (row_parent : option Element) (row_tag : string) (hs : HeaderState) :
  expansion_steps (row_groups row_elem) ≤ fuel →
  ∃ rows hs',
    extract_rows_for_element fuel row_elem row_parent row_tag hs = Some (rows, hs')
    ∧ length rows = product (group_sizes (row_groups row_elem))
    ∧ (row_groups row_elem = [] → length rows = 1)
    ∧ (∀ k1 m1 k2 m2,
          row_groups row_elem = [(k1, m1); (k2, m2)] →
          length m1 = 2 → length m2 = 3 →
          length rows = 6
          ∧ (rows, hs')
            = rows_for_selections row_elem row_parent row_tag
                [ <[k2 := 2%Z]> {[k1 := 1%Z]}; <[k2 := 1%Z]> {[k1 := 1%Z]};
                  <[k2 := 0%Z]> {[k1 := 1%Z]}; <[k2 := 2%Z]> {[k1 := 0%Z]};
                  <[k2 := 1%Z]> {[k1 := 0%Z]}; <[k2 := 0%Z]> {[k1 := 0%Z]} ] hs
          ∧ ((∀ p, row_parent = Some p → tag p ≠ tag row_elem) →
             ∀ i j c1 c2, m1 !! i = Some c1 → m2 !! j = Some c2 →
               ∃ row, rows !! (3 * (1 - i) + (2 - j)) = Some row
                      ∧ row_shows hs' row c1 k1 ∧ row_shows hs' row c2 k2)).
Proof.
  intros Hfuel.
  destruct (rows_for_selections row_elem row_parent row_tag
              (cartesian (row_groups row_elem) ∅) hs) as [rows hs'] eqn:Hrows.
  exists rows, hs'.
  assert (length rows = product (group_sizes (row_groups row_elem))) as Hlen.
  { rewrite <- length_cartesian with (sel := ∅).
    rewrite <- (rows_for_selections_length row_elem row_parent row_tag _ hs).
    by rewrite Hrows. }
  split_and!.
  - by rewrite extract_rows_for_element_tree, Hrows.
  - done.
  - intros Hnone. by rewrite Hlen, Hnone.
  - intros k1 m1 k2 m2 Hgroups Hm1 Hm2.
    assert (k1 ≠ k2) as Hne.
    { pose proof (row_groups_NoDup row_elem) as Hnd. rewrite Hgroups in Hnd.
      simpl in Hnd. apply NoDup_cons in Hnd as [Hk1 _].
      intros ->. apply Hk1. left. }
    rewrite Hgroups in Hrows. simpl in Hrows. rewrite Hm1, Hm2 in Hrows.
    simpl in Hrows. rewrite !insert_empty in Hrows.
    split_and!.
    + by rewrite Hlen, Hgroups; simpl; rewrite Hm1, Hm2.
    + by rewrite <- Hrows.
    + intros Htag i j c1 c2 Hc1 Hc2.
      assert ((k1, m1) ∈ row_groups row_elem) as Hg1 by (rewrite Hgroups; left).
      assert ((k2, m2) ∈ row_groups row_elem) as Hg2
        by (rewrite Hgroups; right; left).
      set (sel := <[k2 := Z.of_nat j]> ({[k1 := Z.of_nat i]} : Selection)).
      assert (sel !! k1 = Some (Z.of_nat i)) as Hsel1
        by (unfold sel; by rewrite lookup_insert_ne, lookup_singleton_eq).
      assert (sel !! k2 = Some (Z.of_nat j)) as Hsel2
        by (unfold sel; by rewrite lookup_insert_eq).
      set (sels := [ <[k2 := 2%Z]> {[k1 := 1%Z]}; <[k2 := 1%Z]> {[k1 := 1%Z]};
                     <[k2 := 0%Z]> {[k1 := 1%Z]}; <[k2 := 2%Z]> {[k1 := 0%Z]};
                     <[k2 := 1%Z]> {[k1 := 0%Z]}; <[k2 := 0%Z]> {[k1 := 0%Z]} ]
                   : list Selection).
      assert (rows_for_selections row_elem row_parent row_tag sels hs = (rows, hs'))
        as Hrows' by exact Hrows.
      assert (sels !! (3 * (1 - i) + (2 - j)) = Some sel) as Hlookup.
      { apply lookup_lt_Some in Hc1, Hc2. rewrite Hm1 in Hc1. rewrite Hm2 in Hc2.
        unfold sel. destruct i as [|[|?]]; [| | lia];
          (destruct j as [|[|[|?]]]; [| | | lia]); reflexivity. }
      destruct (rows_for_selections_shows row_elem row_parent row_tag sels hs _
                  sel k1 m1 i c1 Htag Hg1 Hlookup Hsel1 Hc1)
        as (row & Hrow & Hshows1).
      destruct (rows_for_selections_shows row_elem row_parent row_tag sels hs _
                  sel k2 m2 j c2 Htag Hg2 Hlookup Hsel2 Hc2)
        as (row' & Hrow' & Hshows2).
      rewrite Hrows' in Hrow, Hrow', Hshows1, Hshows2. simpl in *.
      rewrite Hrow in Hrow'. injection Hrow' as <-.
      by exists row.
Qed.

(** C10. When a row element has exactly one repeating group in its tree, of
    [N] members, its [N] rows come out in reverse child order, because the
    worklist is consumed last-in-first-out: the row that shows the member of
    index [idx] is the row [N - 1 - idx], so the last member comes first
    and the first member last. *)
Theorem extract_rows_single_group_reversed (fuel : nat) (row_elem : Element)
    (row_parent : option Element) (row_tag : string) (hs : HeaderState)
    (group_key : PathKey) (members : list Element) :
  row_groups row_elem = [(group_key, members)] →
  S (length members) ≤ fuel →
  ∃ rows hs',
    extract_rows_for_element fuel row_elem row_parent row_tag hs = Some (rows, hs')
    ∧ 2 ≤ length members
    ∧ length rows = length members
    ∧ (rows, hs')
      = rows_for_selections row_elem row_parent row_tag
          (map (fun idx => {[group_key := Z.of_nat idx]})
               (reverse (seq 0 (length members)))) hs
    ∧ ((∀ p, row_parent = Some p → tag p ≠ tag row_elem) →
       ∀ idx child, members !! idx = Some child →
         ∃ row, rows !! (length members - 1 - idx) = Some row
                ∧ row_shows hs' row child group_key).
Proof.
  intros Hgroup Hfuel.
  set (sels := map (fun idx => ({[group_key := Z.of_nat idx]} : Selection))
                   (reverse (seq 0 (length members)))).
  destruct (rows_for_selections row_elem row_parent row_tag sels hs)
    as [rows hs'] eqn:Hrows.
  exists rows, hs'.
  assert ((group_key, members) ∈ row_groups row_elem) as Hin
    by (rewrite Hgroup; left).
  split_and!.
  - rewrite extract_rows_for_element_tree, Hgroup.
    + rewrite cartesian_single. fold sels. by rewrite Hrows.
    + rewrite Hgroup. simpl. lia.
  - by apply tree_groups_elem in Hin as [_ ?].
  - pose proof (rows_for_selections_length row_elem row_parent row_tag sels hs)
      as Hlen.
    rewrite Hrows in Hlen. simpl in Hlen. rewrite Hlen. unfold sels.
    by rewrite length_map, length_reverse, length_seq.
  - done.
  - intros Htag idx child Hchild.
    apply lookup_lt_Some in Hchild as Hidx.
    assert (sels !! (length members - 1 - idx)
            = Some ({[group_key := Z.of_nat idx]} : Selection)) as Hlookup.
    { unfold sels. rewrite list_lookup_fmap, reverse_lookup
        by (rewrite length_seq; lia).
      rewrite length_seq, lookup_seq_lt by lia. simpl. do 3 f_equal. lia. }
    destruct (rows_for_selections_shows row_elem row_parent row_tag sels hs _ _
                group_key members idx child Htag Hin Hlookup
                (lookup_singleton_eq _ _) Hchild)
      as (row & Hrow & Hshows).
    rewrite Hrows in Hrow, Hshows. by exists row.
Qed.

(** ** The rows of a document *)

Lemma extract_all_length fuel row_elements row_parent row_tag rows0 hs :
  Forall (fun row_elem => expansion_steps (row_groups row_elem) ≤ fuel)
         row_elements →
  ∃ rows hs',
    extract_all fuel row_elements row_parent row_tag rows0 hs = Some (rows, hs')
    ∧ length rows
      = length rows0
        + list_sum (map (fun row_elem =>
                           product (group_sizes (row_groups row_elem)))
                        row_elements).
Proof.
  intros Hfuel. revert rows0 hs.
  induction Hfuel as [|row_elem rest Hrow _ IH]; intros rows0 hs; simpl.
  { exists rows0, hs. split; [done | lia]. }
  rewrite extract_rows_for_element_tree by done.
  pose proof (rows_for_selections_length row_elem row_parent row_tag
                (cartesian (row_groups row_elem) ∅) hs) as Hlen.
  destruct (rows_for_selections _ _ _ _ _) as [extracted hs1]. simpl in *.
  destruct (IH (rows0 ++ extracted) hs1) as (rows & hs' & -> & Hrows).
  exists rows, hs'. split; [done |].
  rewrite Hrows, length_app, Hlen, length_cartesian. lia.
Qed.

(** X16. With fuel for every row element, the extraction of a document
    returns one row per combination of indices of the groups in each row
    element's tree: the number of rows is the sum, over the row elements the
    locator finds, of the products of their group sizes, so every row
    element contributes at least one row. *)
Theorem extract_table_row_count (fuel : nat) (root : Element) (hs : HeaderState)
    (row_parent : option Element) (row_tag : string)
    (row_elements : list Element) :
  find_row_parent_and_tag root = Some (row_parent, row_tag, row_elements) →
  Forall (fun row_elem => expansion_steps (row_groups row_elem) ≤ fuel)
         row_elements →
  ∃ rows hs',
    extract_table_from_file fuel root hs = Some (rows, hs')
    ∧ length rows
      = list_sum (map (fun row_elem =>
                         product (group_sizes (row_groups row_elem)))
                      row_elements)
    ∧ length row_elements ≤ length rows.
Proof.
  intros Hfind Hcover.
  destruct (extract_all_length fuel row_elements row_parent row_tag [] hs Hcover)
    as (rows & hs' & Hex & Hlen).
  exists rows, hs'.
  unfold extract_table_from_file. rewrite Hfind. simpl.
  split_and!; [done | by rewrite Hlen |].
  rewrite Hlen. simpl. clear.
  induction row_elements as [|row_elem rest IH]; simpl; [lia |].
  pose proof (product_group_sizes_pos row_elem [tag row_elem]) as Hpos.
  rewrite reachable_groups_tree in Hpos. unfold row_groups at 1. lia.
Qed.

(** ** The rows of the sample documents *)

(** Six rows for the groups of sizes 2 and 3; the first is the row of the
    indices [(1, 2)] and shows [c1] and [d2], the last is the row of the
    indices [(0, 0)] and shows [c0] and [d0]. *)
Lemma extract_rows_count_witness :
  ∃ rows hs',
    extract_rows_for_element 9 row_two_groups None "b" fresh_header = Some (rows, hs')
    ∧ length rows = 6
    ∧ (∃ row col_c col_d,
          rows !! 0 = Some row
          ∧ header_paths hs' !! col_c = Some ["b"; "c"]
          ∧ od_get row col_c = Some "c1"
          ∧ header_paths hs' !! col_d = Some ["b"; "d"]
          ∧ od_get row col_d = Some "d2")
    ∧ (∃ row col_c col_d,
          rows !! 5 = Some row
          ∧ header_paths hs' !! col_c = Some ["b"; "c"]
          ∧ od_get row col_c = Some "c0"
          ∧ header_paths hs' !! col_d = Some ["b"; "d"]
          ∧ od_get row col_d = Some "d0").
Proof.
  destruct (extract_rows_count 9 row_two_groups None "b" fresh_header)
    as (rows & hs' & Hex & _ & _ & Hsix); [vm_compute; lia |].
  destruct (Hsix ["b"; "c"] [leaf "c" "c0"; leaf "c" "c1"]
              ["b"; "d"] [leaf "d" "d0"; leaf "d" "d1"; leaf "d" "d2"])
    as (Hlen & _ & Hshows); [vm_compute; reflexivity | reflexivity | reflexivity |].
  assert (∀ p : Element, None = Some p → tag p ≠ tag row_two_groups) as Htag
    by (intros p Hp; discriminate Hp).
  destruct (Hshows Htag 1 2 (leaf "c" "c1") (leaf "d" "d2") eq_refl eq_refl)
    as (first & Hfirst & Hc1 & Hd2).
  destruct (Hshows Htag 0 0 (leaf "c" "c0") (leaf "d" "d0") eq_refl eq_refl)
    as (last & Hlast & Hc0 & Hd0).
  destruct (Hc1 ["b"; "c"] "c1") as (col_c1 & ? & ?);
    [vm_compute; left | discriminate |].
  destruct (Hd2 ["b"; "d"] "d2") as (col_d2 & ? & ?);
    [vm_compute; left | discriminate |].
  destruct (Hc0 ["b"; "c"] "c0") as (col_c0 & ? & ?);
    [vm_compute; left | discriminate |].
  destruct (Hd0 ["b"; "d"] "d0") as (col_d0 & ? & ?);
    [vm_compute; left | discriminate |].
  exists rows, hs'. split; [exact Hex |]. split; [exact Hlen |]. split.
  - exists first, col_c1, col_d2. repeat (split; [assumption |]). assumption.
  - exists last, col_c0, col_d0. repeat (split; [assumption |]). assumption.
Defined.

(** The three rows of [<b><c>1</c><c>2</c><c>3</c></b>]: the first shows
    the last member, the last shows the first member. *)
Lemma extract_rows_single_group_reversed_witness :
  ∃ rows hs',
    extract_rows_for_element 4 row_one_group None "b" fresh_header = Some (rows, hs')
    ∧ length rows = 3
    ∧ (∃ row col, rows !! 0 = Some row
                  ∧ header_paths hs' !! col = Some ["b"; "c"]
                  ∧ od_get row col = Some "3")
    ∧ (∃ row col, rows !! 1 = Some row
                  ∧ header_paths hs' !! col = Some ["b"; "c"]
                  ∧ od_get row col = Some "2")
    ∧ (∃ row col, rows !! 2 = Some row
                  ∧ header_paths hs' !! col = Some ["b"; "c"]
                  ∧ od_get row col = Some "1").
Proof.
  destruct (extract_rows_single_group_reversed 4 row_one_group None "b"
              fresh_header ["b"; "c"] [leaf "c" "1"; leaf "c" "2"; leaf "c" "3"])
    as (rows & hs' & Hex & _ & Hlen & _ & Hshows);
    [vm_compute; reflexivity | simpl; lia |].
  assert (∀ p : Element, None = Some p → tag p ≠ tag row_one_group) as Htag
    by (intros p Hp; discriminate Hp).
  destruct (Hshows Htag 2 (leaf "c" "3") eq_refl) as (row0 & Hrow0 & Hs0).
  destruct (Hshows Htag 1 (leaf "c" "2") eq_refl) as (row1 & Hrow1 & Hs1).
  destruct (Hshows Htag 0 (leaf "c" "1") eq_refl) as (row2 & Hrow2 & Hs2).
  destruct (Hs0 ["b"; "c"] "3") as (col0 & ? & ?);
    [vm_compute; left | discriminate |].
  destruct (Hs1 ["b"; "c"] "2") as (col1 & ? & ?);
    [vm_compute; left | discriminate |].
  destruct (Hs2 ["b"; "c"] "1") as (col2 & ? & ?);
    [vm_compute; left | discriminate |].
  exists rows, hs'. split; [exact Hex |]. split; [exact Hlen |]. split_and!.
  - exists row0, col0. repeat (split; [assumption |]). assumption.
  - exists row1, col1. repeat (split; [assumption |]). assumption.
  - exists row2, col2. repeat (split; [assumption |]). assumption.
Defined.

(** The three row elements of [doc_three_rows] have two groups of sizes 2
    and 3, one group of size 3 and no group: ten rows. *)
Lemma extract_table_row_count_witness :
  ∃ rows hs',
    extract_table_from_file 9 doc_three_rows fresh_header = Some (rows, hs')
    ∧ length rows = 6 + 3 + 1
    ∧ 3 ≤ length rows.
Proof.
  destruct (extract_table_row_count 9 doc_three_rows fresh_header
              (Some doc_three_rows) "b"
              [row_two_groups; row_one_group; node "b" [leaf "e" "F"]])
    as (rows & hs' & Hex & Hlen & Hle).
  - vm_compute. reflexivity.
  - repeat constructor; vm_compute; lia.
  - exists rows, hs'. split; [exact Hex |]. split; [exact Hlen | exact Hle].
Defined.

Example extract_table_three_rows :
  row_groups row_two_groups
  = [(["b"; "c"], [leaf "c" "c0"; leaf "c" "c1"]);
     (["b"; "d"], [leaf "d" "d0"; leaf "d" "d1"; leaf "d" "d2"])]
  ∧ row_groups row_group_in_group
    = [(["b"; "c"], [node "c" [leaf "d" "1"; leaf "d" "2"];
                     node "c" [leaf "d" "3"; leaf "d" "4"]])]
  ∧ convert_xml_to_csv 9 doc_three_rows
    = Some (["h"; "c"; "d"; "e"],
            [ ["H"; "c1"; "d2"; "E"]; ["H"; "c1"; "d1"; "E"]; ["H"; "c1"; "d0"; "E"];
              ["H"; "c0"; "d2"; "E"]; ["H"; "c0"; "d1"; "E"]; ["H"; "c0"; "d0"; "E"];
              ["H"; "3"; ""; ""]; ["H"; "2"; ""; ""]; ["H"; "1"; ""; ""];
              ["H"; ""; ""; "F"] ]).
Proof. split_and!; vm_compute; reflexivity. Qed.

(** ** White space *)

(** [str.strip()] removes the white space of Unicode, not only of ASCII:
    a no-break space, an em space and an ideographic space go as a blank
    does; inside the text they stay. *)
Example strip_unicode :
  strip (nbsp +:+ "v w" +:+ nbsp) = "v w"
  ∧ strip (idsp +:+ " " +:+ emsp +:+ "v" +:+ nbsp +:+ "w" +:+ emsp)
    = "v" +:+ nbsp +:+ "w"
  ∧ strip (nbsp +:+ emsp +:+ idsp) = "".
Proof. split_and!; vm_compute; reflexivity. Qed.

(** A leaf that holds a no-break space and nothing else is an empty leaf:
    it is yielded with the text [""], gets no value and no column. *)
Example nbsp_leaf_suppressed :
  iter_scalar_leaves (node "b" [leaf "x" nbsp; leaf "y" "1"]) ∅ None
  = [(["b"; "x"], ""); (["b"; "y"], "1")]
  ∧ convert_xml_to_csv 1 doc_nbsp_leaf = Some (["y"; "x"], [["1"; ""]; ["2"; "v"]]).
Proof. split; vm_compute; reflexivity. Qed.
